(** * Constraint-sampler selection (moveit_core), shallow embedding

    Sources embedded here:
    - [constraint_samplers/src/constraint_sampler_manager.cpp]
      ([ConstraintSamplerManager::selectSampler] and
      [ConstraintSamplerManager::selectDefaultSampler]);
    - [kinematic_trajectory/src/kinematic_trajectory.cpp]
      ([KinematicTrajectory::swap], [append], [reverse], [clear] and
      [getRobotTrajectoryMsg]).

    Conventions.
    - A [std::map] whose iteration order is observable is an association
      list kept in ascending key order ([StdMap]); the coverage map, whose
      order is not observable, is a [gmap]; a [std::set<std::size_t>] is a
      [gset nat].
    - Sampling volumes are C++ [double]s, compared with [operator<].  A
      [double] is a binary64 number of IEEE 754, that is a primitive [float];
      [operator<] is [PrimFloat.ltb], which is false as soon as one side is
      NaN.
    - Collaborators whose code is outside the manager (constraint
      configuration, sampler configuration, the robot model) are fields of
      [PlanningScene].
    - Constructions of samplers and calls that a caller can observe are
      recorded in a trace of [Event]s. *)

From Stdlib Require Import ZArith String List Lia Sorted Floats Uint63.
From stdpp Require Import base option list gmap strings.

Local Open Scope string_scope.
Local Open Scope list_scope.

(* ===================================================================== *)
(** ** [std::map] with observable iteration order *)
(* ===================================================================== *)

Module StdMap.
Section map.
Context {K V : Type}.
(** [std::less<K>] *)
Variable lt : K -> K -> bool.

Definition t := list (K * V).

Definition empty : t := [].

(** [m.find(k)]: the entry whose key is equivalent to [k], if any. *)
Fixpoint find (k : K) (m : t) : option V :=
  match m with
  | [] => None
  | (k', v') :: m' =>
      if lt k k' then None
      else if lt k' k then find k m'
      else Some v'
  end.

(** [m[k] = v]: overwrite the entry for [k] or insert it at its place. *)
Fixpoint insert (k : K) (v : V) (m : t) : t :=
  match m with
  | [] => [(k, v)]
  | (k', v') :: m' =>
      if lt k k' then (k, v) :: m
      else if lt k' k then (k', v') :: insert k v m'
      else (k, v) :: m'
  end.

Definition size (m : t) : nat := length m.

(** Iteration from [begin()] to [end()]. *)
Definition elements (m : t) : list (K * V) := m.

(** The invariant of the container: keys strictly ascending along the
    iteration. *)
Definition sorted (m : t) : Prop :=
  StronglySorted (fun a b => lt a.1 b.1 = true) m.
End map.
End StdMap.

(* ===================================================================== *)
(** ** Messages, constraint objects, samplers *)
(* ===================================================================== *)

(** [moveit_msgs::JointConstraint]. *)
Record JointConstraintMsg := {
  joint_name : string;
  position : Z;
  tolerance_above : Z;
  tolerance_below : Z;
  jc_weight : Z
}.

(** [moveit_msgs::PositionConstraint]; the manager reads [link_name] only,
    the remaining fields (offset, region, weight) are carried along. *)
Record PositionConstraintMsg := {
  pc_link_name : string;
  pc_region : list Z
}.

(** [moveit_msgs::OrientationConstraint]. *)
Record OrientationConstraintMsg := {
  oc_link_name : string;
  oc_tolerances : list Z
}.

(** [moveit_msgs::Constraints]. *)
Record Constraints := {
  joint_constraints : list JointConstraintMsg;
  position_constraints : list PositionConstraintMsg;
  orientation_constraints : list OrientationConstraintMsg
}.

(** Configured [kinematic_constraints] objects: each is determined by the
    message it was configured from (for a fixed scene). *)
Record JointConstraint := mkJointConstraint { jc_msg : JointConstraintMsg }.
Record PositionConstraint := mkPositionConstraint { pc_msg : PositionConstraintMsg }.
Record OrientationConstraint := mkOrientationConstraint { oc_msg : OrientationConstraintMsg }.

(** [IKSamplingPose]: position and/or orientation goal. *)
Record IKSamplingPose := {
  position_constraint_ : option PositionConstraint;
  orientation_constraint_ : option OrientationConstraint
}.

(** A configured [JointConstraintSampler]. *)
Record JointConstraintSampler := {
  jcs_group : string;
  jcs_constraints : list JointConstraint
}.

(** A configured [IKConstraintSampler]. *)
Record IKConstraintSampler := {
  iks_group : string;
  iks_pose : IKSamplingPose
}.

(** [ConstraintSamplerPtr] pointing to an object: the three samplers the
    manager builds, and whatever else a registered allocator returns.
    [UnionSampler g l] is [new UnionConstraintSampler(scene, g, l)]: it
    records the list handed to the constructor. *)
#[warnings="-register-all"]
Inductive ConstraintSampler :=
| JointSampler (s : JointConstraintSampler)
| IKSampler (s : IKConstraintSampler)
| UnionSampler (group : string) (samplers : list ConstraintSampler)
| OtherSampler (id : nat).

(** [robot_model::SolverAllocatorFn] (a [boost::function]); [None] where the
    source tests it for emptiness. *)
Definition SolverAllocatorFn := nat.

(** [const robot_model::JointModelGroup*] as a map key: ordered by address. *)
Definition GroupPtr := N.

(** [robot_model::JointModelGroup], as far as the manager reads it. *)
Record JointModelGroup := {
  getName : string;
  getVariableNames : list string;
  hasLinkModel : string -> bool;
  getSolverAllocators :
    option SolverAllocatorFn * @StdMap.t GroupPtr SolverAllocatorFn
}.

(** The planning scene with its robot model and transforms: everything the
    manager asks of its collaborators. *)
Record PlanningScene := {
  (** [getRobotModel()->getJointModelGroup(name)], null when unknown *)
  getJointModelGroup : string -> option JointModelGroup;
  (** the group a [const JointModelGroup*] points to *)
  deref : GroupPtr -> JointModelGroup;
  (** [kinematic_constraints::JointConstraint::configure] *)
  JointConstraint_configure : JointConstraintMsg -> bool;
  (** [JointConstraint::getJointVariableName], after configure *)
  getJointVariableName : JointConstraintMsg -> string;
  (** [PositionConstraint::configure(msg, scene->getTransforms())] *)
  PositionConstraint_configure : PositionConstraintMsg -> bool;
  (** [OrientationConstraint::configure(msg, scene->getTransforms())] *)
  OrientationConstraint_configure : OrientationConstraintMsg -> bool;
  (** [JointConstraintSampler(scene, group).configure(jc)] *)
  JointConstraintSampler_configure : string -> list JointConstraint -> bool;
  (** [IKConstraintSampler(scene, group).configure(pose)] *)
  IKConstraintSampler_configure : string -> IKSamplingPose -> bool;
  (** [IKConstraintSampler::getSamplingVolume], a [double] *)
  getSamplingVolume : IKConstraintSampler -> float
}.

(* ===================================================================== *)
(** ** Observable events and the monad of the manager *)
(* ===================================================================== *)

Inductive Event :=
(** [new JointConstraintSampler(scene, g)] followed by [configure(jc)] *)
| EJointSampler (group : string) (jc : list JointConstraint)
(** [new IKConstraintSampler(scene, g)] followed by [configure(pose)] *)
| EIKSampler (group : string) (pose : IKSamplingPose)
(** [new UnionConstraintSampler(scene, g, samplers)] *)
| EUnionSampler (group : string) (samplers : list ConstraintSampler)
(** entry into [selectDefaultSampler(scene, g, constr)] *)
| ESelectDefault (group : string) (constr : Constraints)
(** [sampler_alloc_[i]->canService(...)] *)
| ECanService (i : nat)
(** [sampler_alloc_[i]->alloc(...)] *)
| EAlloc (i : nat).

(** A computation yields a value and the events it caused, or [None] when
    the recursion budget is exhausted before it returns. *)
Definition M (A : Type) : Type := option (A * list Event).

Definition ret {A} (a : A) : M A := Some (a, []).

Definition bind {A B} (m : M A) (f : A -> M B) : M B :=
  match m with
  | None => None
  | Some (a, t1) =>
      match f a with
      | None => None
      | Some (b, t2) => Some (b, t1 ++ t2)
      end
  end.

Definition emit (e : Event) : M unit := Some (tt, [e]).

Declare Scope sel_scope.
Delimit Scope sel_scope with sel.
Notation "x <- c1 ;; c2" := (bind c1 (fun x => c2))
  (at level 100, c1 at next level, right associativity) : sel_scope.
Notation "c1 ;;; c2" := (bind c1 (fun _ => c2))
  (at level 100, right associativity) : sel_scope.
Local Open Scope sel_scope.

(** A C++ block either executes [return v] or falls through with a value. *)
Inductive Flow (R A : Type) :=
| Return (r : R)
| Continue (a : A).
Arguments Return {R A} r.
Arguments Continue {R A} a.

(** Monadic left fold: a [for] loop over a vector. *)
Fixpoint mfoldl {A B} (f : A -> B -> M A) (l : list B) (a : A) : M A :=
  match l with
  | [] => ret a
  | x :: l' => a' <- f a x ;; mfoldl f l' a'
  end.

(* ===================================================================== *)
(** ** [selectDefaultSampler]: joint coverage (source lines 64-118) *)
(* ===================================================================== *)

Section selection.
Variable scene : PlanningScene.

(** Lines 70-72: [joint_coverage[name] = false] for every variable. *)
Definition init_coverage (vars : list string) : gmap string bool :=
  foldl (fun cov v => <[v := false]> cov) ∅ vars.

(** Lines 78-86: one joint constraint of the input. *)
Definition joint_step (st : gmap string bool * list JointConstraint)
    (msg : JointConstraintMsg) : gmap string bool * list JointConstraint :=
  if JointConstraint_configure scene msg then
    match st.1 !! getJointVariableName scene msg with
    | Some _ =>
        (<[getJointVariableName scene msg := true]> st.1,
         st.2 ++ [mkJointConstraint msg])
    | None => st
    end
  else st.

(** Lines 76-87. *)
Definition joint_loop (st : gmap string bool * list JointConstraint)
    (msgs : list JointConstraintMsg) :=
  foldl joint_step st msgs.

(** Lines 89-95. *)
Definition full_coverage (cov : gmap string bool) : bool :=
  forallb snd (map_to_list cov).

(** [new JointConstraintSampler(scene, g)] then [configure(jc)]:
    the configured sampler, or nothing when configuration fails. *)
Definition make_joint_sampler (g : string) (jc : list JointConstraint)
    : M (option ConstraintSampler) :=
  emit (EJointSampler g jc) ;;;
  if JointConstraintSampler_configure scene g jc
  then ret (Some (JointSampler {| jcs_group := g; jcs_constraints := jc |}))
  else ret None.

(** Lines 64-118: returns the sampler ([Return]) under full coverage, or
    falls through with [joint_sampler] (possibly null). *)
Definition joint_pass (jmg : JointModelGroup) (constr : Constraints)
    : M (Flow (option ConstraintSampler) (option ConstraintSampler)) :=
  match joint_constraints constr with
  | [] => ret (Continue None)
  | _ :: _ =>
      let '(joint_coverage, jc) :=
        joint_loop (init_coverage (getVariableNames jmg), [])
                   (joint_constraints constr) in
      if full_coverage joint_coverage then
        sampler <- make_joint_sampler (getName jmg) jc ;;
        match sampler with
        | Some s => ret (Return (Some s))
        | None => ret (Continue None)
        end
      else
        match jc with
        | [] => ret (Continue None)
        | _ :: _ =>
            sampler <- make_joint_sampler (getName jmg) jc ;;
            ret (Continue sampler)
        end
  end.

(* ===================================================================== *)
(** ** Whole-group IK matching (source lines 129-255) *)
(* ===================================================================== *)

(** [usedL]: link name to the IK sampler kept for it. *)
Definition CandidateTable := @StdMap.t string IKConstraintSampler.

(** The [bool use] blocks (lines 150-159, 179-188, 205-214). *)
Definition store_candidate (usedL : CandidateTable) (link : string)
    (iks : IKConstraintSampler) : CandidateTable :=
  let use :=
    match StdMap.find String.ltb link usedL with
    | Some stored =>
        if (getSamplingVolume scene stored <? getSamplingVolume scene iks)%float
        then false else true
    | None => true
    end in
  if use then StdMap.insert String.ltb link iks usedL else usedL.

(** [new IKConstraintSampler(scene, g)], [configure(pose)], and on success
    the [use] block. *)
Definition try_candidate (g : string) (link : string) (pose : IKSamplingPose)
    (usedL : CandidateTable) : M CandidateTable :=
  emit (EIKSampler g pose) ;;;
  if IKConstraintSampler_configure scene g pose
  then ret (store_candidate usedL link {| iks_group := g; iks_pose := pose |})
  else ret usedL.

(** Lines 142-162: body of the nested loop over (p, o). *)
Definition full_pose_step (g : string) (pm : PositionConstraintMsg)
    (usedL : CandidateTable) (om : OrientationConstraintMsg) : M CandidateTable :=
  if String.eqb (pc_link_name pm) (oc_link_name om) then
    if PositionConstraint_configure scene pm
       && OrientationConstraint_configure scene om
    then try_candidate g (pc_link_name pm)
           {| position_constraint_ := Some (mkPositionConstraint pm);
              orientation_constraint_ := Some (mkOrientationConstraint om) |}
           usedL
    else ret usedL
  else ret usedL.

(** Lines 140-162. *)
Definition full_pose_loop (g : string) (constr : Constraints)
    (usedL : CandidateTable) : M CandidateTable :=
  mfoldl (fun usedL pm =>
            mfoldl (full_pose_step g pm) (orientation_constraints constr) usedL)
         (position_constraints constr) usedL.

(** Lines 167-191. *)
Definition position_step (g : string) (usedL_fullPose : CandidateTable)
    (usedL : CandidateTable) (pm : PositionConstraintMsg) : M CandidateTable :=
  match StdMap.find String.ltb (pc_link_name pm) usedL_fullPose with
  | Some _ => ret usedL
  | None =>
      if PositionConstraint_configure scene pm
      then try_candidate g (pc_link_name pm)
             {| position_constraint_ := Some (mkPositionConstraint pm);
                orientation_constraint_ := None |}
             usedL
      else ret usedL
  end.

(** Lines 193-217. *)
Definition orientation_step (g : string) (usedL_fullPose : CandidateTable)
    (usedL : CandidateTable) (om : OrientationConstraintMsg) : M CandidateTable :=
  match StdMap.find String.ltb (oc_link_name om) usedL_fullPose with
  | Some _ => ret usedL
  | None =>
      if OrientationConstraint_configure scene om
      then try_candidate g (oc_link_name om)
             {| position_constraint_ := None;
                orientation_constraint_ := Some (mkOrientationConstraint om) |}
             usedL
      else ret usedL
  end.

(** Lines 134-217: the candidate table after the three matching loops. *)
Definition ik_matching (g : string) (constr : Constraints) : M CandidateTable :=
  usedL_fullPose <- full_pose_loop g constr StdMap.empty ;;
  usedL <- mfoldl (position_step g usedL_fullPose)
                  (position_constraints constr) usedL_fullPose ;;
  mfoldl (orientation_step g usedL_fullPose)
         (orientation_constraints constr) usedL.

(** Lines 234-244: scan for the smallest volume, starting from the first
    entry; a later entry wins only with a strictly smaller volume. *)
Definition min_volume_step (acc : IKConstraintSampler * float)
    (it : string * IKConstraintSampler) : IKConstraintSampler * float :=
  let v := getSamplingVolume scene it.2 in
  if (v <? acc.2)%float then (it.2, v) else acc.

Definition min_volume (first : IKConstraintSampler)
    (rest : list (string * IKConstraintSampler)) : IKConstraintSampler :=
  (foldl min_volume_step (first, getSamplingVolume scene first) rest).1.

(** Lines 221-227 and 245-253: alone, or in a union after what
    [samplers] already holds. *)
Definition return_with (g : string) (samplers : list ConstraintSampler)
    (iks : IKConstraintSampler) : M (option ConstraintSampler) :=
  match samplers with
  | [] => ret (Some (IKSampler iks))
  | _ :: _ =>
      emit (EUnionSampler g (samplers ++ [IKSampler iks])) ;;;
      ret (Some (UnionSampler g (samplers ++ [IKSampler iks])))
  end.

(** Lines 219-254. *)
Definition ik_resolve (g : string) (samplers : list ConstraintSampler)
    (usedL : CandidateTable) : M (Flow (option ConstraintSampler) unit) :=
  match StdMap.elements usedL with
  | [] => ret (Continue tt)
  | [(_, iks)] => r <- return_with g samplers iks ;; ret (Return r)
  | (_, first) :: rest =>
      r <- return_with g samplers (min_volume first rest) ;; ret (Return r)
  end.

(** Lines 129-255. *)
Definition ik_pass (jmg : JointModelGroup) (constr : Constraints)
    (samplers : list ConstraintSampler)
    : M (Flow (option ConstraintSampler) unit) :=
  match (getSolverAllocators jmg).1 with
  | Some _ =>
      usedL <- ik_matching (getName jmg) constr ;;
      ik_resolve (getName jmg) samplers usedL
  | None => ret (Continue tt)
  end.

(* ===================================================================== *)
(** ** Subgroup decomposition (source lines 259-305) *)
(* ===================================================================== *)

(** Lines 270-276 and 278-284: the constraints whose link is in the
    subgroup and whose index is not yet in [used] are appended to the
    sub-constraint list, and their indices are inserted into [used].
    [i] is the index of the head of [msgs] in the input vector. *)
Fixpoint collect {A} (link : A -> string) (sub : JointModelGroup)
    (msgs : list A) (i : nat) (acc : list A) (used : gset nat)
    : list A * gset nat :=
  match msgs with
  | [] => (acc, used)
  | m :: rest =>
      if hasLinkModel sub (link m) then
        if bool_decide (i ∈ used)
        then collect link sub rest (S i) acc used
        else collect link sub rest (S i) (acc ++ [m]) ({[i]} ∪ used)
      else collect link sub rest (S i) acc used
  end.

(** The local variables of the subgroup loop. *)
Record SubgroupState := {
  usedP : gset nat;
  usedO : gset nat;
  samplers : list ConstraintSampler;
  some_sampler_valid : bool
}.

(** Lines 269-284: [sub_constr] for one subgroup and the index sets
    afterwards. *)
Definition build_sub_constr (sub : JointModelGroup) (constr : Constraints)
    (uP uO : gset nat) : Constraints * gset nat * gset nat :=
  let '(ps, uP') :=
    collect pc_link_name sub (position_constraints constr) 0 [] uP in
  let '(os, uO') :=
    collect oc_link_name sub (orientation_constraints constr) 0 [] uO in
  ({| joint_constraints := [];
      position_constraints := ps;
      orientation_constraints := os |}, uP', uO').

(** Line 287. *)
Definition sub_constr_nonempty (c : Constraints) : bool :=
  match orientation_constraints c, position_constraints c with
  | [], [] => false
  | _, _ => true
  end.

Section with_recursion.
(** The recursive call [selectDefaultSampler(scene, name, sub_constr)]. *)
Variable rec : string -> Constraints -> M (option ConstraintSampler).

(** Lines 266-299. *)
Fixpoint subgroup_loop (its : list (GroupPtr * SolverAllocatorFn))
    (constr : Constraints) (st : SubgroupState) : M SubgroupState :=
  match its with
  | [] => ret st
  | it :: rest =>
      let sub := deref scene it.1 in
      let '(sub_constr, uP, uO) :=
        build_sub_constr sub constr (usedP st) (usedO st) in
      if sub_constr_nonempty sub_constr then
        cs <- rec (getName sub) sub_constr ;;
        match cs with
        | Some s =>
            subgroup_loop rest constr
              {| usedP := uP; usedO := uO;
                 samplers := samplers st ++ [s];
                 some_sampler_valid := true |}
        | None =>
            subgroup_loop rest constr
              {| usedP := uP; usedO := uO;
                 samplers := samplers st;
                 some_sampler_valid := some_sampler_valid st |}
        end
      else
        subgroup_loop rest constr
          {| usedP := uP; usedO := uO;
             samplers := samplers st;
             some_sampler_valid := some_sampler_valid st |}
  end.

(** Lines 259-305. *)
Definition subgroup_pass (jmg : JointModelGroup) (constr : Constraints)
    (samplers0 : list ConstraintSampler)
    : M (Flow (option ConstraintSampler) unit) :=
  match StdMap.elements (getSolverAllocators jmg).2 with
  | [] => ret (Continue tt)
  | its =>
      st <- subgroup_loop its constr
              {| usedP := ∅; usedO := ∅;
                 samplers := samplers0;
                 some_sampler_valid := false |} ;;
      if some_sampler_valid st then
        emit (EUnionSampler (getName jmg) (samplers st)) ;;;
        ret (Return (Some (UnionSampler (getName jmg) (samplers st))))
      else ret (Continue tt)
  end.

(** Lines 120-122: [samplers] initially holds the joint sampler, if any. *)
Definition initial_samplers (joint_sampler : option ConstraintSampler)
    : list ConstraintSampler :=
  match joint_sampler with
  | Some s => [s]
  | None => []
  end.

(** The body of [selectDefaultSampler] (lines 54-317). *)
Definition selectDefaultSampler_body (group_name : string)
    (constr : Constraints) : M (option ConstraintSampler) :=
  emit (ESelectDefault group_name constr) ;;;
  match getJointModelGroup scene group_name with
  | None => ret None
  | Some jmg =>
      r <- joint_pass jmg constr ;;
      match r with
      | Return s => ret s
      | Continue joint_sampler =>
          r <- ik_pass jmg constr (initial_samplers joint_sampler) ;;
          match r with
          | Return s => ret s
          | Continue _ =>
              r <- subgroup_pass jmg constr
                     (initial_samplers joint_sampler) ;;
              match r with
              | Return s => ret s
              | Continue _ => ret joint_sampler
              end
          end
      end
  end.
End with_recursion.

(** [selectDefaultSampler], with a bound on the depth of the recursion
    into subgroups: [None] when the bound is reached. *)
Fixpoint selectDefaultSampler (fuel : nat) (group_name : string)
    (constr : Constraints) : M (option ConstraintSampler) :=
  match fuel with
  | O => None
  | S fuel' =>
      selectDefaultSampler_body (selectDefaultSampler fuel') group_name constr
  end.

End selection.

(* ===================================================================== *)
(** ** [selectSampler] (source lines 42-52) *)
(* ===================================================================== *)

(** [ConstraintSamplerAllocator]: the interface of registered allocators. *)
Record ConstraintSamplerAllocator := {
  canService : PlanningScene -> string -> Constraints -> bool;
  alloc : PlanningScene -> string -> Constraints -> option ConstraintSampler
}.

Record ConstraintSamplerManager := {
  sampler_alloc_ : list ConstraintSamplerAllocator
}.

(** Lines 46-48, from index [i] on. *)
Fixpoint try_allocators (allocs : list ConstraintSamplerAllocator) (i : nat)
    (scene : PlanningScene) (group_name : string) (constr : Constraints)
    : M (Flow (option ConstraintSampler) unit) :=
  match allocs with
  | [] => ret (Continue tt)
  | a :: rest =>
      emit (ECanService i) ;;;
      if canService a scene group_name constr then
        emit (EAlloc i) ;;;
        ret (Return (alloc a scene group_name constr))
      else try_allocators rest (S i) scene group_name constr
  end.

Definition selectSampler (fuel : nat) (mgr : ConstraintSamplerManager)
    (scene : PlanningScene) (group_name : string) (constr : Constraints)
    : M (option ConstraintSampler) :=
  r <- try_allocators (sampler_alloc_ mgr) 0 scene group_name constr ;;
  match r with
  | Return s => ret s
  | Continue _ => selectDefaultSampler scene fuel group_name constr
  end.

(* ===================================================================== *)
(** ** [KinematicTrajectory::swap] (kinematic_trajectory.cpp, lines 69-75) *)
(* ===================================================================== *)

Module KinematicTrajectory.
Section trajectory.
(** [KinematicModelConstPtr], [KinematicStatePtr] and [double]: the
    member functions embedded here only move these values around. *)
Context {Model State Duration : Type}.

Record t := {
  kmodel_ : Model;
  group_ : option GroupPtr;
  waypoints_ : list State;
  duration_from_previous_ : list Duration
}.

(** Trajectory objects live in a store [gmap nat t]; [swap] takes its
    argument by reference, so [this] and [other] are addresses. *)

(** [x.f.swap(y.f)] for the objects at addresses [x] and [y]: both are
    read, then [x] is written, then [y] (which is [x] when aliased). *)
Definition swap_member {F} (get : t -> F) (set : F -> t -> t)
    (x y : nat) (h : gmap nat t) : option (gmap nat t) :=
  a ← h !! x;
  b ← h !! y;
  let h1 := <[x := set (get b) a]> h in
  b' ← h1 !! y;
  Some (<[y := set (get a) b']> h1).

Definition set_kmodel (v : Model) (o : t) : t :=
  {| kmodel_ := v; group_ := group_ o; waypoints_ := waypoints_ o;
     duration_from_previous_ := duration_from_previous_ o |}.
Definition set_group (v : option GroupPtr) (o : t) : t :=
  {| kmodel_ := kmodel_ o; group_ := v; waypoints_ := waypoints_ o;
     duration_from_previous_ := duration_from_previous_ o |}.
Definition set_waypoints (v : list State) (o : t) : t :=
  {| kmodel_ := kmodel_ o; group_ := group_ o; waypoints_ := v;
     duration_from_previous_ := duration_from_previous_ o |}.
Definition set_durations (v : list Duration) (o : t) : t :=
  {| kmodel_ := kmodel_ o; group_ := group_ o; waypoints_ := waypoints_ o;
     duration_from_previous_ := v |}.

(** [void KinematicTrajectory::swap(KinematicTrajectory &other)]:
    line 74 swaps [duration_from_previous_] of [this] with itself. *)
Definition swap (this other : nat) (h : gmap nat t) : option (gmap nat t) :=
  h ← swap_member kmodel_ set_kmodel this other h;
  h ← swap_member group_ set_group this other h;
  h ← swap_member waypoints_ set_waypoints this other h;
  swap_member duration_from_previous_ set_durations this this h.
End trajectory.
Arguments t : clear implicits.

Section members.
Context {Model State Duration : Type}.
(** [double] addition, as [+=] uses it. *)
Variable add : Duration -> Duration -> Duration.

(** [void KinematicTrajectory::clear()] (lines 139-143). *)
Definition clear (o : t Model State Duration) : t Model State Duration :=
  {| kmodel_ := kmodel_ o; group_ := group_ o;
     waypoints_ := []; duration_from_previous_ := [] |}.

(** [void KinematicTrajectory::swap(std::vector<KinematicStatePtr> &other)]
    (lines 77-81): the trajectory and the vector afterwards. *)
Definition swap_waypoints (o : t Model State Duration) (other : list State)
    : t Model State Duration * list State :=
  ({| kmodel_ := kmodel_ o; group_ := group_ o;
      waypoints_ := other; duration_from_previous_ := [] |},
   waypoints_ o).

(** [void KinematicTrajectory::append(const KinematicTrajectory &source,
    double dt)] (lines 83-90), for a [source] that is another object. *)
Definition append (o source : t Model State Duration) (dt : Duration)
    : t Model State Duration :=
  let index := length (duration_from_previous_ o) in
  let d := duration_from_previous_ o ++ duration_from_previous_ source in
  {| kmodel_ := kmodel_ o; group_ := group_ o;
     waypoints_ := waypoints_ o ++ waypoints_ source;
     duration_from_previous_ :=
       if Nat.ltb index (length d)
       then alter (fun x => add x dt) index d
       else d |}.

(** [void KinematicTrajectory::reverse()] (lines 92-101):
    [push_back(front())], [std::reverse], [pop_back()]. *)
Definition reverse (o : t Model State Duration) : t Model State Duration :=
  {| kmodel_ := kmodel_ o; group_ := group_ o;
     waypoints_ := rev (waypoints_ o);
     duration_from_previous_ :=
       match duration_from_previous_ o with
       | [] => []
       | front :: _ =>
           removelast (rev (duration_from_previous_ o ++ [front]))
       end |}.

(** One duration per waypoint. *)
Definition aligned (o : t Model State Duration) : Prop :=
  length (duration_from_previous_ o) = length (waypoints_ o).
End members.

(** [kinematic_model::JointModel], as far as [getRobotTrajectoryMsg] reads
    it. *)
Record JointModel := {
  jm_getName : string;
  getVariableCount : nat
}.

Section messages.
(** [State] is [kinematic_state::KinematicStatePtr], the shared pointer kept
    in [waypoints_]; [Duration] is [double]; [RosTime] and [RosDuration] are
    [ros::Time] and [ros::Duration]; [KinematicState] and [JointState] are
    the classes of these names. *)
Context {Model State Duration RosTime RosDuration : Type}.
Context {KinematicState JointState : Type}.
(** [double] addition and the constant [0.0] *)
Variable add : Duration -> Duration -> Duration.
Variable zero : Duration.
(** the default-constructed [ros::Time] *)
Variable zero_time : RosTime.
(** [ros::Duration(double)] *)
Variable Duration_of : Duration -> RosDuration.
(** [now n]: what the call number [n] of [ros::Time::now()] returns *)
Variable now : nat -> RosTime.
(** [kmodel_->getModelFrame()] and [kmodel_->getJointModels()] *)
Variable getModelFrame : Model -> string.
Variable model_joints : Model -> list JointModel.
(** [group_->getJointModels()] *)
Variable group_joints : GroupPtr -> list JointModel.
(** the state a waypoint points to; [None] for a null pointer *)
Variable get : State -> option KinematicState.
(** [KinematicState::getJointState(name)]; [None] for the null pointer
    returned when the state has no joint of that name *)
Variable getJointState : KinematicState -> string -> option JointState.
(** [JointState::getVariableValues()] *)
Variable getVariableValues : JointState -> list Duration.

(** [std_msgs::Header]: the fields the function writes. *)
Record Header := {
  frame_id : string;
  stamp : RosTime
}.

(** [trajectory_msgs::JointTrajectoryPoint]: the fields the function
    writes; velocities and accelerations stay empty. *)
Record JointTrajectoryPoint := {
  positions : list Duration;
  jtp_time_from_start : RosDuration
}.

Record JointTrajectory := {
  jt_header : Header;
  jt_joint_names : list string;
  jt_points : list JointTrajectoryPoint
}.

(** [moveit_msgs::MultiDOFJointTrajectoryPoint]: [values[j].values] is the
    list of variable values of joint [j]. *)
Record MultiDOFJointTrajectoryPoint := {
  values : list (list Duration);
  mdp_time_from_start : RosDuration
}.

Record MultiDOFJointTrajectory := {
  md_header : Header;
  md_joint_names : list string;
  md_points : list MultiDOFJointTrajectoryPoint
}.

(** [moveit_msgs::RobotTrajectory]. *)
Record RobotTrajectory := {
  joint_trajectory : JointTrajectory;
  multi_dof_joint_trajectory : MultiDOFJointTrajectory
}.

Definition default_header : Header :=
  {| frame_id := ""; stamp := zero_time |}.

(** [moveit_msgs::RobotTrajectory()]. *)
Definition default_trajectory : RobotTrajectory :=
  {| joint_trajectory :=
       {| jt_header := default_header; jt_joint_names := [];
          jt_points := [] |};
     multi_dof_joint_trajectory :=
       {| md_header := default_header; md_joint_names := [];
          md_points := [] |} |}.

(** Lines 157-167: one joint is put with the single-variable joints or
    with the others.  The state is [joint_names] and [onedof], then the
    multi-DOF [joint_names] and [mdof]. *)
Definition split_step
    (st : list string * list JointModel * list string * list JointModel)
    (j : JointModel)
    : list string * list JointModel * list string * list JointModel :=
  let '(names1, onedof, namesM, mdof) := st in
  if Nat.eqb (getVariableCount j) 1
  then (names1 ++ [jm_getName j], onedof ++ [j], namesM, mdof)
  else (names1, onedof, namesM ++ [jm_getName j], mdof ++ [j]).

Definition split_joints (jnt : list JointModel) :=
  foldl split_step ([], [], [], []) jnt.

(** [waypoints_[i]->getJointState(name)->getVariableValues()] (lines 193
    and 203).  Neither pointer is checked: [None] stands for the
    dereference of a null pointer. *)
Definition variable_values (wp : State) (name : string)
    : option (list Duration) :=
  st ← get wp;
  js ← getJointState st name;
  Some (getVariableValues js).

(** Lines 184-209, from waypoint [i] on with [total_time] as it is before
    iteration [i]: the points of both trajectories.  A point is written
    only where [points] was resized, that is when the list of joints is not
    empty.  [None] stands for the dereference of a null pointer or the read
    of element 0 of an empty vector of values. *)
Fixpoint fill_points (onedof mdof : list JointModel)
    (durations : list Duration) (wps : list State) (i : nat)
    (total_time : Duration)
    : option (list JointTrajectoryPoint * list MultiDOFJointTrajectoryPoint) :=
  match wps with
  | [] => Some ([], [])
  | wp :: rest =>
      let total_time' :=
        match durations !! i with
        | Some d => add total_time d
        | None => total_time
        end in
      let time_from_start :=
        match durations !! i with
        | Some _ => Duration_of total_time'
        | None => Duration_of zero
        end in
      pos ← mapM (fun j => variable_values wp (jm_getName j) ≫= head) onedof;
      vals ← mapM (fun j => variable_values wp (jm_getName j)) mdof;
      ps ← fill_points onedof mdof durations rest (S i) total_time';
      Some (match onedof with
            | [] => ps.1
            | _ :: _ =>
                {| positions := pos; jtp_time_from_start := time_from_start |}
                  :: ps.1
            end,
            match mdof with
            | [] => ps.2
            | _ :: _ =>
                {| values := vals;
                   mdp_time_from_start := time_from_start |}
                  :: ps.2
            end)
  end.

(** [void KinematicTrajectory::getRobotTrajectoryMsg(
    moveit_msgs::RobotTrajectory &trajectory) const] (lines 145-210): the
    message written to [trajectory]. *)
Definition getRobotTrajectoryMsg (o : t Model State Duration)
    : option RobotTrajectory :=
  match waypoints_ o with
  | [] => Some default_trajectory
  | _ :: _ =>
      let jnt :=
        match group_ o with
        | Some g => group_joints g
        | None => model_joints (kmodel_ o)
        end in
      let '(names1, onedof, namesM, mdof) := split_joints jnt in
      ps ← fill_points onedof mdof (duration_from_previous_ o)
             (waypoints_ o) 0 zero;
      Some
        {| joint_trajectory :=
             {| jt_header :=
                  match onedof with
                  | [] => default_header
                  | _ :: _ => {| frame_id := getModelFrame (kmodel_ o);
                                 stamp := now 0 |}
                  end;
                jt_joint_names := names1;
                jt_points := ps.1 |};
           multi_dof_joint_trajectory :=
             {| md_header :=
                  match mdof with
                  | [] => default_header
                  | _ :: _ =>
                      {| frame_id := getModelFrame (kmodel_ o);
                         stamp := now (match onedof with
                                       | [] => 0
                                       | _ :: _ => 1
                                       end) |}
                  end;
                md_joint_names := namesM;
                md_points := ps.2 |} |}
  end.
End messages.
End KinematicTrajectory.

(* ===================================================================== *)
(** * Specification-level definitions *)
(* ===================================================================== *)

(** What [std::map] requires of its comparison, on keys compared by value. *)
Record KeyOrder {K} (lt : K -> K -> bool) : Prop := {
  lt_irrefl : forall x, lt x x = false;
  lt_trans : forall x y z, lt x y = true -> lt y z = true -> lt x z = true;
  lt_total : forall x y, lt x y = false -> lt y x = false -> x = y
}.


(** The working list [jc] of the joint coverage loop, described on the
    input: the constraints that configure and whose variable is a variable
    of the group, in input order. *)
Definition working_list (scene : PlanningScene) (vars : list string)
    (msgs : list JointConstraintMsg) : list JointConstraint :=
  mkJointConstraint <$>
    filter (fun m => JointConstraint_configure scene m = true
                     /\ getJointVariableName scene m ∈ vars) msgs.

(** Some constraint of [msgs] configures and constrains variable [v]. *)
Definition covered (scene : PlanningScene) (msgs : list JointConstraintMsg)
    (v : string) : bool :=
  existsb (fun m => JointConstraint_configure scene m
                    && bool_decide (getJointVariableName scene m = v)) msgs.

(** Events other than the construction of a Joint Sampler. *)
Definition no_joint_event (e : Event) : Prop :=
  match e with
  | EJointSampler _ _ => False
  | _ => True
  end.

(** [s], found at position [k] of [entries], is what a scan for the least
    volume that starts from the first entry arrives at: no entry has a
    volume below that of [s], every entry before [s] whose volume is a number
    has a volume above that of [s], and [s] is the first entry when the
    volume of the first entry is NaN. *)
Definition first_minimum (scene : PlanningScene)
    (entries : list (string * IKConstraintSampler))
    (k : nat) (l : string) (s : IKConstraintSampler) : Prop :=
  entries !! k = Some (l, s)
  /\ (forall j e, entries !! j = Some e ->
        (getSamplingVolume scene e.2 <? getSamplingVolume scene s)%float = false)
  /\ (forall j e, j < k -> entries !! j = Some e ->
        PrimFloat.is_nan (getSamplingVolume scene e.2) = false ->
        (getSamplingVolume scene s <? getSamplingVolume scene e.2)%float = true)
  /\ (forall e, entries !! 0 = Some e ->
        PrimFloat.is_nan (getSamplingVolume scene e.2) = true -> k = 0).

(** What [collect] appends for one subgroup, each constraint with its index
    in the input vector: the constraints from index [i] on whose link is in
    the subgroup and whose index is not in [used]. *)
Fixpoint claimed {A} (link : A -> string) (sub : JointModelGroup)
    (msgs : list A) (i : nat) (used : gset nat) : list (nat * A) :=
  match msgs with
  | [] => []
  | m :: rest =>
      if hasLinkModel sub (link m) && negb (bool_decide (i ∈ used))
      then (i, m) :: claimed link sub rest (S i) used
      else claimed link sub rest (S i) used
  end.

(** The sub-constraint-set made of indexed constraints. *)
Definition sub_constraints (cp : list (nat * PositionConstraintMsg))
    (co : list (nat * OrientationConstraintMsg)) : Constraints :=
  {| joint_constraints := [];
     position_constraints := cp.*2;
     orientation_constraints := co.*2 |}.

(** For each subgroup in iteration order, the indexed position and
    orientation constraints placed into its sub-constraint-set, starting
    from the index sets [uP] and [uO]. *)
Fixpoint assignment (scene : PlanningScene)
    (its : list (GroupPtr * SolverAllocatorFn)) (constr : Constraints)
    (uP uO : gset nat)
    : list (GroupPtr * list (nat * PositionConstraintMsg)
            * list (nat * OrientationConstraintMsg)) :=
  match its with
  | [] => []
  | it :: rest =>
      let cp := claimed pc_link_name (deref scene it.1)
                  (position_constraints constr) 0 uP in
      let co := claimed oc_link_name (deref scene it.1)
                  (orientation_constraints constr) 0 uO in
      (it.1, cp, co)
        :: assignment scene rest constr (list_to_set cp.*1 ∪ uP)
             (list_to_set co.*1 ∪ uO)
  end.

(** The sub-constraint-sets the subgroup loop builds, in iteration order:
    [build_sub_constr] iterated with the index sets threaded as the loop
    threads them. *)
Fixpoint sub_constr_sequence (scene : PlanningScene)
    (its : list (GroupPtr * SolverAllocatorFn)) (constr : Constraints)
    (uP uO : gset nat) : list (JointModelGroup * Constraints) :=
  match its with
  | [] => []
  | it :: rest =>
      let '(sub_constr, uP', uO') :=
        build_sub_constr (deref scene it.1) constr uP uO in
      (deref scene it.1, sub_constr)
        :: sub_constr_sequence scene rest constr uP' uO'
  end.

(** The index sets when the subgroup loop ends. *)
Fixpoint final_used (scene : PlanningScene)
    (its : list (GroupPtr * SolverAllocatorFn)) (constr : Constraints)
    (uP uO : gset nat) : gset nat * gset nat :=
  match its with
  | [] => (uP, uO)
  | it :: rest =>
      let '(_, uP', uO') :=
        build_sub_constr (deref scene it.1) constr uP uO in
      final_used scene rest constr uP' uO'
  end.

(** The recursive calls of the subgroup loop on a given sequence of
    sub-constraint-sets: [samplers] and [some_sampler_valid] afterwards. *)
Fixpoint run_calls (rec : string -> Constraints -> M (option ConstraintSampler))
    (plan : list (JointModelGroup * Constraints))
    (acc : list ConstraintSampler * bool) : M (list ConstraintSampler * bool) :=
  match plan with
  | [] => ret acc
  | (sub, sub_constr) :: rest =>
      if sub_constr_nonempty sub_constr then
        cs <- rec (getName sub) sub_constr ;;
        match cs with
        | Some s => run_calls rec rest (acc.1 ++ [s], true)
        | None => run_calls rec rest acc
        end
      else run_calls rec rest acc
  end.

(** The sampler a recursive call returns for one sub-constraint-set, when
    the call is made and returns one. *)
Definition sub_result (rec : string -> Constraints -> M (option ConstraintSampler))
    (entry : JointModelGroup * Constraints) : option ConstraintSampler :=
  if sub_constr_nonempty entry.2
  then match rec (getName entry.1) entry.2 with
       | Some (Some s, _) => Some s
       | _ => None
       end
  else None.

(** The position and the orientation constraints of [c] on link [l], in
    the order of [c]. *)
Definition on_link (l : string) (c : Constraints)
    : list PositionConstraintMsg * list OrientationConstraintMsg :=
  (filter (fun m => pc_link_name m = l) (position_constraints c),
   filter (fun m => oc_link_name m = l) (orientation_constraints c)).

(** The map of subgroup allocators after [m[ptr] = fn] was executed for
    each registration in turn ([std::map] semantics). *)
Definition register_subgroups (regs : list (GroupPtr * SolverAllocatorFn))
    : @StdMap.t GroupPtr SolverAllocatorFn :=
  foldl (fun m r => StdMap.insert N.ltb r.1 r.2 m) StdMap.empty regs.

(** A sampler whose configuration succeeded; for a union, every sampler it
    was constructed over. *)
#[warnings="-register-all"]
Inductive configured (scene : PlanningScene) : ConstraintSampler -> Prop :=
| configured_joint s :
    JointConstraintSampler_configure scene (jcs_group s) (jcs_constraints s)
    = true ->
    configured scene (JointSampler s)
| configured_ik s :
    IKConstraintSampler_configure scene (iks_group s) (iks_pose s) = true ->
    configured scene (IKSampler s)
| configured_union g l :
    Forall (configured scene) l ->
    configured scene (UnionSampler g l).

(** What holds of a candidate stored for link [l] while matching the
    constraints [constr] for group [g]: it was built for [g], it configured,
    it has a goal, and each part of its goal is a constraint of the input on
    link [l] that configured. *)
Definition candidate_ok (scene : PlanningScene) (g : string)
    (constr : Constraints) (l : string) (s : IKConstraintSampler) : Prop :=
  iks_group s = g
  /\ IKConstraintSampler_configure scene g (iks_pose s) = true
  /\ (is_Some (position_constraint_ (iks_pose s))
      \/ is_Some (orientation_constraint_ (iks_pose s)))
  /\ (forall pc, position_constraint_ (iks_pose s) = Some pc ->
        pc_msg pc ∈ position_constraints constr
        /\ pc_link_name (pc_msg pc) = l
        /\ PositionConstraint_configure scene (pc_msg pc) = true)
  /\ (forall oc, orientation_constraint_ (iks_pose s) = Some oc ->
        oc_msg oc ∈ orientation_constraints constr
        /\ oc_link_name (oc_msg oc) = l
        /\ OrientationConstraint_configure scene (oc_msg oc) = true).

(** The value a call returns when a block of it ends. *)
Definition flow_value {A} (r : Flow A A) : A :=
  match r with
  | Return s => s
  | Continue s => s
  end.

(** Events of the joint coverage pass only: no IK Sampler, no Union
    Sampler, no recursive call. *)
Definition joint_event_only (e : Event) : Prop :=
  match e with
  | EJointSampler _ _ => True
  | _ => False
  end.

(** The joints [getRobotTrajectoryMsg] looks at: those of the group when
    the trajectory has one, those of the model otherwise. *)
Definition trajectory_joints {Model State Duration : Type}
    (model_joints : Model -> list KinematicTrajectory.JointModel)
    (group_joints : GroupPtr -> list KinematicTrajectory.JointModel)
    (o : KinematicTrajectory.t Model State Duration)
    : list KinematicTrajectory.JointModel :=
  match KinematicTrajectory.group_ o with
  | Some g => group_joints g
  | None => model_joints (KinematicTrajectory.kmodel_ o)
  end.

(* ===================================================================== *)
(** * A concrete robot, used to evaluate the definitions *)
(* ===================================================================== *)

Module Example.

Definition product (l : list Z) : Z := foldr Z.mul 1%Z l.

(** The [double] of a small natural number. *)
Definition of_Z (z : Z) : float := PrimFloat.of_uint63 (Uint63.of_Z z).

(** Bounds of a joint constraint. *)
Definition lower (m : JointConstraintMsg) : Z := (position m - tolerance_below m)%Z.
Definition upper (m : JointConstraintMsg) : Z := (position m + tolerance_above m)%Z.

(** Two constraints on the same joint must leave a common interval. *)
Definition compatible (a b : JointConstraint) : bool :=
  if String.eqb (joint_name (jc_msg a)) (joint_name (jc_msg b))
  then (lower (jc_msg a) <=? upper (jc_msg b))%Z
       && (lower (jc_msg b) <=? upper (jc_msg a))%Z
  else true.

Definition arm : JointModelGroup :=
  {| getName := "arm";
     getVariableNames := ["j1"; "j2"];
     hasLinkModel := fun l => bool_decide (l ∈ ["tool"; "wrist"; "elbow"]);
     getSolverAllocators := (Some 0, StdMap.empty) |}.

Definition left_arm : JointModelGroup :=
  {| getName := "left_arm";
     getVariableNames := ["l1"; "l2"];
     hasLinkModel := fun l => bool_decide (l ∈ ["left_hand"; "chest"]);
     getSolverAllocators := (Some 1, StdMap.empty) |}.

Definition right_arm : JointModelGroup :=
  {| getName := "right_arm";
     getVariableNames := ["r1"; "r2"];
     hasLinkModel := fun l => bool_decide (l ∈ ["right_hand"; "chest"]);
     getSolverAllocators := (Some 2, StdMap.empty) |}.

(** A group without any inverse kinematics. *)
Definition torso : JointModelGroup :=
  {| getName := "torso";
     getVariableNames := ["t1"];
     hasLinkModel := fun l => bool_decide (l ∈ ["chest"]);
     getSolverAllocators := (None, StdMap.empty) |}.

(** [left_arm] is stored at address 1 and [right_arm] at address 2; the
    allocator of [right_arm] is registered first. *)
Definition arms : JointModelGroup :=
  {| getName := "arms";
     getVariableNames := ["l1"; "l2"; "r1"; "r2"];
     hasLinkModel :=
       fun l => bool_decide (l ∈ ["left_hand"; "right_hand"; "chest"]);
     getSolverAllocators :=
       (None, register_subgroups [(2%N, 2); (1%N, 1)]) |}.

Definition groups : list JointModelGroup :=
  [arm; left_arm; right_arm; torso; arms].

Definition scene : PlanningScene :=
  {| getJointModelGroup :=
       fun name => List.find (fun g => String.eqb (getName g) name) groups;
     deref := fun p => if (p =? 1)%N then left_arm else right_arm;
     JointConstraint_configure :=
       fun m => (0 <=? tolerance_above m)%Z && (0 <=? tolerance_below m)%Z;
     getJointVariableName := joint_name;
     PositionConstraint_configure :=
       fun m => match pc_region m with [] => false | _ => true end;
     OrientationConstraint_configure :=
       fun m => match oc_tolerances m with [] => false | _ => true end;
     JointConstraintSampler_configure :=
       fun _ jc =>
         match jc with
         | [] => false
         | _ => forallb (fun a => forallb (compatible a) jc) jc
         end;
     IKConstraintSampler_configure :=
       fun _ pose =>
         match position_constraint_ pose, orientation_constraint_ pose with
         | None, None => false
         | _, _ => true
         end;
     getSamplingVolume :=
       fun s =>
         (match position_constraint_ (iks_pose s) with
          | Some p => of_Z (product (pc_region (pc_msg p)))
          | None => 1
          end
          * match orientation_constraint_ (iks_pose s) with
            | Some o => of_Z (product (oc_tolerances (oc_msg o)))
            | None => 1
            end)%float |}.

Definition jc (name : string) (pos tol : Z) : JointConstraintMsg :=
  {| joint_name := name; position := pos; tolerance_above := tol;
     tolerance_below := tol; jc_weight := 1 |}.

Definition pc (link : string) (region : list Z) : PositionConstraintMsg :=
  {| pc_link_name := link; pc_region := region |}.

Definition oc (link : string) (tol : list Z) : OrientationConstraintMsg :=
  {| oc_link_name := link; oc_tolerances := tol |}.

Definition position_goal (g : string) (m : PositionConstraintMsg)
    : IKConstraintSampler :=
  {| iks_group := g;
     iks_pose := {| position_constraint_ := Some (mkPositionConstraint m);
                    orientation_constraint_ := None |} |}.

(** Joint constraints on both variables of [arm], and a position goal. *)
Definition covering : Constraints :=
  {| joint_constraints := [jc "j1" 0 1; jc "j2" 0 1];
     position_constraints := [pc "tool" [2%Z]];
     orientation_constraints := [] |}.

(** As [covering], with a second constraint on [j1] whose interval [4, 6]
    does not meet [-1, 1]: each constraint configures, the sampler over
    all of them does not. *)
Definition conflicting : Constraints :=
  {| joint_constraints := [jc "j1" 0 1; jc "j1" 5 1; jc "j2" 0 1];
     position_constraints := [pc "tool" [2%Z]];
     orientation_constraints := [] |}.

(** Two position goals on the same link, of equal volume 5. *)
Definition same_link : Constraints :=
  {| joint_constraints := [];
     position_constraints := [pc "tool" [5%Z; 1%Z]; pc "tool" [1%Z; 5%Z]];
     orientation_constraints := [] |}.

Definition first_goal : IKConstraintSampler :=
  position_goal "arm" (pc "tool" [5%Z; 1%Z]).
Definition second_goal : IKConstraintSampler :=
  position_goal "arm" (pc "tool" [1%Z; 5%Z]).

(** Position goals of equal volume on two links; the goal on [wrist] comes
    first in the input. *)
Definition two_links : Constraints :=
  {| joint_constraints := [];
     position_constraints := [pc "wrist" [5%Z]; pc "tool" [5%Z]];
     orientation_constraints := [] |}.

Definition wrist_goal : IKConstraintSampler :=
  position_goal "arm" (pc "wrist" [5%Z]).
Definition tool_goal : IKConstraintSampler :=
  position_goal "arm" (pc "tool" [5%Z]).

(** One position goal for each hand; the goal for the right hand comes
    first in the input. *)
Definition both_hands : Constraints :=
  {| joint_constraints := [];
     position_constraints := [pc "right_hand" [3%Z]; pc "left_hand" [4%Z]];
     orientation_constraints := [] |}.

Definition left_goal : IKConstraintSampler :=
  position_goal "left_arm" (pc "left_hand" [4%Z]).
Definition right_goal : IKConstraintSampler :=
  position_goal "right_arm" (pc "right_hand" [3%Z]).


(** A joint constraint on one of the four variables of [arms]. *)
Definition left_joint_only : Constraints :=
  {| joint_constraints := [jc "l1" 0 1];
     position_constraints := [];
     orientation_constraints := [] |}.

(** A joint constraint of [arm] followed by one on a variable of [torso]. *)
Definition with_foreign : list JointConstraintMsg :=
  [jc "j1" 0 1; jc "t1" 0 1].

(** Two trajectories, stored at addresses 0 and 1. *)
Definition trajectory0 : KinematicTrajectory.t nat nat Z :=
  {| KinematicTrajectory.kmodel_ := 3;
     KinematicTrajectory.group_ := Some 1%N;
     KinematicTrajectory.waypoints_ := [10; 20];
     KinematicTrajectory.duration_from_previous_ := [0%Z; 2%Z] |}.
Definition trajectory1 : KinematicTrajectory.t nat nat Z :=
  {| KinematicTrajectory.kmodel_ := 7;
     KinematicTrajectory.group_ := None;
     KinematicTrajectory.waypoints_ := [30];
     KinematicTrajectory.duration_from_previous_ := [5%Z] |}.
Definition trajectories : gmap nat (KinematicTrajectory.t nat nat Z) :=
  <[1 := trajectory1]> (<[0 := trajectory0]> ∅).

(** Joints of a small model: two single-variable joints around a planar
    joint with three variables. *)
Definition joints : list KinematicTrajectory.JointModel :=
  [ {| KinematicTrajectory.jm_getName := "shoulder";
       KinematicTrajectory.getVariableCount := 1 |};
    {| KinematicTrajectory.jm_getName := "base";
       KinematicTrajectory.getVariableCount := 3 |};
    {| KinematicTrajectory.jm_getName := "elbow";
       KinematicTrajectory.getVariableCount := 1 |} ].

(** A waypoint is the address of a state, 0 being the null pointer; the
    state at address [n] is state number [n]. *)
Definition state_at (wp : nat) : option nat :=
  match wp with
  | 0 => None
  | S _ => Some wp
  end.

(** A state has a joint state for each joint of the model, and for no
    other name. *)
Definition joint_state (st : nat) (name : string) : option (nat * string) :=
  if bool_decide (name ∈ KinematicTrajectory.jm_getName <$> joints)
  then Some (st, name)
  else None.

(** The values of a joint in state [st]: the state number, once per
    variable. *)
Definition variable_values (js : nat * string) : list Z :=
  if String.eqb js.2 "base"
  then [Z.of_nat js.1; Z.of_nat js.1; Z.of_nat js.1]
  else [Z.of_nat js.1].

(** [getRobotTrajectoryMsg] with integers for [double], [ros::Time] and
    [ros::Duration], and a clock that starts at 100. *)
Definition robot_trajectory_msg (o : KinematicTrajectory.t nat nat Z)
    : option (@KinematicTrajectory.RobotTrajectory Z Z Z) :=
  KinematicTrajectory.getRobotTrajectoryMsg Z.add 0%Z 0%Z (fun d => d)
    (fun n => (100 + Z.of_nat n)%Z) (fun _ => "world")
    (fun _ => joints) (fun _ => joints) state_at joint_state
    variable_values o.

(** A position and an orientation goal on [tool], and a second, tighter
    position goal on the same link. *)
Definition full_pose : Constraints :=
  {| joint_constraints := [];
     position_constraints := [pc "tool" [4%Z]; pc "tool" [1%Z]];
     orientation_constraints := [oc "tool" [3%Z]] |}.

Definition pose_goal : IKConstraintSampler :=
  {| iks_group := "arm";
     iks_pose :=
       {| position_constraint_ :=
            Some (mkPositionConstraint (pc "tool" [1%Z]));
          orientation_constraint_ :=
            Some (mkOrientationConstraint (oc "tool" [3%Z])) |} |}.

(** The message written for [trajectory0]. *)
Definition trajectory0_msg : @KinematicTrajectory.RobotTrajectory Z Z Z :=
  {| KinematicTrajectory.joint_trajectory :=
       {| KinematicTrajectory.jt_header :=
            {| KinematicTrajectory.frame_id := "world";
               KinematicTrajectory.stamp := 100%Z |};
          KinematicTrajectory.jt_joint_names := ["shoulder"; "elbow"];
          KinematicTrajectory.jt_points :=
            [ {| KinematicTrajectory.positions := [10%Z; 10%Z];
                 KinematicTrajectory.jtp_time_from_start := 0%Z |};
              {| KinematicTrajectory.positions := [20%Z; 20%Z];
                 KinematicTrajectory.jtp_time_from_start := 2%Z |} ] |};
     KinematicTrajectory.multi_dof_joint_trajectory :=
       {| KinematicTrajectory.md_header :=
            {| KinematicTrajectory.frame_id := "world";
               KinematicTrajectory.stamp := 101%Z |};
          KinematicTrajectory.md_joint_names := ["base"];
          KinematicTrajectory.md_points :=
            [ {| KinematicTrajectory.values := [[10%Z; 10%Z; 10%Z]];
                 KinematicTrajectory.mdp_time_from_start := 0%Z |};
              {| KinematicTrajectory.values := [[20%Z; 20%Z; 20%Z]];
                 KinematicTrajectory.mdp_time_from_start := 2%Z |} ] |} |}.

End Example.

(* ===================================================================== *)
(** * Properties *)
(* ===================================================================== *)

(** ** The monad *)

Lemma bind_ret_l {A B} (a : A) (f : A -> M B) : bind (ret a) f = f a.
Proof. unfold bind, ret. destruct (f a) as [[b t]|]; reflexivity. Qed.

Lemma bind_Some {A B} (m : M A) (f : A -> M B) b t :
  bind m f = Some (b, t) <->
  exists a t1 t2, m = Some (a, t1) /\ f a = Some (b, t2) /\ t = t1 ++ t2.
Proof.
  unfold bind. split.
  - destruct m as [[a t1]|]; [|discriminate].
    destruct (f a) as [[b' t2]|] eqn:E; [|discriminate].
    intros [= <- <-]. eauto 6.
  - intros (a & t1 & t2 & -> & -> & ->). reflexivity.
Qed.

Lemma bind_emit {B} (e : Event) (k : M B) :
  bind (emit e) (fun _ => k) =
  match k with Some (b, t) => Some (b, e :: t) | None => None end.
Proof. reflexivity. Qed.

(** ** [KinematicTrajectory::swap] *)

Section swap_facts.
Context {Model State Duration : Type}.
Implicit Types (h : gmap nat (KinematicTrajectory.t Model State Duration))
               (a b o : KinematicTrajectory.t Model State Duration).

Lemma swap_member_distinct {F}
    (get : KinematicTrajectory.t Model State Duration -> F) set x y h a b :
  x <> y -> h !! x = Some a -> h !! y = Some b ->
  KinematicTrajectory.swap_member get set x y h
  = Some (<[y := set (get a) b]> (<[x := set (get b) a]> h)).
Proof.
  intros Hne Ha Hb. unfold KinematicTrajectory.swap_member.
  rewrite Ha, Hb. simpl. rewrite lookup_insert_ne by done.
  rewrite Hb. reflexivity.
Qed.

Lemma swap_member_self {F}
    (get : KinematicTrajectory.t Model State Duration -> F) set x h a :
  (forall o, set (get o) o = o) ->
  h !! x = Some a -> KinematicTrajectory.swap_member get set x x h = Some h.
Proof.
  intros Hid Ha. unfold KinematicTrajectory.swap_member.
  rewrite Ha. simpl.
  rewrite lookup_insert_eq. simpl. rewrite !Hid.
  rewrite insert_insert_eq. rewrite insert_id; done.
Qed.
End swap_facts.

(** C10. Swapping two distinct trajectories exchanges [kmodel_], [group_]
    and [waypoints_]; [duration_from_previous_] of each trajectory is what
    it was before the call, and no other object of the store changes. *)
Theorem swap_keeps_durations {Model State Duration : Type}
    (h : gmap nat (KinematicTrajectory.t Model State Duration))
    (this other : nat) (a b : KinematicTrajectory.t Model State Duration) :
  this <> other -> h !! this = Some a -> h !! other = Some b ->
  exists h',
    KinematicTrajectory.swap this other h = Some h' /\
    h' !! this = Some
      {| KinematicTrajectory.kmodel_ := KinematicTrajectory.kmodel_ b;
         KinematicTrajectory.group_ := KinematicTrajectory.group_ b;
         KinematicTrajectory.waypoints_ := KinematicTrajectory.waypoints_ b;
         KinematicTrajectory.duration_from_previous_ :=
           KinematicTrajectory.duration_from_previous_ a |} /\
    h' !! other = Some
      {| KinematicTrajectory.kmodel_ := KinematicTrajectory.kmodel_ a;
         KinematicTrajectory.group_ := KinematicTrajectory.group_ a;
         KinematicTrajectory.waypoints_ := KinematicTrajectory.waypoints_ a;
         KinematicTrajectory.duration_from_previous_ :=
           KinematicTrajectory.duration_from_previous_ b |} /\
    (forall l, l <> this -> l <> other -> h' !! l = h !! l).
Proof.
  intros Hne Ha Hb.
  unfold KinematicTrajectory.swap.
  erewrite swap_member_distinct by eauto. simpl.
  erewrite swap_member_distinct;
    [| done | by rewrite lookup_insert_ne, lookup_insert_eq
       | by rewrite lookup_insert_eq ].
  simpl.
  erewrite swap_member_distinct;
    [| done | by rewrite lookup_insert_ne, lookup_insert_eq
       | by rewrite lookup_insert_eq ].
  simpl.
  erewrite swap_member_self;
    [| by intros [] | by rewrite lookup_insert_ne, lookup_insert_eq ].
  eexists; split; [reflexivity|].
  split; [|split].
  - rewrite lookup_insert_ne, lookup_insert_eq by done. reflexivity.
  - rewrite lookup_insert_eq. reflexivity.
  - intros l H1 H2. rewrite !lookup_insert_ne by done. reflexivity.
Qed.

(** ** Order of the keys: [std::string] and pointers *)

Lemma lt_asym {K} (lt : K -> K -> bool) (O : KeyOrder lt) x y :
  lt x y = true -> lt y x = false.
Proof.
  intros Hxy. destruct (lt y x) eqn:Hyx; [|reflexivity].
  rewrite <- (lt_irrefl lt O x). symmetry. eapply lt_trans; eauto.
Qed.

Lemma ascii_compare_trans a b c :
  Ascii.compare a b = Lt -> Ascii.compare b c = Lt -> Ascii.compare a c = Lt.
Proof.
  unfold Ascii.compare. rewrite !N.compare_lt_iff. lia.
Qed.

Lemma ascii_compare_refl a : Ascii.compare a a = Eq.
Proof. unfold Ascii.compare. apply N.compare_refl. Qed.

Lemma string_compare_refl s : String.compare s s = Eq.
Proof.
  induction s as [|a s IH]; simpl; [reflexivity|].
  rewrite ascii_compare_refl. exact IH.
Qed.

Lemma string_compare_trans s1 : forall s2 s3,
  String.compare s1 s2 = Lt -> String.compare s2 s3 = Lt ->
  String.compare s1 s3 = Lt.
Proof.
  induction s1 as [|a s1 IH]; intros [|b s2] [|c s3]; simpl;
    try congruence.
  destruct (Ascii.compare a b) eqn:Hab; try discriminate;
    destruct (Ascii.compare b c) eqn:Hbc; try discriminate; intros H1 H2.
  - apply Ascii.compare_eq_iff in Hab, Hbc. subst.
    rewrite ascii_compare_refl. eauto.
  - apply Ascii.compare_eq_iff in Hab. subst. rewrite Hbc. reflexivity.
  - apply Ascii.compare_eq_iff in Hbc. subst. rewrite Hab. reflexivity.
  - rewrite (ascii_compare_trans _ _ _ Hab Hbc). reflexivity.
Qed.

Lemma string_ltb_order : KeyOrder String.ltb.
Proof.
  split; unfold String.ltb.
  - intros x. rewrite string_compare_refl. reflexivity.
  - intros x y z.
    destruct (String.compare x y) eqn:H1; try discriminate.
    destruct (String.compare y z) eqn:H2; try discriminate.
    rewrite (string_compare_trans _ _ _ H1 H2). reflexivity.
  - intros x y. rewrite (String.compare_antisym y x).
    destruct (String.compare x y) eqn:H; simpl; try discriminate.
    intros _ _. apply String.compare_eq_iff. exact H.
Qed.

Lemma N_ltb_order : KeyOrder N.ltb.
Proof.
  split.
  - intros x. apply N.ltb_irrefl.
  - intros x y z. rewrite !N.ltb_lt. lia.
  - intros x y. rewrite !N.ltb_ge. lia.
Qed.

(** ** Facts on [StdMap] *)

Module StdMapFacts.
Section facts.
Context {K V : Type} (lt : K -> K -> bool) (O : KeyOrder lt).
Implicit Types (m : @StdMap.t K V) (k : K) (v : V).

Lemma find_insert_eq k v m :
  StdMap.find lt k (StdMap.insert lt k v m) = Some v.
Proof.
  induction m as [|[k' v'] m IH]; simpl.
  - rewrite (lt_irrefl lt O). reflexivity.
  - destruct (lt k k') eqn:H1; simpl.
    + rewrite (lt_irrefl lt O). reflexivity.
    + destruct (lt k' k) eqn:H2; simpl.
      * rewrite H1, H2. exact IH.
      * rewrite (lt_irrefl lt O). reflexivity.
Qed.

Lemma find_insert_ne k k' v m :
  k <> k' -> StdMap.find lt k' (StdMap.insert lt k v m) = StdMap.find lt k' m.
Proof.
  intros Hne. induction m as [|[k1 v1] m IH]; simpl.
  - destruct (lt k' k) eqn:H1; [reflexivity|].
    destruct (lt k k') eqn:H2; [reflexivity|].
    destruct Hne. apply (lt_total lt O); assumption.
  - destruct (lt k k1) eqn:Hk; simpl.
    + destruct (lt k' k) eqn:H1.
      * rewrite (lt_trans lt O _ _ _ H1 Hk). reflexivity.
      * destruct (lt k k') eqn:H2; [reflexivity|].
        destruct Hne. apply (lt_total lt O); assumption.
    + destruct (lt k1 k) eqn:Hk'; simpl.
      * destruct (lt k' k1); [reflexivity|].
        destruct (lt k1 k'); [exact IH | reflexivity].
      * assert (k = k1) as <- by (apply (lt_total lt O); assumption).
        destruct (lt k' k) eqn:H1; [reflexivity|].
        destruct (lt k k') eqn:H2; [reflexivity|].
        destruct Hne. apply (lt_total lt O); assumption.
Qed.

Lemma elem_of_insert k v m e :
  e ∈ StdMap.insert lt k v m -> e = (k, v) \/ e ∈ m.
Proof.
  induction m as [|[k1 v1] m IH]; simpl.
  - intros ->%list_elem_of_singleton. by left.
  - destruct (lt k k1).
    + intros [->|H]%elem_of_cons; [by left | by right].
    + destruct (lt k1 k).
      * intros [->|H]%elem_of_cons; [right; left|].
        destruct (IH H) as [->|?]; [by left | right; by right].
      * intros [->|H]%elem_of_cons; [by left | right; by right].
Qed.

Lemma insert_sorted k v m : StdMap.sorted lt m -> StdMap.sorted lt (StdMap.insert lt k v m).
Proof.
  induction 1 as [|[k1 v1] m Hs IH Hall]; simpl.
  - repeat constructor.
  - destruct (lt k k1) eqn:H1.
    + constructor; [by constructor|].
      constructor; [exact H1|].
      eapply Forall_impl; [exact Hall|].
      intros [k2 v2] H2; simpl in *. eapply lt_trans; eauto.
    + destruct (lt k1 k) eqn:H2.
      * constructor; [exact IH|].
        apply Forall_forall. intros e He.
        apply elem_of_insert in He as [->|He]; [exact H2|].
        rewrite Forall_forall in Hall. by apply Hall.
      * assert (k = k1) as <- by (apply (lt_total lt O); assumption).
        constructor; assumption.
Qed.

Lemma find_Some_elem k v m : StdMap.find lt k m = Some v -> (k, v) ∈ m.
Proof.
  induction m as [|[k1 v1] m IH]; simpl; [discriminate|].
  destruct (lt k k1) eqn:H1; [discriminate|].
  destruct (lt k1 k) eqn:H2.
  - intros H. right. by apply IH.
  - intros [= ->].
    assert (k = k1) as <- by (apply (lt_total lt O); assumption). left.
Qed.

(** Along a sorted table, an earlier entry has the smaller key. *)
Lemma sorted_lookup_lt m i j a b :
  StdMap.sorted lt m -> m !! i = Some a -> m !! j = Some b -> i < j ->
  lt a.1 b.1 = true.
Proof.
  intros Hs. revert i j. unfold StdMap.sorted in Hs. induction Hs as [|e m Hs IH Hall]; intros i j.
  - intros H; discriminate H.
  - destruct i as [|i], j as [|j]; simpl; try lia.
    + intros [= <-] Hb _. rewrite Forall_forall in Hall.
      apply Hall. eapply list_elem_of_lookup_2; eauto.
    + intros Ha Hb Hlt. apply (IH i j); auto with lia.
Qed.
End facts.
End StdMapFacts.


(** ** [selectSampler] *)

Lemma try_allocators_spec allocs : forall i scene g c,
  try_allocators allocs i scene g c =
  match list_find (fun a => canService a scene g c = true) allocs with
  | Some (k, a) =>
      Some (Return (alloc a scene g c),
            (ECanService <$> seq i (S k)) ++ [EAlloc (i + k)])
  | None => Some (Continue tt, ECanService <$> seq i (length allocs))
  end.
Proof.
  induction allocs as [|a allocs IH]; intros i scene g c; simpl.
  - reflexivity.
  - destruct (canService a scene g c) eqn:Hc.
    + rewrite decide_True by reflexivity. simpl.
      rewrite Nat.add_0_r. reflexivity.
    + rewrite decide_False by discriminate.
      rewrite IH.
      destruct (list_find _ allocs) as [[k a']|]; simpl.
      * rewrite Nat.add_succ_r. reflexivity.
      * reflexivity.
Qed.

(** C5. [selectSampler] commits to the first registered allocator whose
    [canService] holds: the result is that allocator's [alloc] result
    (null included), the calls made are [canService] on the allocators up to
    it, in registration order, and its [alloc]; [selectDefaultSampler] is
    not entered.  When no allocator can service the request, [canService]
    was asked of every allocator and the rest of the call is
    [selectDefaultSampler]. *)
Theorem selectSampler_first_allocator_wins fuel mgr scene g c :
  selectSampler fuel mgr scene g c =
  match list_find (fun a => canService a scene g c = true) (sampler_alloc_ mgr) with
  | Some (i, a) =>
      Some (alloc a scene g c, (ECanService <$> seq 0 (S i)) ++ [EAlloc i])
  | None =>
      bind (Some (tt, ECanService <$> seq 0 (length (sampler_alloc_ mgr))))
           (fun _ => selectDefaultSampler scene fuel g c)
  end.
Proof.
  unfold selectSampler. rewrite try_allocators_spec.
  destruct (list_find _ _) as [[i a]|]; simpl.
  - rewrite app_nil_r. reflexivity.
  - reflexivity.
Qed.

(** ** Joint coverage *)

Section joint_facts.
Variable scene : PlanningScene.

Lemma init_coverage_lookup_gen vars : forall (cov : gmap string bool) v,
  foldl (fun cov v => <[v := false]> cov) cov vars !! v
  = if decide (v ∈ vars) then Some false else cov !! v.
Proof.
  induction vars as [|x vars IH]; intros cov v; simpl.
  - reflexivity.
  - rewrite IH. destruct (decide (v ∈ vars)) as [Hin|Hnin].
    + rewrite decide_True; [reflexivity | by right].
    + destruct (decide (v = x)) as [->|Hne].
      * rewrite lookup_insert_eq. rewrite decide_True; [reflexivity | by left].
      * rewrite lookup_insert_ne by done.
        rewrite decide_False; [reflexivity|].
        intros [?|?]%elem_of_cons; contradiction.
Qed.

Lemma init_coverage_lookup vars v :
  init_coverage vars !! v = if decide (v ∈ vars) then Some false else None.
Proof. unfold init_coverage. by rewrite init_coverage_lookup_gen. Qed.

(** The loop on a coverage map whose keys are [vars]. *)
Lemma joint_loop_spec vars msgs : forall cov jc,
  (forall v, is_Some (cov !! v) <-> v ∈ vars) ->
  exists cov',
    joint_loop scene (cov, jc) msgs = (cov', jc ++ working_list scene vars msgs)
    /\ forall v, cov' !! v = (fun b => b || covered scene msgs v) <$> cov !! v.
Proof.
  induction msgs as [|m msgs IH]; intros cov jc Hdom.
  - exists cov. split.
    + unfold working_list. simpl. by rewrite app_nil_r.
    + intros v. simpl. destruct (cov !! v) as [b|]; simpl; [|done].
      by rewrite orb_false_r.
  - unfold joint_loop. simpl. unfold joint_step at 2. simpl.
    unfold working_list. rewrite filter_cons.
    destruct (JointConstraint_configure scene m) eqn:Hc.
    + destruct (cov !! getJointVariableName scene m) as [b0|] eqn:Hl.
      * assert (getJointVariableName scene m ∈ vars) as Hin
          by (apply Hdom; eauto).
        rewrite decide_True by done.
        destruct (IH (<[getJointVariableName scene m := true]> cov)
                     (jc ++ [mkJointConstraint m])) as (cov' & Hloop & Hcov).
        { intros v. rewrite <- Hdom.
          destruct (decide (getJointVariableName scene m = v)) as [<-|Hne].
          - rewrite lookup_insert_eq, Hl. split; eauto.
          - by rewrite lookup_insert_ne. }
        exists cov'. split.
        -- unfold joint_loop in Hloop. rewrite Hloop.
           unfold working_list. rewrite fmap_cons, <- app_assoc. reflexivity.
        -- intros v. rewrite Hcov. simpl.
           destruct (decide (getJointVariableName scene m = v)) as [<-|Hne].
           ++ rewrite lookup_insert_eq, Hl. simpl.
              rewrite bool_decide_eq_true_2 by done. simpl.
              by rewrite orb_true_r.
           ++ rewrite lookup_insert_ne by done.
              rewrite bool_decide_eq_false_2 by done. reflexivity.
      * assert (getJointVariableName scene m ∉ vars) as Hnin.
        { intros Hin. apply Hdom in Hin. rewrite Hl in Hin.
          by destruct Hin. }
        rewrite decide_False by tauto.
        destruct (IH cov jc Hdom) as (cov' & Hloop & Hcov).
        exists cov'. split; [exact Hloop|].
        intros v. rewrite Hcov. simpl.
        destruct (decide (getJointVariableName scene m = v)) as [<-|Hne].
        -- rewrite Hl. reflexivity.
        -- rewrite bool_decide_eq_false_2 by done. reflexivity.
    + rewrite decide_False by (intros [? _]; discriminate).
      destruct (IH cov jc Hdom) as (cov' & Hloop & Hcov).
      exists cov'. split; [exact Hloop|].
      intros v. rewrite Hcov. reflexivity.
Qed.

Lemma joint_loop_init vars msgs :
  exists cov',
    joint_loop scene (init_coverage vars, []) msgs
    = (cov', working_list scene vars msgs)
    /\ forall v, cov' !! v
         = if decide (v ∈ vars) then Some (covered scene msgs v) else None.
Proof.
  destruct (joint_loop_spec vars msgs (init_coverage vars) []) as (cov' & H1 & H2).
  - intros v. rewrite init_coverage_lookup.
    destruct (decide (v ∈ vars)) as [Hin|Hnin]; split; intros H; eauto;
      [by destruct H | done].
  - exists cov'. split; [exact H1|].
    intros v. rewrite H2, init_coverage_lookup.
    destruct (decide (v ∈ vars)); reflexivity.
Qed.

Lemma full_coverage_true (cov : gmap string bool) :
  full_coverage cov = true <-> forall v b, cov !! v = Some b -> b = true.
Proof.
  unfold full_coverage. rewrite forallb_forall. split.
  - intros H v b Hl. apply (H (v, b)).
    apply list_elem_of_In, elem_of_map_to_list. exact Hl.
  - intros H [v b] Hin. apply list_elem_of_In, elem_of_map_to_list in Hin.
    simpl. eauto.
Qed.

Lemma covered_true msgs v :
  covered scene msgs v = true <->
  exists m, m ∈ msgs /\ JointConstraint_configure scene m = true
            /\ getJointVariableName scene m = v.
Proof.
  unfold covered. rewrite existsb_exists. split.
  - intros (m & Hin & [H1 H2%bool_decide_eq_true]%andb_true_iff).
    exists m. by rewrite list_elem_of_In.
  - intros (m & Hin & H1 & H2). exists m. rewrite <- list_elem_of_In.
    split; [done|]. rewrite H1. simpl. by apply bool_decide_eq_true.
Qed.

End joint_facts.

Section joint_pass_facts.
Variable scene : PlanningScene.

Lemma full_coverage_covered vars msgs cov' :
  (forall v, cov' !! v
     = if decide (v ∈ vars) then Some (covered scene msgs v) else None) ->
  full_coverage cov' = forallb (covered scene msgs) vars.
Proof.
  intros Hcov. apply eq_true_iff_eq.
  rewrite full_coverage_true, forallb_forall. split.
  - intros H v Hin%list_elem_of_In. apply (H v).
    rewrite Hcov. by rewrite decide_True.
  - intros H v b. rewrite Hcov.
    destruct (decide (v ∈ vars)) as [Hin|]; [|discriminate].
    intros [= <-]. apply H. by apply list_elem_of_In.
Qed.

(** The joint coverage pass, with the loops replaced by what they compute. *)
Lemma joint_pass_spec jmg constr :
  joint_pass scene jmg constr =
  match joint_constraints constr with
  | [] => ret (Continue None)
  | _ :: _ =>
      let jc := working_list scene (getVariableNames jmg)
                  (joint_constraints constr) in
      if forallb (covered scene (joint_constraints constr))
                 (getVariableNames jmg)
      then
        sampler <- make_joint_sampler scene (getName jmg) jc ;;
        match sampler with
        | Some s => ret (Return (Some s))
        | None => ret (Continue None)
        end
      else
        match jc with
        | [] => ret (Continue None)
        | _ :: _ =>
            sampler <- make_joint_sampler scene (getName jmg) jc ;;
            ret (Continue sampler)
        end
  end.
Proof.
  unfold joint_pass.
  destruct (joint_constraints constr) as [|m msgs] eqn:Hm; [reflexivity|].
  destruct (joint_loop_init scene (getVariableNames jmg) (m :: msgs))
    as (cov' & -> & Hcov).
  rewrite (full_coverage_covered _ _ _ Hcov). reflexivity.
Qed.

End joint_pass_facts.

(** C1 (amended). When the group exists, there is at least one joint
    constraint, every variable of the group is the variable of a joint
    constraint that configures, and the Joint Sampler configures on the
    working list, [selectDefaultSampler] returns that Joint Sampler; the only
    sampler constructed is the Joint Sampler: no IK Sampler and no Union
    Sampler, whatever the position and orientation constraints. *)
Theorem full_joint_coverage_returns_joint_sampler
    scene fuel g jmg constr :
  getJointModelGroup scene g = Some jmg ->
  joint_constraints constr <> [] ->
  (forall v, v ∈ getVariableNames jmg ->
     exists m, m ∈ joint_constraints constr
               /\ JointConstraint_configure scene m = true
               /\ getJointVariableName scene m = v) ->
  JointConstraintSampler_configure scene (getName jmg)
    (working_list scene (getVariableNames jmg) (joint_constraints constr))
  = true ->
  selectDefaultSampler scene (S fuel) g constr =
  Some (Some (JointSampler
                {| jcs_group := getName jmg;
                   jcs_constraints :=
                     working_list scene (getVariableNames jmg)
                       (joint_constraints constr) |}),
        [ESelectDefault g constr;
         EJointSampler (getName jmg)
           (working_list scene (getVariableNames jmg)
              (joint_constraints constr))]).
Proof.
  intros Hg Hne Hcov Hconf.
  cbn [selectDefaultSampler]. unfold selectDefaultSampler_body.
  rewrite Hg, joint_pass_spec.
  destruct (joint_constraints constr) as [|m msgs] eqn:Hm; [done|].
  cbv zeta.
  assert (forallb (covered scene (m :: msgs)) (getVariableNames jmg) = true)
    as ->.
  { apply forallb_forall. intros v Hv%list_elem_of_In.
    apply covered_true. auto. }
  unfold make_joint_sampler. rewrite Hconf. reflexivity.
Qed.

(** C1, an instance: both variables of [arm] are constrained. *)
Lemma full_joint_coverage_witness :
  selectDefaultSampler Example.scene 1 "arm" Example.covering =
  Some (Some (JointSampler
                {| jcs_group := "arm";
                   jcs_constraints :=
                     [mkJointConstraint (Example.jc "j1" 0 1);
                      mkJointConstraint (Example.jc "j2" 0 1)] |}),
        [ESelectDefault "arm" Example.covering;
         EJointSampler "arm"
           [mkJointConstraint (Example.jc "j1" 0 1);
            mkJointConstraint (Example.jc "j2" 0 1)]]).
Proof.
  apply (full_joint_coverage_returns_joint_sampler
           Example.scene 0 "arm" Example.arm Example.covering).
  - reflexivity.
  - discriminate.
  - intros v Hv. simpl in Hv.
    apply elem_of_cons in Hv as [->|Hv];
      [exists (Example.jc "j1" 0 1); repeat split; left |].
    apply elem_of_cons in Hv as [->|Hv];
      [exists (Example.jc "j2" 0 1); repeat split; right; left |].
    apply elem_of_nil in Hv as [].
  - reflexivity.
Defined.

(** C1 as stated fails: in [conflicting] the joint constraints cover both
    variables of [arm], yet the Joint Sampler does not configure on them and
    the call goes on to build and return an IK Sampler. *)
Lemma full_joint_coverage_counterexample :
  (forall v, v ∈ getVariableNames Example.arm ->
     exists m, m ∈ joint_constraints Example.conflicting
               /\ JointConstraint_configure Example.scene m = true
               /\ getJointVariableName Example.scene m = v)
  /\ selectDefaultSampler Example.scene 1 "arm" Example.conflicting =
     Some (Some (IKSampler (Example.position_goal "arm" (Example.pc "tool" [2%Z]))),
           [ESelectDefault "arm" Example.conflicting;
            EJointSampler "arm"
              [mkJointConstraint (Example.jc "j1" 0 1);
               mkJointConstraint (Example.jc "j1" 5 1);
               mkJointConstraint (Example.jc "j2" 0 1)];
            EIKSampler "arm"
              (iks_pose (Example.position_goal "arm" (Example.pc "tool" [2%Z])))]).
Proof.
  split; [|reflexivity].
  intros v Hv. simpl in Hv.
  apply elem_of_cons in Hv as [->|Hv];
    [exists (Example.jc "j1" 0 1); repeat split; left |].
  apply elem_of_cons in Hv as [->|Hv];
    [exists (Example.jc "j2" 0 1); repeat split; right; right; left |].
  apply elem_of_nil in Hv as [].
Qed.

(** ** Traces *)

Ltac inv_bind H :=
  let a := fresh "a" in
  let t1 := fresh "t" in
  let t2 := fresh "t" in
  let H1 := fresh "Hm" in
  let H2 := fresh "Hk" in
  apply bind_Some in H as (a & t1 & t2 & H1 & H2 & ->).

Tactic Notation "inv_bind_as" hyp(H) "as" ident(a) ident(t1) ident(t2)
    ident(H1) ident(H2) :=
  apply bind_Some in H as (a & t1 & t2 & H1 & H2 & ->).

Ltac inv_ret H :=
  first [ injection H as <- <- | injection H as -> <- | injection H as <- ->
        | injection H as -> -> ].

Lemma mfoldl_inv {A B} (I : A -> Prop) (P : Event -> Prop)
    (f : A -> B -> M A) (l : list B) :
  (forall a x a' t, I a -> f a x = Some (a', t) -> I a' /\ Forall P t) ->
  forall a a' t, I a -> mfoldl f l a = Some (a', t) -> I a' /\ Forall P t.
Proof.
  intros Hf. induction l as [|x l IH]; intros a a' t Ha; simpl.
  - intros [= <- <-]. auto.
  - intros H. inv_bind H.
    destruct (Hf _ _ _ _ Ha Hm) as [Ha0 Ht].
    destruct (IH _ _ _ Ha0 Hk) as [Ha' Ht'].
    split; [assumption | by apply Forall_app].
Qed.

Lemma mfoldl_total {A B} (f : A -> B -> M A) (l : list B) :
  (forall a x, is_Some (f a x)) -> forall a, is_Some (mfoldl f l a).
Proof.
  intros Hf. induction l as [|x l IH]; intros a; simpl.
  - eexists; reflexivity.
  - destruct (Hf a x) as [[a0 t0] ->]. simpl.
    destruct (IH a0) as [[a1 t1] ->]. eexists; reflexivity.
Qed.

Section trace_facts.
Variable scene : PlanningScene.

Lemma try_candidate_trace g link pose usedL usedL' t :
  try_candidate scene g link pose usedL = Some (usedL', t) ->
  t = [EIKSampler g pose].
Proof.
  unfold try_candidate. simpl.
  destruct (IKConstraintSampler_configure scene g pose); simpl;
    by intros [= <- <-].
Qed.

Lemma full_pose_step_trace g pm usedL om usedL' t :
  full_pose_step scene g pm usedL om = Some (usedL', t) ->
  Forall no_joint_event t.
Proof.
  unfold full_pose_step.
  destruct (String.eqb _ _); [|by intros [= <- <-]].
  destruct (_ && _); [|by intros [= <- <-]].
  intros ->%try_candidate_trace. by repeat constructor.
Qed.

Lemma position_step_trace g fp usedL pm usedL' t :
  position_step scene g fp usedL pm = Some (usedL', t) ->
  Forall no_joint_event t.
Proof.
  unfold position_step.
  destruct (StdMap.find _ _ _); [by intros [= <- <-]|].
  destruct (PositionConstraint_configure _ _); [|by intros [= <- <-]].
  intros ->%try_candidate_trace. by repeat constructor.
Qed.

Lemma orientation_step_trace g fp usedL om usedL' t :
  orientation_step scene g fp usedL om = Some (usedL', t) ->
  Forall no_joint_event t.
Proof.
  unfold orientation_step.
  destruct (StdMap.find _ _ _); [by intros [= <- <-]|].
  destruct (OrientationConstraint_configure _ _); [|by intros [= <- <-]].
  intros ->%try_candidate_trace. by repeat constructor.
Qed.

Lemma ik_matching_trace g constr usedL t :
  ik_matching scene g constr = Some (usedL, t) -> Forall no_joint_event t.
Proof.
  unfold ik_matching, full_pose_loop. intros H.
  inv_bind H. inv_bind Hk.
  repeat apply Forall_app_2.
  - eapply (mfoldl_inv (fun _ => True)); [|exact I|exact Hm].
    intros u pm u' t' _ Hin. split; [exact I|].
    eapply (mfoldl_inv (fun _ => True)); [|exact I|exact Hin].
    intros ? ? ? ? _ Hs. split; [exact I|].
    eapply full_pose_step_trace; eauto.
  - eapply (mfoldl_inv (fun _ => True)); [|exact I|exact Hm0].
    intros ? ? ? ? _ Hs. split; [exact I|].
    eapply position_step_trace; eauto.
  - eapply (mfoldl_inv (fun _ => True)); [|exact I|exact Hk0].
    intros ? ? ? ? _ Hs. split; [exact I|].
    eapply orientation_step_trace; eauto.
Qed.

Lemma return_with_trace g samplers iks r t :
  return_with g samplers iks = Some (r, t) -> Forall no_joint_event t.
Proof.
  unfold return_with. destruct samplers; simpl; intros [= <- <-];
    by repeat constructor.
Qed.

Lemma ik_resolve_trace g samplers usedL r t :
  ik_resolve scene g samplers usedL = Some (r, t) -> Forall no_joint_event t.
Proof.
  unfold ik_resolve.
  destruct (StdMap.elements usedL) as [|[l1 s1] [|e2 rest]];
    [by intros [= <- <-] | |]; intros H; inv_bind H;
    inv_ret Hk; rewrite app_nil_r; eapply return_with_trace; eauto.
Qed.

Lemma ik_pass_trace jmg constr samplers r t :
  ik_pass scene jmg constr samplers = Some (r, t) -> Forall no_joint_event t.
Proof.
  unfold ik_pass. destruct (getSolverAllocators jmg).1;
    [|by intros [= <- <-]].
  intros H. inv_bind H. apply Forall_app_2.
  - eapply ik_matching_trace; eauto.
  - eapply ik_resolve_trace; eauto.
Qed.

Lemma build_sub_constr_joint sub constr uP uO :
  joint_constraints (build_sub_constr sub constr uP uO).1.1 = [].
Proof.
  unfold build_sub_constr.
  destruct (collect pc_link_name _ _ _ _ _), (collect oc_link_name _ _ _ _ _).
  reflexivity.
Qed.

Section with_rec.
Variable rec : string -> Constraints -> M (option ConstraintSampler).
Hypothesis rec_trace : forall g c r t,
  joint_constraints c = [] -> rec g c = Some (r, t) -> Forall no_joint_event t.

Lemma subgroup_loop_trace its constr : forall st st' t,
  subgroup_loop scene rec its constr st = Some (st', t) ->
  Forall no_joint_event t.
Proof.
  induction its as [|it its IH]; intros st st' t; simpl.
  - by intros [= <- <-].
  - pose proof (build_sub_constr_joint (deref scene it.1) constr
                  (usedP st) (usedO st)) as Hj.
    destruct (build_sub_constr _ _ _ _) as [[sc uP] uO]. simpl in Hj.
    destruct (sub_constr_nonempty sc); [|by apply IH].
    intros H. inv_bind H. apply Forall_app_2.
    + eapply rec_trace; eauto.
    + destruct a; eapply IH; eauto.
Qed.

Lemma subgroup_pass_trace jmg constr samplers0 r t :
  subgroup_pass scene rec jmg constr samplers0 = Some (r, t) ->
  Forall no_joint_event t.
Proof.
  unfold subgroup_pass.
  destruct (StdMap.elements _) as [|it its]; [by intros [= <- <-]|].
  intros H. inv_bind H. apply Forall_app_2.
  - eapply subgroup_loop_trace; eauto.
  - destruct (some_sampler_valid a); simpl in Hk; inv_ret Hk;
      by repeat constructor.
Qed.

End with_rec.

(** A call without joint constraints constructs no Joint Sampler, at any
    depth of the recursion. *)
Lemma selectDefaultSampler_no_joint fuel : forall g c r t,
  joint_constraints c = [] ->
  selectDefaultSampler scene fuel g c = Some (r, t) ->
  Forall no_joint_event t.
Proof.
  induction fuel as [|fuel IH]; intros g c r t Hj; [discriminate|].
  cbn [selectDefaultSampler]. unfold selectDefaultSampler_body.
  rewrite bind_emit.
  destruct (getJointModelGroup scene g) as [jmg|];
    [|intros [= <- <-]; by repeat constructor].
  unfold joint_pass. rewrite Hj. rewrite bind_ret_l.
  destruct (bind _ _) as [[r' t']|] eqn:H; [|discriminate].
  intros [= <- <-]. constructor; [exact I|].
  inv_bind H. apply Forall_app_2; [eapply ik_pass_trace; eauto|].
  destruct a; [inv_ret Hk; constructor|].
  inv_bind Hk. apply Forall_app_2.
  - eapply subgroup_pass_trace; [|eauto]. apply IH.
  - destruct a0; inv_ret Hk0; constructor.
Qed.

End trace_facts.

(** ** Joint constraints on variables outside the group *)

Section foreign_facts.
Variable scene : PlanningScene.

Lemma working_list_elem vars msgs j :
  j ∈ working_list scene vars msgs ->
  JointConstraint_configure scene (jc_msg j) = true
  /\ getJointVariableName scene (jc_msg j) ∈ vars.
Proof.
  unfold working_list. intros (m & -> & Hm)%list_elem_of_fmap.
  apply list_elem_of_filter in Hm as [Hm _]. exact Hm.
Qed.

Lemma working_list_foreign vars ms1 m ms2 :
  getJointVariableName scene m ∉ vars ->
  working_list scene vars (ms1 ++ m :: ms2)
  = working_list scene vars (ms1 ++ ms2).
Proof.
  intros Hf. unfold working_list.
  rewrite !filter_app, filter_cons, decide_False by tauto. reflexivity.
Qed.

Lemma covered_foreign (vars : list string) ms1 m ms2 v :
  getJointVariableName scene m ∉ vars -> v ∈ vars ->
  covered scene (ms1 ++ m :: ms2) v = covered scene (ms1 ++ ms2) v.
Proof.
  intros Hf Hv. unfold covered. rewrite !existsb_app. simpl.
  rewrite (bool_decide_eq_false_2 (getJointVariableName scene m = v))
    by (intros E; rewrite E in Hf; contradiction).
  by rewrite andb_false_r.
Qed.

Lemma forallb_covered_foreign (vars : list string) ms1 m ms2 :
  getJointVariableName scene m ∉ vars ->
  forallb (covered scene (ms1 ++ m :: ms2)) vars
  = forallb (covered scene (ms1 ++ ms2)) vars.
Proof.
  intros Hf. apply eq_true_iff_eq. rewrite !forallb_forall.
  split; intros H v Hv; specialize (H v Hv);
    apply list_elem_of_In in Hv;
    pose proof (covered_foreign vars ms1 m ms2 v Hf Hv) as E; congruence.
Qed.

Lemma joint_pass_trace jmg constr r t :
  joint_pass scene jmg constr = Some (r, t) ->
  t = [] \/
  t = [EJointSampler (getName jmg)
         (working_list scene (getVariableNames jmg) (joint_constraints constr))].
Proof.
  rewrite joint_pass_spec.
  destruct (joint_constraints constr) as [|m msgs];
    [intros [= <- <-]; by left|].
  cbv zeta. unfold make_joint_sampler.
  destruct (forallb _ _).
  - destruct (JointConstraintSampler_configure _ _ _); simpl;
      intros [= <- <-]; by right.
  - destruct (working_list _ _ _); [intros [= <- <-]; by left|].
    destruct (JointConstraintSampler_configure _ _ _); simpl;
      intros [= <- <-]; by right.
Qed.

(** The only Joint Sampler a call constructs is the one over the working
    list of the requested group. *)
Lemma joint_events_of_call fuel g jmg constr r t g' jc' :
  getJointModelGroup scene g = Some jmg ->
  selectDefaultSampler scene fuel g constr = Some (r, t) ->
  EJointSampler g' jc' ∈ t ->
  g' = getName jmg
  /\ jc' = working_list scene (getVariableNames jmg) (joint_constraints constr).
Proof.
  intros Hg. destruct fuel as [|fuel]; [discriminate|].
  cbn [selectDefaultSampler]. unfold selectDefaultSampler_body.
  rewrite bind_emit, Hg.
  destruct (bind _ _) as [[r' t']|] eqn:H; [|discriminate].
  intros [= <- <-]. inv_bind_as H as a tj tr Hm Hk.
  assert (Forall no_joint_event tr) as Hrest.
  { destruct a as [s|js]; [inv_ret Hk; constructor|].
    inv_bind_as Hk as b ti tr' Hik Hk'.
    apply Forall_app_2; [eapply ik_pass_trace; eauto|].
    destruct b; [inv_ret Hk'; constructor|].
    inv_bind_as Hk' as c ts tr'' Hsub Hk''. apply Forall_app_2.
    - eapply subgroup_pass_trace; [|eauto].
      apply selectDefaultSampler_no_joint.
    - destruct c; inv_ret Hk''; constructor. }
  intros [Heq|Hin]%elem_of_cons; [discriminate|].
  apply elem_of_app in Hin as [Hin|Hin].
  - apply joint_pass_trace in Hm as [->| ->].
    + by apply elem_of_nil in Hin.
    + apply list_elem_of_singleton in Hin. by injection Hin as -> ->.
  - rewrite Forall_forall in Hrest. destruct (Hrest _ Hin).
Qed.

Lemma subgroup_loop_ext rec its c c' : forall st,
  position_constraints c = position_constraints c' ->
  orientation_constraints c = orientation_constraints c' ->
  subgroup_loop scene rec its c st = subgroup_loop scene rec its c' st.
Proof.
  intros st Hp Ho. revert st.
  induction its as [|it its IH]; intros st; simpl; [reflexivity|].
  unfold build_sub_constr. rewrite Hp, Ho.
  destruct (collect pc_link_name _ _ _ _ _), (collect oc_link_name _ _ _ _ _).
  destruct (sub_constr_nonempty _); [|apply IH].
  destruct (rec _ _) as [[[s|] t]|]; simpl; [| |reflexivity];
    by rewrite IH.
Qed.

End foreign_facts.

(** C9. A joint constraint [m] that configures but whose variable is not a
    variable of the group: the coverage loop ends in the same coverage map
    and working list as without [m]; [m] is not in the working list; no
    Joint Sampler constructed during the call is configured with [m]; and,
    as long as the call still has a variable or a joint constraint to look
    at, it returns what it returns without [m]. *)
Theorem foreign_joint_constraint_excluded scene jmg ms1 m ms2 :
  JointConstraint_configure scene m = true ->
  getJointVariableName scene m ∉ getVariableNames jmg ->
  joint_loop scene (init_coverage (getVariableNames jmg), []) (ms1 ++ m :: ms2)
  = joint_loop scene (init_coverage (getVariableNames jmg), []) (ms1 ++ ms2)
  /\ (mkJointConstraint m ∉
        (joint_loop scene (init_coverage (getVariableNames jmg), [])
           (ms1 ++ m :: ms2)).2)
  /\ (forall fuel g constr r t g' jc',
        getJointModelGroup scene g = Some jmg ->
        joint_constraints constr = ms1 ++ m :: ms2 ->
        selectDefaultSampler scene fuel g constr = Some (r, t) ->
        EJointSampler g' jc' ∈ t -> mkJointConstraint m ∉ jc')
  /\ (forall fuel g constr,
        getJointModelGroup scene g = Some jmg ->
        joint_constraints constr = ms1 ++ m :: ms2 ->
        ms1 ++ ms2 <> [] \/ getVariableNames jmg <> [] ->
        fst <$> selectDefaultSampler scene fuel g constr
        = fst <$> selectDefaultSampler scene fuel g
                    {| joint_constraints := ms1 ++ ms2;
                       position_constraints := position_constraints constr;
                       orientation_constraints :=
                         orientation_constraints constr |}).
Proof.
  intros Hc Hf.
  assert (forall msgs, mkJointConstraint m ∉
            working_list scene (getVariableNames jmg) msgs) as Hnot.
  { intros msgs Hin. apply working_list_elem in Hin as [_ Hin]. done. }
  destruct (joint_loop_init scene (getVariableNames jmg) (ms1 ++ m :: ms2))
    as (cov1 & E1 & Hcov1).
  destruct (joint_loop_init scene (getVariableNames jmg) (ms1 ++ ms2))
    as (cov2 & E2 & Hcov2).
  split; [|split; [|split]].
  - rewrite E1, E2. f_equal.
    + apply map_eq. intros v. rewrite Hcov1, Hcov2.
      destruct (decide (v ∈ getVariableNames jmg)); [|reflexivity].
      f_equal. by eapply covered_foreign.
    + by apply working_list_foreign.
  - rewrite E1. apply Hnot.
  - intros fuel g constr r t g' jc' Hg Hj Hsel Hev.
    destruct (joint_events_of_call scene _ _ _ _ _ _ _ _ Hg Hsel Hev)
      as [_ ->].
    apply Hnot.
  - intros fuel g constr Hg Hj Hside.
    destruct fuel as [|fuel]; [reflexivity|].
    cbn [selectDefaultSampler]. unfold selectDefaultSampler_body.
    rewrite !bind_emit, Hg.
    set (c' := {| joint_constraints := ms1 ++ ms2;
                  position_constraints := position_constraints constr;
                  orientation_constraints := orientation_constraints constr |}).
    assert (joint_pass scene jmg constr = joint_pass scene jmg c') as ->.
    { rewrite !joint_pass_spec. subst c'. cbn [joint_constraints]. rewrite Hj.
      cbv zeta.
      rewrite (working_list_foreign scene) by done.
      rewrite (forallb_covered_foreign scene) by done.
      destruct ms1 as [|m1 ms1]; simpl app; [|reflexivity].
      destruct ms2 as [|m2 ms2]; [|reflexivity].
      destruct Hside as [[]|Hv]; [reflexivity|].
      destruct (getVariableNames jmg) as [|v vars]; [done|].
      reflexivity. }
    assert (forall s, ik_pass scene jmg constr s = ik_pass scene jmg c' s)
      as Hik by reflexivity.
    assert (forall s, subgroup_pass scene (selectDefaultSampler scene fuel)
                        jmg constr s
                      = subgroup_pass scene (selectDefaultSampler scene fuel)
                          jmg c' s) as Hsub.
    { intros s. unfold subgroup_pass.
      destruct (StdMap.elements _) as [|it its]; [reflexivity|].
      by rewrite (subgroup_loop_ext scene _ _ constr c'). }
    destruct (joint_pass scene jmg c') as [[[s|js] t]|]; simpl;
      [reflexivity| |reflexivity].
    rewrite Hik.
    destruct (ik_pass scene jmg c' _) as [[[s|[]] t2]|]; simpl;
      [reflexivity| |reflexivity].
    rewrite Hsub.
    destruct (subgroup_pass _ _ _ c' _) as [[[s|[]] t3]|]; reflexivity.
Qed.

(** ** Order of [double]s

    [operator<] on [double]s through the specification of binary64
    ([SpecFloat]): on numbers it is a strict total order up to the two
    zeros, and it is false whenever one side is NaN. *)

Module DoubleFacts.

Lemma SFcompare_Lt_trans a b c :
  SFcompare a b = Some Lt -> SFcompare b c = Some Lt -> SFcompare a c = Some Lt.
Proof.
  destruct a as [[]|[]| |[] ma ea], b as [[]|[]| |[] mb eb],
           c as [[]|[]| |[] mc ec]; simpl; try congruence;
    intros Hab Hbc; f_equal;
    injection Hab as Hab; injection Hbc as Hbc;
    fold (Pos.compare ma mb) in Hab; fold (Pos.compare mb mc) in Hbc;
    fold (Pos.compare ma mc);
    destruct (Z.compare_spec ea eb), (Z.compare_spec eb ec),
             (Z.compare_spec ea ec); try congruence; try lia;
    destruct (Pos.compare_spec ma mb), (Pos.compare_spec mb mc),
             (Pos.compare_spec ma mc); simpl in *; try congruence; try lia.
Qed.

Lemma SFcompare_Lt_Eq a b c :
  SFcompare a b = Some Lt -> SFcompare b c = Some Eq -> SFcompare a c = Some Lt.
Proof.
  destruct a as [[]|[]| |[] ma ea], b as [[]|[]| |[] mb eb],
           c as [[]|[]| |[] mc ec]; simpl; try congruence;
    intros Hab Hbc; f_equal;
    injection Hab as Hab; injection Hbc as Hbc;
    fold (Pos.compare ma mb) in Hab; fold (Pos.compare mb mc) in Hbc;
    fold (Pos.compare ma mc);
    destruct (Z.compare_spec ea eb), (Z.compare_spec eb ec),
             (Z.compare_spec ea ec); try congruence; try lia;
    destruct (Pos.compare_spec ma mb), (Pos.compare_spec mb mc),
             (Pos.compare_spec ma mc); simpl in *; try congruence; try lia.
Qed.

Lemma SFcompare_total a b :
  a <> S754_nan -> b <> S754_nan ->
  SFcompare a b = Some Lt \/ SFcompare a b = Some Eq /\ SFcompare b a = Some Eq
  \/ SFcompare b a = Some Lt.
Proof.
  destruct a as [[]|[]| |[] ma ea], b as [[]|[]| |[] mb eb];
    simpl; try congruence; intros _ _; auto;
    fold (Pos.compare ma mb); fold (Pos.compare mb ma);
    rewrite (Z.compare_antisym ea eb), (Pos.compare_antisym ma mb);
    destruct (ea ?= eb)%Z; simpl; auto;
    destruct (ma ?= mb)%positive; simpl; auto.
Qed.

Lemma SFcompare_Lt_not a b :
  SFcompare a b = Some Lt -> SFcompare b a = Some Gt.
Proof.
  destruct a as [[]|[]| |[] ma ea], b as [[]|[]| |[] mb eb];
    simpl; try congruence;
    fold (Pos.compare ma mb); fold (Pos.compare mb ma);
    rewrite (Z.compare_antisym ea eb), (Pos.compare_antisym ma mb);
    destruct (ea ?= eb)%Z; simpl; try congruence;
    destruct (ma ?= mb)%positive; simpl; congruence.
Qed.

Lemma SFcompare_Some a b c :
  SFcompare a b = Some c -> a <> S754_nan /\ b <> S754_nan.
Proof. destruct a as [| | |[]], b as [| | |[]]; simpl; by try congruence. Qed.

Lemma SFcompare_refl a : a <> S754_nan -> SFcompare a a = Some Eq.
Proof.
  destruct a as [|[]| |[] m e]; simpl; try congruence; intros _;
    fold (Pos.compare m m);
    rewrite Z.compare_refl, Pos.compare_refl; reflexivity.
Qed.

(** [std::isnan] in terms of the specification of the format. *)
Lemma is_nan_spec (x : float) :
  PrimFloat.is_nan x = false <-> Prim2SF x <> S754_nan.
Proof.
  unfold PrimFloat.is_nan. rewrite FloatAxioms.eqb_spec. unfold SFeqb. split.
  - intros H E. rewrite E in H. discriminate H.
  - intros H. by rewrite (SFcompare_refl _ H).
Qed.

Lemma ltb_Lt (x y : float) :
  (x <? y)%float = true <-> SFcompare (Prim2SF x) (Prim2SF y) = Some Lt.
Proof.
  rewrite FloatAxioms.ltb_spec. unfold SFltb.
  destruct (SFcompare _ _) as [[]|]; split; congruence.
Qed.

Lemma ltb_trans (x y z : float) :
  (x <? y)%float = true -> (y <? z)%float = true -> (x <? z)%float = true.
Proof. rewrite !ltb_Lt. apply SFcompare_Lt_trans. Qed.

Lemma ltb_not_nan (x y : float) :
  (x <? y)%float = true ->
  PrimFloat.is_nan x = false /\ PrimFloat.is_nan y = false.
Proof. rewrite ltb_Lt, !is_nan_spec. apply SFcompare_Some. Qed.

Lemma eqb_not_nan (x y : float) :
  (x =? y)%float = true ->
  PrimFloat.is_nan x = false /\ PrimFloat.is_nan y = false.
Proof.
  rewrite FloatAxioms.eqb_spec, !is_nan_spec. unfold SFeqb.
  destruct (SFcompare _ _) as [c|] eqn:E; [|discriminate].
  intros _. eapply SFcompare_Some, E.
Qed.

(** On numbers [<] is total: what is not below [z] is above whatever is
    below [z]. *)
Lemma ltb_below (x y z : float) :
  (x <? z)%float = true -> (y <? z)%float = false ->
  PrimFloat.is_nan y = false -> (x <? y)%float = true.
Proof.
  intros Hxz Hyz Hy. pose proof (ltb_not_nan _ _ Hxz) as [_ Hz].
  apply is_nan_spec in Hy, Hz.
  destruct (SFcompare_total _ _ Hz Hy) as [H|[[H _]|H]].
  - apply ltb_Lt. apply ltb_Lt in Hxz. by eapply SFcompare_Lt_trans.
  - apply ltb_Lt. apply ltb_Lt in Hxz. by eapply SFcompare_Lt_Eq.
  - apply ltb_Lt in H. congruence.
Qed.

Lemma ltb_false_leb (x y : float) :
  PrimFloat.is_nan x = false -> PrimFloat.is_nan y = false ->
  (y <? x)%float = false -> (x <=? y)%float = true.
Proof.
  intros Hx Hy Hlt. apply is_nan_spec in Hx, Hy.
  rewrite FloatAxioms.leb_spec. unfold SFleb.
  destruct (SFcompare_total _ _ Hx Hy) as [H|[[H _]|H]].
  - by rewrite H.
  - by rewrite H.
  - apply ltb_Lt in H. congruence.
Qed.

Lemma ltb_irrefl (x : float) : (x <? x)%float = false.
Proof.
  rewrite FloatAxioms.ltb_spec. unfold SFltb.
  destruct (SFcompare _ _) as [[]|] eqn:E; try reflexivity.
  pose proof (SFcompare_Lt_not _ _ E). congruence.
Qed.

Lemma leb_ltb_false (x y : float) :
  (x <=? y)%float = true -> (y <? x)%float = false.
Proof.
  rewrite FloatAxioms.leb_spec, FloatAxioms.ltb_spec. unfold SFleb, SFltb.
  destruct (SFcompare (Prim2SF x) _) as [[]|] eqn:E; try discriminate;
    intros _.
  - destruct (SFcompare_Some _ _ _ E) as [Hx Hy].
    destruct (SFcompare_total _ _ Hx Hy) as [H|[[_ H]|H]];
      [congruence | by rewrite H | ].
    apply SFcompare_Lt_not in H. congruence.
  - by rewrite (SFcompare_Lt_not _ _ E).
Qed.

Lemma ltb_eqb (x y : float) :
  (x <? y)%float = true -> (y =? x)%float = false.
Proof.
  rewrite ltb_Lt, FloatAxioms.eqb_spec. unfold SFeqb.
  intros H. by rewrite (SFcompare_Lt_not _ _ H).
Qed.

End DoubleFacts.

(** ** The candidate table *)

Section candidate_facts.
Variable scene : PlanningScene.

Lemma store_candidate_find usedL link stored iks :
  StdMap.find String.ltb link usedL = Some stored ->
  StdMap.find String.ltb link (store_candidate scene usedL link iks)
  = Some (if (getSamplingVolume scene stored <? getSamplingVolume scene iks)%float
          then stored else iks).
Proof.
  intros Hf. unfold store_candidate. rewrite Hf.
  destruct (_ <? _)%float; [exact Hf|].
  apply (StdMapFacts.find_insert_eq _ string_ltb_order).
Qed.

Lemma store_candidate_fresh usedL link iks :
  StdMap.find String.ltb link usedL = None ->
  StdMap.find String.ltb link (store_candidate scene usedL link iks) = Some iks.
Proof.
  intros Hf. unfold store_candidate. rewrite Hf.
  apply (StdMapFacts.find_insert_eq _ string_ltb_order).
Qed.

Lemma store_candidate_other usedL link iks l :
  l <> link ->
  StdMap.find String.ltb l (store_candidate scene usedL link iks)
  = StdMap.find String.ltb l usedL.
Proof.
  intros Hne. unfold store_candidate.
  destruct (if StdMap.find _ _ _ is Some _ then _ else _); [|reflexivity].
  apply (StdMapFacts.find_insert_ne _ string_ltb_order). congruence.
Qed.

Lemma store_candidate_sorted usedL link iks :
  StdMap.sorted String.ltb usedL ->
  StdMap.sorted String.ltb (store_candidate scene usedL link iks).
Proof.
  intros Hs. unfold store_candidate.
  destruct (if StdMap.find _ _ _ is Some _ then _ else _); [|exact Hs].
  by apply (StdMapFacts.insert_sorted _ string_ltb_order).
Qed.

Lemma try_candidate_sorted g link pose usedL usedL' t :
  StdMap.sorted String.ltb usedL ->
  try_candidate scene g link pose usedL = Some (usedL', t) ->
  StdMap.sorted String.ltb usedL'.
Proof.
  unfold try_candidate. simpl. intros Hs.
  destruct (IKConstraintSampler_configure scene g pose); simpl;
    intros [= <- <-]; [by apply store_candidate_sorted | exact Hs].
Qed.

(** The three uses of the [use] block. *)
Lemma full_pose_step_candidate g pm usedL om :
  pc_link_name pm = oc_link_name om ->
  PositionConstraint_configure scene pm = true ->
  OrientationConstraint_configure scene om = true ->
  full_pose_step scene g pm usedL om
  = try_candidate scene g (pc_link_name pm)
      {| position_constraint_ := Some (mkPositionConstraint pm);
         orientation_constraint_ := Some (mkOrientationConstraint om) |} usedL.
Proof.
  intros Hl Hp Ho. unfold full_pose_step.
  rewrite Hl, String.eqb_refl, Hp, Ho. reflexivity.
Qed.

Lemma position_step_candidate g usedL_fullPose usedL pm :
  StdMap.find String.ltb (pc_link_name pm) usedL_fullPose = None ->
  PositionConstraint_configure scene pm = true ->
  position_step scene g usedL_fullPose usedL pm
  = try_candidate scene g (pc_link_name pm)
      {| position_constraint_ := Some (mkPositionConstraint pm);
         orientation_constraint_ := None |} usedL.
Proof. intros Hf Hp. unfold position_step. by rewrite Hf, Hp. Qed.

Lemma orientation_step_candidate g usedL_fullPose usedL om :
  StdMap.find String.ltb (oc_link_name om) usedL_fullPose = None ->
  OrientationConstraint_configure scene om = true ->
  orientation_step scene g usedL_fullPose usedL om
  = try_candidate scene g (oc_link_name om)
      {| position_constraint_ := None;
         orientation_constraint_ := Some (mkOrientationConstraint om) |} usedL.
Proof. intros Hf Ho. unfold orientation_step. by rewrite Hf, Ho. Qed.

(** Every table the matching loops build is a well-formed [std::map]. *)
Lemma ik_matching_sorted g constr usedL t :
  ik_matching scene g constr = Some (usedL, t) ->
  StdMap.sorted String.ltb usedL.
Proof.
  unfold ik_matching, full_pose_loop. intros H.
  inv_bind_as H as fp t1 t' Hfp H'. inv_bind_as H' as u t2 t3 Hp Ho.
  assert (StdMap.sorted String.ltb fp) as Hs1.
  { eapply (mfoldl_inv (StdMap.sorted String.ltb) (fun _ => True));
      [| |exact Hfp]; [|constructor].
    intros a pm a' ta Ha Hin. split; [|apply Forall_forall; done].
    eapply (mfoldl_inv (StdMap.sorted String.ltb) (fun _ => True));
      [|exact Ha|exact Hin].
    intros b om b' tb Hb Hstep. split; [|apply Forall_forall; done].
    revert Hstep. unfold full_pose_step.
    destruct (String.eqb _ _); [|by intros [= <- <-]].
    destruct (_ && _); [|by intros [= <- <-]].
    by apply try_candidate_sorted. }
  assert (StdMap.sorted String.ltb u) as Hs2.
  { eapply (mfoldl_inv (StdMap.sorted String.ltb) (fun _ => True));
      [|exact Hs1|exact Hp].
    intros b pm b' tb Hb Hstep. split; [|apply Forall_forall; done].
    revert Hstep. unfold position_step.
    destruct (StdMap.find _ _ _); [by intros [= <- <-]|].
    destruct (PositionConstraint_configure _ _); [|by intros [= <- <-]].
    by apply try_candidate_sorted. }
  eapply (mfoldl_inv (StdMap.sorted String.ltb) (fun _ => True));
    [|exact Hs2|exact Ho].
  intros b om b' tb Hb Hstep. split; [|apply Forall_forall; done].
  revert Hstep. unfold orientation_step.
  destruct (StdMap.find _ _ _); [by intros [= <- <-]|].
  destruct (OrientationConstraint_configure _ _); [|by intros [= <- <-]].
  by apply try_candidate_sorted.
Qed.

(** The matching loops always terminate with a table. *)
Lemma ik_matching_total g constr : is_Some (ik_matching scene g constr).
Proof.
  assert (forall link pose u, is_Some (try_candidate scene g link pose u)) as Ht.
  { intros. unfold try_candidate. simpl.
    destruct (IKConstraintSampler_configure _ _ _); eexists; reflexivity. }
  unfold ik_matching, full_pose_loop.
  destruct (mfoldl_total
              (fun usedL pm => mfoldl (full_pose_step scene g pm)
                                 (orientation_constraints constr) usedL)
              (position_constraints constr)) with (a := @StdMap.empty string IKConstraintSampler)
    as [[fp t1] ->].
  { intros a pm. apply mfoldl_total. intros b om. unfold full_pose_step.
    destruct (String.eqb _ _); [|eexists; reflexivity].
    destruct (_ && _); [apply Ht | eexists; reflexivity]. }
  simpl.
  destruct (mfoldl_total (position_step scene g fp)
              (position_constraints constr)) with (a := fp) as [[u t2] ->].
  { intros b pm. unfold position_step.
    destruct (StdMap.find _ _ _); [eexists; reflexivity|].
    destruct (PositionConstraint_configure _ _);
      [apply Ht | eexists; reflexivity]. }
  simpl.
  destruct (mfoldl_total (orientation_step scene g fp)
              (orientation_constraints constr)) with (a := u) as [[u' t3] ->].
  { intros b om. unfold orientation_step.
    destruct (StdMap.find _ _ _); [eexists; reflexivity|].
    destruct (OrientationConstraint_configure _ _);
      [apply Ht | eexists; reflexivity]. }
  eexists; reflexivity.
Qed.

End candidate_facts.

(** C3 (amended). A new IK Sampler candidate that configures, for a link
    that already has a stored candidate: the stored candidate stays exactly
    when its volume is strictly less than the new one's ([operator<] on
    [double]s); in every other case the new candidate replaces it, so when
    the new volume is less than or equal to the stored one, equal volumes
    included, and also when one of the two volumes is NaN.  The candidates of
    other links are untouched. *)
Theorem candidate_replaced_unless_stored_smaller
    scene g link pose usedL stored :
  StdMap.find String.ltb link usedL = Some stored ->
  IKConstraintSampler_configure scene g pose = true ->
  exists usedL',
    try_candidate scene g link pose usedL = Some (usedL', [EIKSampler g pose])
    /\ ((getSamplingVolume scene stored
         <? getSamplingVolume scene {| iks_group := g; iks_pose := pose |})%float
        = true ->
        StdMap.find String.ltb link usedL' = Some stored)
    /\ ((getSamplingVolume scene stored
         <? getSamplingVolume scene {| iks_group := g; iks_pose := pose |})%float
        = false ->
        StdMap.find String.ltb link usedL'
        = Some {| iks_group := g; iks_pose := pose |})
    /\ ((getSamplingVolume scene {| iks_group := g; iks_pose := pose |}
         <=? getSamplingVolume scene stored)%float = true ->
        StdMap.find String.ltb link usedL'
        = Some {| iks_group := g; iks_pose := pose |})
    /\ (forall l, l <> link ->
          StdMap.find String.ltb l usedL' = StdMap.find String.ltb l usedL).
Proof.
  intros Hf Hc. unfold try_candidate. simpl. rewrite Hc. simpl.
  eexists. split; [reflexivity|].
  split; [|split; [|split]].
  - intros Hlt. rewrite (store_candidate_find _ _ _ _ _ Hf).
    by rewrite Hlt.
  - intros Hge. rewrite (store_candidate_find _ _ _ _ _ Hf).
    by rewrite Hge.
  - intros Hle. rewrite (store_candidate_find _ _ _ _ _ Hf).
    by rewrite (DoubleFacts.leb_ltb_false _ _ Hle).
  - intros l Hne. by apply store_candidate_other.
Qed.

(** C3, an instance: the table holds [first_goal] for link [tool]; a
    candidate of the same volume arrives and takes its place. *)
Lemma candidate_replaced_witness :
  exists usedL',
    try_candidate Example.scene "arm" "tool" (iks_pose Example.second_goal)
      [("tool", Example.first_goal)]
    = Some (usedL', [EIKSampler "arm" (iks_pose Example.second_goal)])
    /\ StdMap.find String.ltb "tool" usedL' = Some Example.second_goal.
Proof.
  destruct (candidate_replaced_unless_stored_smaller
              Example.scene "arm" "tool" (iks_pose Example.second_goal)
              [("tool", Example.first_goal)] Example.first_goal
              eq_refl eq_refl) as (u & H1 & _ & _ & H2 & _).
  exists u. split; [exact H1|].
  apply H2. reflexivity.
Defined.

(** C3 as stated fails on a tie: two position goals on link [tool] with the
    same volume; the table keeps the second one, not the first-seen, and the
    second one is what the call returns. *)
Lemma candidate_tie_counterexample :
  getSamplingVolume Example.scene Example.first_goal
  = getSamplingVolume Example.scene Example.second_goal
  /\ Example.first_goal <> Example.second_goal
  /\ store_candidate Example.scene
       (store_candidate Example.scene StdMap.empty "tool" Example.first_goal)
       "tool" Example.second_goal
     = [("tool", Example.second_goal)]
  /\ selectDefaultSampler Example.scene 1 "arm" Example.same_link
     = Some (Some (IKSampler Example.second_goal),
             [ESelectDefault "arm" Example.same_link;
              EIKSampler "arm" (iks_pose Example.first_goal);
              EIKSampler "arm" (iks_pose Example.second_goal)]).
Proof. repeat split; [discriminate]. Qed.

(** ** The scan for the smallest volume *)

Section min_volume_facts.
Variable scene : PlanningScene.

Lemma min_volume_fold rest : forall pre k l s,
  first_minimum scene pre k l s ->
  exists k' l',
    first_minimum scene (pre ++ rest) k' l'
      (foldl (min_volume_step scene) (s, getSamplingVolume scene s) rest).1.
Proof.
  induction rest as [|it rest IH];
    intros pre k l s (Hk & Hmin & Hfirst & Hnan).
  - exists k, l. rewrite app_nil_r. by split.
  - simpl. unfold min_volume_step at 2. simpl.
    replace (pre ++ it :: rest) with ((pre ++ [it]) ++ rest)
      by (by rewrite <- app_assoc).
    pose proof (lookup_lt_Some _ _ _ Hk) as Hlen.
    destruct (_ <? _)%float eqn:Hlt.
    + apply (IH (pre ++ [it]) (length pre) it.1). split; [|split; [|split]].
      * rewrite lookup_app_r, Nat.sub_diag by lia. by destruct it.
      * intros j e [Hj|[_ Hj]]%lookup_app_Some.
        -- destruct (getSamplingVolume scene e.2 <? getSamplingVolume scene it.2)%float
             eqn:He; [|reflexivity].
           rewrite <- (Hmin _ _ Hj). symmetry.
           by apply DoubleFacts.ltb_trans with (getSamplingVolume scene it.2).
        -- destruct (j - length pre); [|done]. injection Hj as <-.
           apply DoubleFacts.ltb_irrefl.
      * intros j e Hjk Hj He. rewrite lookup_app_l in Hj by lia.
        apply DoubleFacts.ltb_below with (getSamplingVolume scene s);
          [exact Hlt | by eapply Hmin | exact He].
      * intros e He Hn. rewrite lookup_app_l in He by lia.
        specialize (Hnan e He Hn). subst k.
        rewrite Hk in He. injection He as <-. simpl in Hn.
        apply DoubleFacts.ltb_not_nan in Hlt as [_ Hlt]. congruence.
    + apply (IH (pre ++ [it]) k l). split; [|split; [|split]].
      * apply lookup_app_l_Some. exact Hk.
      * intros j e [Hj|[_ Hj]]%lookup_app_Some; [by eapply Hmin|].
        destruct (j - length pre); [|done]. by injection Hj as <-.
      * intros j e Hjk Hj. apply (Hfirst j e Hjk).
        rewrite lookup_app_l in Hj by lia. exact Hj.
      * intros e He. rewrite lookup_app_l in He by lia. by apply Hnan.
Qed.

Lemma min_volume_spec l1 first rest :
  exists k l,
    first_minimum scene ((l1, first) :: rest) k l (min_volume scene first rest).
Proof.
  unfold min_volume.
  apply (min_volume_fold rest [(l1, first)] 0 l1 first).
  split; [reflexivity|]. split; [|split].
  - intros [|j] e; simpl; [intros [= <-]; apply DoubleFacts.ltb_irrefl | done].
  - intros j e Hj. lia.
  - done.
Qed.

(** The volume of the entry the scan arrives at is a number as soon as the
    volume of the first entry is one. *)
Lemma first_minimum_number usedL k l s e :
  first_minimum scene usedL k l s ->
  usedL !! 0 = Some e ->
  PrimFloat.is_nan (getSamplingVolume scene e.2) = false ->
  PrimFloat.is_nan (getSamplingVolume scene s) = false.
Proof.
  intros (Hk & _ & Hfirst & _) He Hn. destruct k as [|k].
  - rewrite Hk in He. by injection He as <-.
  - pose proof (Hfirst 0 e ltac:(lia) He Hn) as Hlt.
    by apply DoubleFacts.ltb_not_nan in Hlt as [Hlt _].
Qed.

(** In a well-formed table, the entry the scan arrives at is, among the
    entries of the same volume, the one with the smallest link name. *)
Lemma first_minimum_least_name usedL k l s :
  StdMap.sorted String.ltb usedL ->
  first_minimum scene usedL k l s ->
  forall l' s', (l', s') ∈ usedL ->
    (getSamplingVolume scene s' =? getSamplingVolume scene s)%float = true ->
    l' = l \/ String.ltb l l' = true.
Proof.
  intros Hs (Hk & Hmin & Hfirst & _) l' s' [j Hj]%list_elem_of_lookup Hv.
  destruct (Nat.lt_trichotomy j k) as [Hlt|[->|Hgt]].
  - pose proof (DoubleFacts.eqb_not_nan _ _ Hv) as [Hn _].
    specialize (Hfirst _ _ Hlt Hj Hn). simpl in Hfirst.
    apply DoubleFacts.ltb_eqb in Hfirst. congruence.
  - rewrite Hk in Hj. injection Hj as -> ->. by left.
  - right.
    apply (StdMapFacts.sorted_lookup_lt _ usedL k j (l, s) (l', s') Hs Hk Hj Hgt).
Qed.

End min_volume_facts.

(** C2 (amended). When the whole-group IK pass ends with more than one link
    in the Candidate Table, exactly one candidate is kept.  No candidate has
    a sampling volume below that of the kept one ([operator<] on [double]s).
    When no volume in the table is NaN, the kept candidate has the least
    sampling volume of the table; among the candidates of the same volume
    it is the one with the smallest link name (the table iterates in the
    order of the link names, not in the order of insertion).  With NaN
    volumes: when the volume of the candidate of the first link is NaN, that
    candidate is kept whatever the others are; otherwise the volume of the
    kept candidate is a number, the least among the volumes that are
    numbers.  The kept candidate is returned alone when there is no joint
    fallback, and otherwise in a Union Sampler constructed over the joint
    fallback followed by it. *)
Theorem whole_group_ik_keeps_one_minimum
    scene fuel g jmg constr js tj fn usedL tm :
  getJointModelGroup scene g = Some jmg ->
  joint_pass scene jmg constr = Some (Continue js, tj) ->
  (getSolverAllocators jmg).1 = Some fn ->
  ik_matching scene (getName jmg) constr = Some (usedL, tm) ->
  1 < StdMap.size usedL ->
  exists l iks,
    (l, iks) ∈ StdMap.elements usedL
    /\ (forall l' s', (l', s') ∈ StdMap.elements usedL ->
          (getSamplingVolume scene s' <? getSamplingVolume scene iks)%float
          = false)
    /\ ((forall l' s', (l', s') ∈ StdMap.elements usedL ->
           PrimFloat.is_nan (getSamplingVolume scene s') = false) ->
        forall l' s', (l', s') ∈ StdMap.elements usedL ->
          (getSamplingVolume scene iks <=? getSamplingVolume scene s')%float
          = true)
    /\ (forall l' s', (l', s') ∈ StdMap.elements usedL ->
          (getSamplingVolume scene s' =? getSamplingVolume scene iks)%float
          = true ->
          l' = l \/ String.ltb l l' = true)
    /\ (forall l0 s0, head (StdMap.elements usedL) = Some (l0, s0) ->
          PrimFloat.is_nan (getSamplingVolume scene s0) = true ->
          (l, iks) = (l0, s0))
    /\ (forall l0 s0, head (StdMap.elements usedL) = Some (l0, s0) ->
          PrimFloat.is_nan (getSamplingVolume scene s0) = false ->
          PrimFloat.is_nan (getSamplingVolume scene iks) = false
          /\ forall l' s', (l', s') ∈ StdMap.elements usedL ->
               PrimFloat.is_nan (getSamplingVolume scene s') = false ->
               (getSamplingVolume scene iks <=? getSamplingVolume scene s')%float
               = true)
    /\ selectDefaultSampler scene (S fuel) g constr =
       Some (Some (match js with
                   | None => IKSampler iks
                   | Some j => UnionSampler (getName jmg) [j; IKSampler iks]
                   end),
             ESelectDefault g constr :: tj ++ tm ++
             match js with
             | None => []
             | Some j => [EUnionSampler (getName jmg) [j; IKSampler iks]]
             end).
Proof.
  intros Hg Hjp Hfn Hmatch Hsize.
  pose proof (ik_matching_sorted _ _ _ _ _ Hmatch) as Hsorted.
  destruct usedL as [|[l1 first] [|e2 rest]]; simpl in Hsize; try lia.
  destruct (min_volume_spec scene l1 first (e2 :: rest)) as (k & l & Hmin).
  exists l, (min_volume scene first (e2 :: rest)).
  set (iks := min_volume scene first (e2 :: rest)) in *.
  assert (Hbelow : forall l' s',
            (l', s') ∈ StdMap.elements ((l1, first) :: e2 :: rest) ->
            (getSamplingVolume scene s' <? getSamplingVolume scene iks)%float
            = false).
  { intros l' s' [j Hj]%list_elem_of_lookup.
    destruct Hmin as (_ & Hle & _). apply (Hle j (l', s') Hj). }
  assert (Hleast : PrimFloat.is_nan (getSamplingVolume scene first) = false ->
            PrimFloat.is_nan (getSamplingVolume scene iks) = false
            /\ forall l' s',
                 (l', s') ∈ StdMap.elements ((l1, first) :: e2 :: rest) ->
                 PrimFloat.is_nan (getSamplingVolume scene s') = false ->
                 (getSamplingVolume scene iks <=? getSamplingVolume scene s')%float
                 = true).
  { intros Hn.
    pose proof (first_minimum_number scene _ _ _ _ (l1, first) Hmin eq_refl Hn)
      as Hi.
    split; [exact Hi|]. intros l' s' Hin Hs'.
    apply DoubleFacts.ltb_false_leb; [exact Hi | exact Hs' | by eapply Hbelow]. }
  split; [|split; [|split; [|split; [|split; [|split]]]]].
  - destruct Hmin as (Hk & _). eapply list_elem_of_lookup_2. exact Hk.
  - exact Hbelow.
  - intros Hall l' s' Hin.
    assert (Hn : PrimFloat.is_nan (getSamplingVolume scene first) = false).
    { apply (Hall l1). unfold StdMap.elements. left. }
    destruct (Hleast Hn) as [_ Hle].
    apply (Hle l' s' Hin). by eapply Hall.
  - by eapply first_minimum_least_name.
  - intros l0 s0 [= <- <-] Hn. destruct Hmin as (Hk & _ & _ & Hnan).
    rewrite (Hnan (l1, first) eq_refl Hn) in Hk. simpl in Hk.
    by injection Hk as <- <-.
  - intros l0 s0 [= <- <-]. exact Hleast.
  - cbn [selectDefaultSampler]. unfold selectDefaultSampler_body.
    rewrite bind_emit, Hg, Hjp. unfold ik_pass. rewrite Hfn, Hmatch.
    unfold ik_resolve, StdMap.elements, return_with.
    destruct js as [j|]; simpl; rewrite ?app_nil_r; reflexivity.
Qed.

(** C2, an instance: candidates for [tool] and [wrist], no joint fallback. *)
Lemma whole_group_ik_witness :
  exists l iks,
    (l, iks) ∈ [("tool", Example.tool_goal); ("wrist", Example.wrist_goal)]
    /\ (forall l' s',
          (l', s') ∈ [("tool", Example.tool_goal); ("wrist", Example.wrist_goal)] ->
          (getSamplingVolume Example.scene iks
           <=? getSamplingVolume Example.scene s')%float = true)
    /\ (forall l' s',
          (l', s') ∈ [("tool", Example.tool_goal); ("wrist", Example.wrist_goal)] ->
          (getSamplingVolume Example.scene s'
           =? getSamplingVolume Example.scene iks)%float = true ->
          l' = l \/ String.ltb l l' = true)
    /\ selectDefaultSampler Example.scene 1 "arm" Example.two_links =
       Some (Some (IKSampler iks),
             ESelectDefault "arm" Example.two_links :: [] ++
             [EIKSampler "arm" (iks_pose Example.wrist_goal);
              EIKSampler "arm" (iks_pose Example.tool_goal)] ++ []).
Proof.
  destruct (whole_group_ik_keeps_one_minimum
              Example.scene 0 "arm" Example.arm Example.two_links None [] 0
              [("tool", Example.tool_goal); ("wrist", Example.wrist_goal)]
              [EIKSampler "arm" (iks_pose Example.wrist_goal);
               EIKSampler "arm" (iks_pose Example.tool_goal)]
              eq_refl eq_refl eq_refl eq_refl)
    as (l & iks & Hin & _ & Hmin & Htie & _ & _ & Hsel).
  - simpl. lia.
  - exists l, iks. split; [exact Hin|]. split; [|split; [exact Htie|exact Hsel]].
    apply Hmin. intros l' s' Hs.
    apply elem_of_cons in Hs as [[= -> ->]|Hs]; [reflexivity|].
    apply elem_of_cons in Hs as [[= -> ->]|Hs]; [reflexivity|].
    by apply elem_of_nil in Hs.
Defined.

(** C2 as stated fails on a tie: the candidate for [wrist] is built and
    stored first, the candidate for [tool] second, both of volume 5; the
    table iterates [tool] before [wrist] and the call returns the candidate
    for [tool], not the first-inserted one. *)
Lemma first_inserted_minimum_counterexample :
  position_step Example.scene "arm" StdMap.empty StdMap.empty
    (Example.pc "wrist" [5%Z])
  = Some ([("wrist", Example.wrist_goal)],
          [EIKSampler "arm" (iks_pose Example.wrist_goal)])
  /\ position_step Example.scene "arm" StdMap.empty
       [("wrist", Example.wrist_goal)] (Example.pc "tool" [5%Z])
     = Some ([("tool", Example.tool_goal); ("wrist", Example.wrist_goal)],
             [EIKSampler "arm" (iks_pose Example.tool_goal)])
  /\ getSamplingVolume Example.scene Example.wrist_goal
     = getSamplingVolume Example.scene Example.tool_goal
  /\ Example.wrist_goal <> Example.tool_goal
  /\ selectDefaultSampler Example.scene 1 "arm" Example.two_links
     = Some (Some (IKSampler Example.tool_goal),
             [ESelectDefault "arm" Example.two_links;
              EIKSampler "arm" (iks_pose Example.wrist_goal);
              EIKSampler "arm" (iks_pose Example.tool_goal)]).
Proof. repeat split; [discriminate]. Qed.

(** ** The subgroup loop *)

Lemma bind_assoc {A B C} (m : M A) (f : A -> M B) (k : B -> M C) :
  bind (bind m f) k = bind m (fun a => bind (f a) k).
Proof.
  unfold bind. destruct m as [[a t1]|]; [|reflexivity].
  destruct (f a) as [[b t2]|]; [|reflexivity].
  destruct (k b) as [[c t3]|]; [|reflexivity].
  by rewrite app_assoc.
Qed.

Section subgroup_facts.
Variable scene : PlanningScene.

Lemma claimed_elem {A} (link : A -> string) sub msgs : forall i used p m,
  ((p, m) ∈ claimed link sub msgs i used) <->
  i <= p /\ (p ∉ used) /\ msgs !! (p - i) = Some m
  /\ hasLinkModel sub (link m) = true.
Proof.
  induction msgs as [|x msgs IH]; intros i used p m; simpl.
  - split; [by intros ?%elem_of_nil | by intros (_ & _ & ? & _)].
  - assert (((p, m) ∈ claimed link sub msgs (S i) used) <->
            S i <= p /\ (p ∉ used) /\ (x :: msgs) !! (p - i) = Some m
            /\ hasLinkModel sub (link m) = true) as Hrest.
    { rewrite IH. split.
      - intros (H1 & H2 & H3 & H4). repeat split; try done.
        replace (p - i) with (S (p - S i)) by lia. exact H3.
      - intros (H1 & H2 & H3 & H4). repeat split; try done.
        replace (p - i) with (S (p - S i)) in H3 by lia. exact H3. }
    destruct (hasLinkModel sub (link x)) eqn:Hl; simpl.
    + destruct (bool_decide (i ∈ used)) eqn:Hu; simpl.
      * apply bool_decide_eq_true in Hu. rewrite Hrest. split.
        -- intros (? & ? & ? & ?). repeat split; auto with lia.
        -- intros (H1 & H2 & H3 & H4). repeat split; try done.
           destruct (decide (p = i)) as [->|]; [done | lia].
      * apply bool_decide_eq_false in Hu. rewrite elem_of_cons, Hrest. split.
        -- intros [[= -> ->]|(? & ? & ? & ?)].
           ++ rewrite Nat.sub_diag. by repeat split.
           ++ repeat split; auto with lia.
        -- intros (H1 & H2 & H3 & H4).
           destruct (decide (p = i)) as [->|Hne].
           ++ left. rewrite Nat.sub_diag in H3. by injection H3 as ->.
           ++ right. repeat split; try done. lia.
    + rewrite Hrest. split.
      * intros (? & ? & ? & ?). repeat split; auto with lia.
      * intros (H1 & H2 & H3 & H4). repeat split; try done.
        destruct (decide (p = i)) as [->|]; [|lia].
        rewrite Nat.sub_diag in H3. injection H3 as ->. congruence.
Qed.

Lemma claimed_indices_ge {A} (link : A -> string) sub msgs i used p :
  p ∈ ((claimed link sub msgs i used).*1) -> i <= p /\ p ∉ used.
Proof.
  intros ([p' m] & -> & Hin)%list_elem_of_fmap.
  apply claimed_elem in Hin. simpl. tauto.
Qed.

Lemma claimed_NoDup {A} (link : A -> string) sub msgs : forall i used,
  NoDup (claimed link sub msgs i used).*1.
Proof.
  induction msgs as [|x msgs IH]; intros i used; simpl; [constructor|].
  destruct (_ && _); [|apply IH].
  simpl. constructor; [|apply IH].
  intros Hin%claimed_indices_ge. lia.
Qed.

(** Indices below [i] play no part. *)
Lemma claimed_used_ext {A} (link : A -> string) sub msgs :
  forall i (used used' : gset nat),
  (forall j, i <= j -> j ∈ used <-> j ∈ used') ->
  claimed link sub msgs i used = claimed link sub msgs i used'.
Proof.
  induction msgs as [|x msgs IH]; intros i used used' Hext; simpl;
    [reflexivity|].
  rewrite (IH (S i) used used') by (intros; apply Hext; lia).
  rewrite (bool_decide_ext (i ∈ used) (i ∈ used')) by (apply Hext; lia).
  reflexivity.
Qed.

Lemma collect_spec {A} (link : A -> string) sub msgs : forall i acc used,
  collect link sub msgs i acc used
  = (acc ++ (claimed link sub msgs i used).*2,
     list_to_set (claimed link sub msgs i used).*1 ∪ used).
Proof.
  induction msgs as [|x msgs IH]; intros i acc used; simpl.
  - rewrite app_nil_r. f_equal. by rewrite (left_id_L ∅ (∪)).
  - destruct (hasLinkModel sub (link x)); simpl.
    + destruct (bool_decide (i ∈ used)) eqn:Hu; simpl.
      * apply IH.
      * rewrite IH.
        rewrite (claimed_used_ext link sub msgs (S i) ({[i]} ∪ used) used).
        -- rewrite <- app_assoc. f_equal.
           by rewrite (assoc_L (∪)), (comm_L (∪) _ {[i]}).
        -- intros j Hj. rewrite elem_of_union, elem_of_singleton.
           split; [intros [->|?]; [lia | done] | by right].
    + apply IH.
Qed.

Lemma build_sub_constr_spec sub constr uP uO :
  build_sub_constr sub constr uP uO
  = (sub_constraints
       (claimed pc_link_name sub (position_constraints constr) 0 uP)
       (claimed oc_link_name sub (orientation_constraints constr) 0 uO),
     list_to_set
       (claimed pc_link_name sub (position_constraints constr) 0 uP).*1 ∪ uP,
     list_to_set
       (claimed oc_link_name sub (orientation_constraints constr) 0 uO).*1 ∪ uO).
Proof. unfold build_sub_constr. rewrite !collect_spec. reflexivity. Qed.

Lemma sub_constr_sequence_spec its constr : forall uP uO,
  sub_constr_sequence scene its constr uP uO
  = (fun a => (deref scene a.1.1, sub_constraints a.1.2 a.2))
      <$> assignment scene its constr uP uO.
Proof.
  induction its as [|it its IH]; intros uP uO; simpl; [reflexivity|].
  rewrite build_sub_constr_spec, IH. reflexivity.
Qed.

(** The loop calls [rec] on the sub-constraint-sets of
    [sub_constr_sequence], which do not depend on what [rec] returns. *)
Lemma subgroup_loop_spec rec its constr : forall st,
  subgroup_loop scene rec its constr st
  = bind (run_calls rec
            (sub_constr_sequence scene its constr (usedP st) (usedO st))
            (samplers st, some_sampler_valid st))
         (fun r =>
            ret {| usedP := (final_used scene its constr (usedP st) (usedO st)).1;
                   usedO := (final_used scene its constr (usedP st) (usedO st)).2;
                   samplers := r.1;
                   some_sampler_valid := r.2 |}).
Proof.
  induction its as [|it its IH]; intros st; simpl.
  - by destruct st.
  - destruct (build_sub_constr _ _ _ _) as [[sc uP] uO]. simpl.
    destruct (sub_constr_nonempty sc); [|by rewrite IH].
    rewrite bind_assoc.
    destruct (rec _ sc) as [[[s|] t]|]; simpl; [| |reflexivity];
      by rewrite IH.
Qed.

End subgroup_facts.

Section partition_facts.
Variable scene : PlanningScene.

Lemma assignment_sound its constr : forall uP uO ptr cp co,
  (ptr, cp, co) ∈ assignment scene its constr uP uO ->
  (forall p m, (p, m) ∈ cp ->
     (p ∉ uP) /\ position_constraints constr !! p = Some m
     /\ hasLinkModel (deref scene ptr) (pc_link_name m) = true)
  /\ (forall o m, (o, m) ∈ co ->
        (o ∉ uO) /\ orientation_constraints constr !! o = Some m
        /\ hasLinkModel (deref scene ptr) (oc_link_name m) = true)
  /\ NoDup cp.*1 /\ NoDup co.*1.
Proof.
  induction its as [|it its IH]; intros uP uO ptr cp co; simpl.
  - by intros ?%elem_of_nil.
  - intros [[= -> -> ->]|Hin]%elem_of_cons.
    + split; [|split; [|split]]; try apply claimed_NoDup.
      * intros p m (_ & H1 & H2 & H3)%claimed_elem.
        rewrite Nat.sub_0_r in H2. done.
      * intros o m (_ & H1 & H2 & H3)%claimed_elem.
        rewrite Nat.sub_0_r in H2. done.
    + destruct (IH _ _ _ _ _ Hin) as (HP & HO & Hn1 & Hn2).
      split; [|split; [|split]]; try done.
      * intros p m Hp. destruct (HP p m Hp) as (H1 & H2 & H3).
        split; [|done]. intros Hu. apply H1. apply elem_of_union. by right.
      * intros o m Ho. destruct (HO o m Ho) as (H1 & H2 & H3).
        split; [|done]. intros Hu. apply H1. apply elem_of_union. by right.
Qed.

(** Nothing in the index sets is placed into a sub-constraint-set. *)
Lemma assignment_fresh its constr uP uO a :
  a ∈ assignment scene its constr uP uO ->
  (forall p, p ∈ uP -> p ∉ a.1.2.*1) /\ (forall o, o ∈ uO -> o ∉ a.2.*1).
Proof.
  destruct a as [[ptr cp] co]. intros Hin.
  destruct (assignment_sound _ _ _ _ _ _ _ Hin) as (HP & HO & _).
  split.
  - intros p Hu ([p' m] & -> & Hp)%list_elem_of_fmap.
    by destruct (HP _ _ Hp) as (H1 & _).
  - intros o Hu ([o' m] & -> & Ho)%list_elem_of_fmap.
    by destruct (HO _ _ Ho) as (H1 & _).
Qed.

Lemma assignment_disjoint_later its constr : forall uP uO i j a b,
  i < j ->
  assignment scene its constr uP uO !! i = Some a ->
  assignment scene its constr uP uO !! j = Some b ->
  (forall p, p ∈ a.1.2.*1 -> p ∉ b.1.2.*1)
  /\ (forall o, o ∈ a.2.*1 -> o ∉ b.2.*1).
Proof.
  induction its as [|it its IH]; intros uP uO i j a b Hij; simpl; [done|].
  destruct j as [|j]; [lia|]. destruct i as [|i]; simpl.
  - intros [= <-] Hb%list_elem_of_lookup_2. simpl.
    apply assignment_fresh in Hb as [HP HO].
    split; intros x Hx; [apply HP | apply HO];
      apply elem_of_union; left; by apply elem_of_list_to_set.
  - apply IH. lia.
Qed.

Lemma assignment_disjoint its constr uP uO i j a b :
  i <> j ->
  assignment scene its constr uP uO !! i = Some a ->
  assignment scene its constr uP uO !! j = Some b ->
  (forall p, p ∈ a.1.2.*1 -> p ∉ b.1.2.*1)
  /\ (forall o, o ∈ a.2.*1 -> o ∉ b.2.*1).
Proof.
  intros Hne Ha Hb. destruct (Nat.lt_trichotomy i j) as [Hlt|[->|Hgt]].
  - eapply assignment_disjoint_later; eauto.
  - done.
  - destruct (assignment_disjoint_later _ _ _ _ _ _ _ _ Hgt Hb Ha) as [HP HO].
    split; intros x Hx Hx'; [by apply (HP x) | by apply (HO x)].
Qed.

Lemma run_calls_spec rec plan : forall acc,
  (forall e, e ∈ plan -> sub_constr_nonempty e.2 = true ->
     is_Some (rec (getName e.1) e.2)) ->
  exists t,
    run_calls rec plan acc
    = Some ((acc.1 ++ omap (sub_result rec) plan,
             acc.2 || match omap (sub_result rec) plan with
                      | [] => false
                      | _ :: _ => true
                      end), t).
Proof.
  induction plan as [|[sub sc] plan IH]; intros acc Hret.
  - exists []. simpl. rewrite app_nil_r, orb_false_r. by destruct acc.
  - assert (forall e, e ∈ plan -> sub_constr_nonempty e.2 = true ->
              is_Some (rec (getName e.1) e.2)) as Hret'
      by (intros e He; apply Hret; by right).
    change (omap (sub_result rec) ((sub, sc) :: plan))
      with (match sub_result rec (sub, sc) with
            | Some s => s :: omap (sub_result rec) plan
            | None => omap (sub_result rec) plan
            end).
    cbn [run_calls].
    destruct (sub_constr_nonempty sc) eqn:Hne.
    2:{ assert (sub_result rec (sub, sc) = None) as ->
          by (unfold sub_result; simpl; by rewrite Hne).
        by apply IH. }
    destruct (Hret (sub, sc) ltac:(by left) Hne) as [[cs t] Hrec].
    simpl in Hrec.
    assert (sub_result rec (sub, sc) = cs) as ->
      by (unfold sub_result; simpl; rewrite Hne, Hrec; by destruct cs).
    rewrite Hrec. simpl.
    destruct cs as [s|].
    + destruct (IH (acc.1 ++ [s], true) Hret') as [t' ->].
      exists (t ++ t'). simpl. rewrite <- app_assoc, orb_true_r. reflexivity.
    + destruct (IH acc Hret') as [t' ->]. by exists (t ++ t').
Qed.

End partition_facts.

(** C4. Starting the subgroup loop with empty index sets: the recursive
    calls are made on the sub-constraint-sets of [assignment]; each of them
    holds constraints of the input, at distinct indices, whose link belongs
    to the subgroup it is built for; and an index placed into the
    sub-constraint-set of one subgroup is in that of no other subgroup. *)
Theorem subgroup_constraints_partitioned scene rec its constr samplers0 :
  subgroup_loop scene rec its constr
    {| usedP := ∅; usedO := ∅; samplers := samplers0;
       some_sampler_valid := false |}
  = bind (run_calls rec
            ((fun a => (deref scene a.1.1, sub_constraints a.1.2 a.2))
               <$> assignment scene its constr ∅ ∅)
            (samplers0, false))
         (fun r =>
            ret {| usedP := (final_used scene its constr ∅ ∅).1;
                   usedO := (final_used scene its constr ∅ ∅).2;
                   samplers := r.1;
                   some_sampler_valid := r.2 |})
  /\ (forall ptr cp co,
        (ptr, cp, co) ∈ assignment scene its constr ∅ ∅ ->
        (forall p m, (p, m) ∈ cp ->
           position_constraints constr !! p = Some m
           /\ hasLinkModel (deref scene ptr) (pc_link_name m) = true)
        /\ (forall o m, (o, m) ∈ co ->
              orientation_constraints constr !! o = Some m
              /\ hasLinkModel (deref scene ptr) (oc_link_name m) = true)
        /\ NoDup cp.*1 /\ NoDup co.*1)
  /\ (forall i j a b,
        i <> j ->
        assignment scene its constr ∅ ∅ !! i = Some a ->
        assignment scene its constr ∅ ∅ !! j = Some b ->
        (forall p, p ∈ a.1.2.*1 -> p ∉ b.1.2.*1)
        /\ (forall o, o ∈ a.2.*1 -> o ∉ b.2.*1)).
Proof.
  split; [|split].
  - rewrite subgroup_loop_spec. simpl.
    by rewrite sub_constr_sequence_spec.
  - intros ptr cp co Hin.
    destruct (assignment_sound _ _ _ _ _ _ _ _ Hin) as (HP & HO & Hn1 & Hn2).
    repeat split; try done.
    + by destruct (HP p m) as (_ & ? & _).
    + by destruct (HP p m) as (_ & _ & ?).
    + by destruct (HO o m) as (_ & ? & _).
    + by destruct (HO o m) as (_ & _ & ?).
  - intros i j a b. apply assignment_disjoint.
Qed.


(** ** Order of the subgroups *)

Lemma register_subgroups_sorted regs :
  StdMap.sorted N.ltb (register_subgroups regs).
Proof.
  unfold register_subgroups.
  assert (forall m : @StdMap.t GroupPtr SolverAllocatorFn,
            StdMap.sorted N.ltb m ->
            StdMap.sorted N.ltb
              (foldl (fun m r => StdMap.insert N.ltb r.1 r.2 m) m regs)) as H.
  { induction regs as [|r regs IH]; intros m Hm; simpl; [exact Hm|].
    apply IH. by apply (StdMapFacts.insert_sorted _ N_ltb_order). }
  apply H. constructor.
Qed.

(** Two registrations in either order leave the same map: the order of
    registration cannot be read off the map. *)
Lemma register_subgroups_swap p1 f1 p2 f2 :
  p1 <> p2 ->
  register_subgroups [(p1, f1); (p2, f2)]
  = register_subgroups [(p2, f2); (p1, f1)].
Proof.
  intros Hne. unfold register_subgroups. simpl.
  destruct (N.ltb_spec p1 p2) as [H|H], (N.ltb_spec p2 p1) as [H'|H'];
    try lia; reflexivity.
Qed.

Lemma sub_constr_sequence_groups scene its constr : forall uP uO,
  (sub_constr_sequence scene its constr uP uO).*1
  = (fun it => deref scene it.1) <$> its.
Proof.
  induction its as [|it its IH]; intros uP uO; simpl; [reflexivity|].
  destruct (build_sub_constr _ _ _ _) as [[sc uP'] uO']. simpl.
  by rewrite IH.
Qed.

(** C6 (amended). The subgroups are processed in the iteration order of the
    map of subgroup allocators, which for a map filled by registrations is
    the ascending order of the subgroup addresses whatever the order of
    registration.  When the recursive calls return and at least one returns
    a sampler, the result is the Union Sampler constructed over the joint
    fallback (when there is one) followed by the samplers of the successful
    subgroups in that processing order. *)
Theorem subgroup_union_in_map_order scene fuel g jmg constr js tj ti :
  getJointModelGroup scene g = Some jmg ->
  joint_pass scene jmg constr = Some (Continue js, tj) ->
  ik_pass scene jmg constr (initial_samplers js) = Some (Continue tt, ti) ->
  (forall e,
     e ∈ sub_constr_sequence scene
           (StdMap.elements (getSolverAllocators jmg).2) constr ∅ ∅ ->
     sub_constr_nonempty e.2 = true ->
     is_Some (selectDefaultSampler scene fuel (getName e.1) e.2)) ->
  omap (sub_result (selectDefaultSampler scene fuel))
       (sub_constr_sequence scene
          (StdMap.elements (getSolverAllocators jmg).2) constr ∅ ∅) <> [] ->
  (sub_constr_sequence scene
     (StdMap.elements (getSolverAllocators jmg).2) constr ∅ ∅).*1
  = (fun it => deref scene it.1)
      <$> StdMap.elements (getSolverAllocators jmg).2
  /\ (forall regs,
        (getSolverAllocators jmg).2 = register_subgroups regs ->
        StdMap.sorted N.ltb (getSolverAllocators jmg).2)
  /\ exists ts,
       selectDefaultSampler scene (S fuel) g constr =
       Some (Some (UnionSampler (getName jmg)
                     (initial_samplers js ++
                      omap (sub_result (selectDefaultSampler scene fuel))
                        (sub_constr_sequence scene
                           (StdMap.elements (getSolverAllocators jmg).2)
                           constr ∅ ∅))),
             ESelectDefault g constr :: tj ++ ti ++ ts ++
             [EUnionSampler (getName jmg)
                (initial_samplers js ++
                 omap (sub_result (selectDefaultSampler scene fuel))
                   (sub_constr_sequence scene
                      (StdMap.elements (getSolverAllocators jmg).2)
                      constr ∅ ∅))]).
Proof.
  intros Hg Hjp Hik Hret Hsome.
  split; [|split].
  - apply sub_constr_sequence_groups.
  - intros regs ->. apply register_subgroups_sorted.
  - cbn [selectDefaultSampler]. unfold selectDefaultSampler_body.
    rewrite bind_emit, Hg, Hjp. cbn [bind]. rewrite Hik. cbn [bind].
    unfold subgroup_pass.
    destruct (StdMap.elements (getSolverAllocators jmg).2) as [|it its] eqn:E;
      [done|].
    rewrite subgroup_loop_spec. cbn [usedP usedO samplers some_sampler_valid].
    destruct (run_calls_spec (selectDefaultSampler scene fuel) _
                (initial_samplers js, false) Hret) as [ts ->].
    exists ts. cbn [bind ret fst snd].
    destruct (omap _ _) as [|s l] eqn:Hom; [done|].
    cbn [orb some_sampler_valid samplers bind emit ret].
    rewrite !app_nil_r. reflexivity.
Qed.

(** C7. When the joint coverage pass does not return, the whole-group IK
    pass yields no sampler and the subgroup pass yields none either,
    [selectDefaultSampler] returns the joint fallback of the coverage pass
    when there is one and the empty result otherwise, as an ordinary
    return value.  In particular, without joint constraints, IK allocator
    and subgroup allocators the result is empty. *)
Theorem fallback_is_joint_sampler_or_empty scene fuel g jmg constr :
  getJointModelGroup scene g = Some jmg ->
  (forall js tj ti ts,
     joint_pass scene jmg constr = Some (Continue js, tj) ->
     ik_pass scene jmg constr (initial_samplers js) = Some (Continue tt, ti) ->
     subgroup_pass scene (selectDefaultSampler scene fuel) jmg constr
       (initial_samplers js) = Some (Continue tt, ts) ->
     selectDefaultSampler scene (S fuel) g constr
     = Some (js, ESelectDefault g constr :: tj ++ ti ++ ts))
  /\ (joint_constraints constr = [] ->
      getSolverAllocators jmg = (None, StdMap.empty) ->
      selectDefaultSampler scene (S fuel) g constr
      = Some (None, [ESelectDefault g constr])).
Proof.
  intros Hg. split.
  - intros js tj ti ts Hjp Hik Hsub.
    cbn [selectDefaultSampler]. unfold selectDefaultSampler_body.
    rewrite bind_emit, Hg, Hjp. cbn [bind]. rewrite Hik. cbn [bind].
    rewrite Hsub. cbn [bind ret]. by rewrite !app_nil_r.
  - intros Hj Ha.
    cbn [selectDefaultSampler]. unfold selectDefaultSampler_body.
    rewrite bind_emit, Hg. unfold joint_pass, ik_pass, subgroup_pass.
    rewrite Hj, Ha. reflexivity.
Qed.

(** Step 1: an unknown group gives the empty result. *)
Lemma unknown_group_is_empty scene fuel g constr :
  getJointModelGroup scene g = None ->
  selectDefaultSampler scene (S fuel) g constr
  = Some (None, [ESelectDefault g constr]).
Proof.
  intros Hg. cbn [selectDefaultSampler]. unfold selectDefaultSampler_body.
  by rewrite bind_emit, Hg.
Qed.

(** ** Instances on the concrete robot *)

(** C6, an instance: one position goal per hand of [arms]. *)
Lemma subgroup_union_witness :
  exists ts,
    selectDefaultSampler Example.scene 2 "arms" Example.both_hands =
    Some (Some (UnionSampler "arms"
                  [IKSampler Example.left_goal; IKSampler Example.right_goal]),
          ESelectDefault "arms" Example.both_hands :: ts ++
          [EUnionSampler "arms"
             [IKSampler Example.left_goal; IKSampler Example.right_goal]]).
Proof.
  refine (proj2 (proj2 (subgroup_union_in_map_order
            Example.scene 1 "arms" Example.arms Example.both_hands
            None [] [] eq_refl eq_refl eq_refl _ _))).
  - intros e He _. vm_compute in He.
    apply elem_of_cons in He as [->|He]; [eexists; vm_compute; reflexivity|].
    apply elem_of_cons in He as [->|He]; [eexists; vm_compute; reflexivity|].
    by apply elem_of_nil in He.
  - vm_compute. discriminate.
Defined.

(** C6 as stated fails: the allocator of [right_arm] is registered before
    that of [left_arm], yet [left_arm], which has the smaller address, is
    processed first and its sampler comes first in the Union Sampler. *)
Lemma registration_order_counterexample :
  (getSolverAllocators Example.arms).2
  = register_subgroups [(2%N, 2); (1%N, 1)]
  /\ deref Example.scene 2%N = Example.right_arm
  /\ deref Example.scene 1%N = Example.left_arm
  /\ fst <$> selectDefaultSampler Example.scene 2 "arms" Example.both_hands
     = Some (Some (UnionSampler "arms"
                     [IKSampler Example.left_goal;
                      IKSampler Example.right_goal])).
Proof. repeat split. Qed.

(** C7, an instance: [arms] with a joint constraint on one variable and no
    Cartesian constraint returns the joint fallback alone. *)
Lemma fallback_witness :
  selectDefaultSampler Example.scene 1 "arms" Example.left_joint_only
  = Some (Some (JointSampler
                  {| jcs_group := "arms";
                     jcs_constraints :=
                       [mkJointConstraint (Example.jc "l1" 0 1)] |}),
          ESelectDefault "arms" Example.left_joint_only ::
          [EJointSampler "arms" [mkJointConstraint (Example.jc "l1" 0 1)]]
          ++ [] ++ []).
Proof.
  apply (proj1 (fallback_is_joint_sampler_or_empty
                  Example.scene 0 "arms" Example.arms Example.left_joint_only
                  eq_refl)).
  - reflexivity.
  - reflexivity.
  - reflexivity.
Defined.


(** C9, an instance: a constraint on the variable [t1] of [torso] among the
    joint constraints given for [arm]. *)
Lemma foreign_joint_constraint_witness :
  mkJointConstraint (Example.jc "t1" 0 1) ∉
    (joint_loop Example.scene
       (init_coverage (getVariableNames Example.arm), [])
       Example.with_foreign).2.
Proof.
  refine (proj1 (proj2 (foreign_joint_constraint_excluded
            Example.scene Example.arm [Example.jc "j1" 0 1]
            (Example.jc "t1" 0 1) [] eq_refl _))).
  simpl. intros H.
  apply elem_of_cons in H as [H|H]; [discriminate|].
  apply elem_of_cons in H as [H|H]; [discriminate|].
  by apply elem_of_nil in H.
Defined.

(** C10, an instance: the two trajectories of [Example.trajectories]. *)
Lemma swap_keeps_durations_witness :
  exists h',
    KinematicTrajectory.swap 0 1 Example.trajectories = Some h'
    /\ h' !! 0 = Some
         {| KinematicTrajectory.kmodel_ := 7;
            KinematicTrajectory.group_ := None;
            KinematicTrajectory.waypoints_ := [30];
            KinematicTrajectory.duration_from_previous_ := [0%Z; 2%Z] |}
    /\ h' !! 1 = Some
         {| KinematicTrajectory.kmodel_ := 3;
            KinematicTrajectory.group_ := Some 1%N;
            KinematicTrajectory.waypoints_ := [10; 20];
            KinematicTrajectory.duration_from_previous_ := [5%Z] |}
    /\ (forall l, l <> 0 -> l <> 1 -> h' !! l = Example.trajectories !! l).
Proof.
  apply (swap_keeps_durations Example.trajectories 0 1
           Example.trajectory0 Example.trajectory1).
  - discriminate.
  - reflexivity.
  - reflexivity.
Defined.

(** ** The recursion budget *)

Section budget_facts.
Variable scene : PlanningScene.

Lemma subgroup_loop_mono rec rec' its constr :
  (forall g c r, rec g c = Some r -> rec' g c = Some r) ->
  forall st r,
    subgroup_loop scene rec its constr st = Some r ->
    subgroup_loop scene rec' its constr st = Some r.
Proof.
  intros Hrec. induction its as [|it its IH]; intros st r; simpl; [done|].
  destruct (build_sub_constr _ _ _ _) as [[sc uP] uO].
  destruct (sub_constr_nonempty sc); [|apply IH].
  destruct (rec _ sc) as [[cs t]|] eqn:E; [|discriminate].
  rewrite (Hrec _ _ _ E). simpl.
  destruct cs as [s|].
  - destruct (subgroup_loop scene rec its constr _) as [[st' t']|] eqn:E';
      [|discriminate].
    by rewrite (IH _ _ E').
  - destruct (subgroup_loop scene rec its constr _) as [[st' t']|] eqn:E';
      [|discriminate].
    by rewrite (IH _ _ E').
Qed.

Lemma selectDefaultSampler_body_mono rec rec' g c r :
  (forall g c r, rec g c = Some r -> rec' g c = Some r) ->
  selectDefaultSampler_body scene rec g c = Some r ->
  selectDefaultSampler_body scene rec' g c = Some r.
Proof.
  intros Hrec. unfold selectDefaultSampler_body. rewrite !bind_emit.
  destruct (getJointModelGroup scene g) as [jmg|]; [|done].
  destruct (joint_pass scene jmg c) as [[[s|js] tj]|]; [done| |done].
  cbn [bind].
  destruct (ik_pass scene jmg c _) as [[[s|[]] ti]|]; [done| |done].
  cbn [bind]. unfold subgroup_pass.
  destruct (StdMap.elements _) as [|it its]; [done|].
  destruct (subgroup_loop scene rec _ c _) as [[st ts]|] eqn:E;
    [|discriminate].
  by rewrite (subgroup_loop_mono rec rec' _ _ Hrec _ _ E).
Qed.

(** A call that returns within some budget returns the same result and
    trace within any larger budget. *)
Lemma selectDefaultSampler_mono fuel : forall fuel' g c r,
  fuel <= fuel' ->
  selectDefaultSampler scene fuel g c = Some r ->
  selectDefaultSampler scene fuel' g c = Some r.
Proof.
  induction fuel as [|fuel IH]; intros fuel' g c r Hle; [discriminate|].
  destruct fuel' as [|fuel']; [lia|].
  cbn [selectDefaultSampler]. apply selectDefaultSampler_body_mono.
  intros g' c' r'. apply IH. lia.
Qed.

End budget_facts.

(* ===================================================================== *)
(** * Further properties of the manager *)
(* ===================================================================== *)

Lemma mfoldl_inv_elem {A B} (I : A -> Prop) (f : A -> B -> M A) (l : list B) :
  (forall a x a' t, x ∈ l -> I a -> f a x = Some (a', t) -> I a') ->
  forall a a' t, I a -> mfoldl f l a = Some (a', t) -> I a'.
Proof.
  induction l as [|x l IH]; intros Hf a a' t Ha; simpl.
  - by intros [= <- <-].
  - intros H. inv_bind_as H as a0 t1 t2 Hx Hl.
    eapply IH; [| |exact Hl].
    + intros b y b' tb Hy. apply Hf. by right.
    + eapply Hf; [left|exact Ha|exact Hx].
Qed.

Section table_facts.
Variable scene : PlanningScene.

Lemma try_candidate_inv (I : string -> IKConstraintSampler -> Prop)
    g link pose usedL usedL' t :
  (forall l s, (l, s) ∈ usedL -> I l s) ->
  (IKConstraintSampler_configure scene g pose = true ->
   I link {| iks_group := g; iks_pose := pose |}) ->
  try_candidate scene g link pose usedL = Some (usedL', t) ->
  forall l s, (l, s) ∈ usedL' -> I l s.
Proof.
  intros Hold Hnew. unfold try_candidate. simpl.
  destruct (IKConstraintSampler_configure scene g pose); simpl;
    intros [= <- <-]; [|exact Hold].
  unfold store_candidate.
  destruct (if StdMap.find _ _ _ is Some _ then _ else _); [|exact Hold].
  intros l s [[= -> ->]|Hin]%StdMapFacts.elem_of_insert; auto.
Qed.

Lemma candidate_ok_intro g constr l pose :
  IKConstraintSampler_configure scene g pose = true ->
  is_Some (position_constraint_ pose) \/ is_Some (orientation_constraint_ pose) ->
  (forall pc, position_constraint_ pose = Some pc ->
     pc_msg pc ∈ position_constraints constr
     /\ pc_link_name (pc_msg pc) = l
     /\ PositionConstraint_configure scene (pc_msg pc) = true) ->
  (forall oc, orientation_constraint_ pose = Some oc ->
     oc_msg oc ∈ orientation_constraints constr
     /\ oc_link_name (oc_msg oc) = l
     /\ OrientationConstraint_configure scene (oc_msg oc) = true) ->
  candidate_ok scene g constr l {| iks_group := g; iks_pose := pose |}.
Proof.
  intros Hc Hs Hp Ho. unfold candidate_ok. simpl.
  split; [done|]. split; [done|]. split; [done|]. split; assumption.
Qed.

Lemma ik_matching_candidates g constr usedL t :
  ik_matching scene g constr = Some (usedL, t) ->
  forall l s, (l, s) ∈ usedL -> candidate_ok scene g constr l s.
Proof.
  unfold ik_matching, full_pose_loop. intros H.
  inv_bind_as H as fp t1 t' Hfp H'. inv_bind_as H' as u t2 t3 Hp Ho.
  set (I := fun u : CandidateTable =>
              forall l s, (l, s) ∈ u -> candidate_ok scene g constr l s).
  assert (I fp) as Hfp_ok.
  { eapply (mfoldl_inv_elem I); [| |exact Hfp];
      [|by intros l s ?%elem_of_nil].
    intros a pm a' ta Hpm Ha Hin. cbv beta in Hin.
    eapply (mfoldl_inv_elem I); [|exact Ha|exact Hin].
    intros b om b' tb Hom Hb. unfold full_pose_step.
    destruct (String.eqb_spec (pc_link_name pm) (oc_link_name om)) as [El|];
      [|by intros [= <- <-]].
    destruct (PositionConstraint_configure scene pm) eqn:Ep;
      [|by intros [= <- <-]].
    destruct (OrientationConstraint_configure scene om) eqn:Eo;
      [|by intros [= <- <-]].
    simpl. intros Ht.
    refine (try_candidate_inv (candidate_ok scene g constr)
              _ _ _ _ _ _ Hb _ Ht).
    intros Hc. apply candidate_ok_intro; simpl; [exact Hc|left; eauto| |].
    - by intros pc [= <-].
    - by intros oc [= <-]. }
  assert (I u) as Hu_ok.
  { eapply (mfoldl_inv_elem I); [|exact Hfp_ok|exact Hp].
    intros b pm b' tb Hpm Hb. unfold position_step.
    destruct (StdMap.find _ _ _); [by intros [= <- <-]|].
    destruct (PositionConstraint_configure scene pm) eqn:Ep;
      [|by intros [= <- <-]].
    intros Ht.
    refine (try_candidate_inv (candidate_ok scene g constr)
              _ _ _ _ _ _ Hb _ Ht).
    intros Hc. apply candidate_ok_intro; simpl; [exact Hc|left; eauto| |done].
    by intros pc [= <-]. }
  eapply (mfoldl_inv_elem I); [|exact Hu_ok|exact Ho].
  intros b om b' tb Hom Hb. unfold orientation_step.
  destruct (StdMap.find _ _ _); [by intros [= <- <-]|].
  destruct (OrientationConstraint_configure scene om) eqn:Eo;
    [|by intros [= <- <-]].
  intros Ht.
  refine (try_candidate_inv (candidate_ok scene g constr)
            _ _ _ _ _ _ Hb _ Ht).
  intros Hc. apply candidate_ok_intro; simpl; [exact Hc|right; eauto|done|].
  by intros oc [= <-].
Qed.

End table_facts.

Lemma mfoldl_reaches {A B} (P : A -> Prop) (f : A -> B -> M A) (x0 : B)
    (l : list B) :
  (forall a x a' t, P a -> f a x = Some (a', t) -> P a') ->
  (forall a a' t, f a x0 = Some (a', t) -> P a') ->
  x0 ∈ l ->
  forall a a' t, mfoldl f l a = Some (a', t) -> P a'.
Proof.
  intros Hkeep Hset. induction l as [|x l IH]; intros Hin a a' t; simpl.
  - by apply elem_of_nil in Hin.
  - intros H. inv_bind_as H as a0 t1 t2 Hx Hl.
    apply elem_of_cons in Hin as [<-|Hin].
    + eapply (mfoldl_inv P (fun _ => True)); [| |exact Hl].
      * intros b y b' tb Hb Hy. split; [eauto | by apply Forall_forall].
      * eapply Hset; eauto.
    + eapply IH; eauto.
Qed.

Section full_pose_facts.
Variable scene : PlanningScene.

Lemma try_candidate_find_other g link pose usedL usedL' t l :
  try_candidate scene g link pose usedL = Some (usedL', t) ->
  l <> link ->
  StdMap.find String.ltb l usedL' = StdMap.find String.ltb l usedL.
Proof.
  unfold try_candidate. simpl.
  destruct (IKConstraintSampler_configure scene g pose); simpl;
    intros [= <- <-] Hne; [|reflexivity].
  by apply store_candidate_other.
Qed.

Lemma try_candidate_find_some g link pose usedL usedL' t :
  try_candidate scene g link pose usedL = Some (usedL', t) ->
  IKConstraintSampler_configure scene g pose = true ->
  is_Some (StdMap.find String.ltb link usedL').
Proof.
  unfold try_candidate. simpl. intros H Hc. rewrite Hc in H. simpl in H.
  injection H as <- <-.
  destruct (StdMap.find String.ltb link usedL) as [stored|] eqn:Hf.
  - rewrite (store_candidate_find _ _ _ _ _ Hf). eauto.
  - rewrite (store_candidate_fresh _ _ _ _ Hf). eauto.
Qed.

Lemma try_candidate_keeps_some g link pose usedL usedL' t l :
  try_candidate scene g link pose usedL = Some (usedL', t) ->
  is_Some (StdMap.find String.ltb l usedL) ->
  is_Some (StdMap.find String.ltb l usedL').
Proof.
  intros H Hs. destruct (decide (l = link)) as [->|Hne].
  - revert H. unfold try_candidate. simpl.
    destruct (IKConstraintSampler_configure scene g pose); simpl;
      intros [= <- <-]; [|exact Hs].
    destruct Hs as [stored Hf].
    rewrite (store_candidate_find _ _ _ _ _ Hf). eauto.
  - by rewrite (try_candidate_find_other _ _ _ _ _ _ _ H Hne).
Qed.

Lemma full_pose_step_keeps_some g pm usedL om usedL' t l :
  full_pose_step scene g pm usedL om = Some (usedL', t) ->
  is_Some (StdMap.find String.ltb l usedL) ->
  is_Some (StdMap.find String.ltb l usedL').
Proof.
  unfold full_pose_step.
  destruct (String.eqb _ _); [|by intros [= <- <-]].
  destruct (_ && _); [|by intros [= <- <-]].
  apply try_candidate_keeps_some.
Qed.

(** After the full-pose loop, a link with a position and an orientation
    constraint that configure, alone and together, has a candidate. *)
Lemma full_pose_loop_reaches g constr pm om fp t :
  full_pose_loop scene g constr StdMap.empty = Some (fp, t) ->
  pm ∈ position_constraints constr ->
  om ∈ orientation_constraints constr ->
  pc_link_name pm = oc_link_name om ->
  PositionConstraint_configure scene pm = true ->
  OrientationConstraint_configure scene om = true ->
  IKConstraintSampler_configure scene g
    {| position_constraint_ := Some (mkPositionConstraint pm);
       orientation_constraint_ := Some (mkOrientationConstraint om) |} = true ->
  is_Some (StdMap.find String.ltb (pc_link_name pm) fp).
Proof.
  unfold full_pose_loop. intros H Hpm Hom Hl Hp Ho Hc.
  refine (mfoldl_reaches
            (fun u => is_Some (StdMap.find String.ltb (pc_link_name pm) u))
            _ pm _ _ _ Hpm _ _ _ H).
  - intros a x a' t' Ha Hin.
    eapply (mfoldl_inv
              (fun u => is_Some (StdMap.find String.ltb (pc_link_name pm) u))
              (fun _ => True)); [|exact Ha|exact Hin].
    intros b y b' tb Hb Hy. split; [|by apply Forall_forall].
    eapply full_pose_step_keeps_some; eauto.
  - intros a a' t' Hin.
    refine (mfoldl_reaches
              (fun u => is_Some (StdMap.find String.ltb (pc_link_name pm) u))
              _ om _ _ _ Hom _ _ _ Hin).
    + intros b y b' tb Hb Hy. eapply full_pose_step_keeps_some; eauto.
    + intros b b' tb. rewrite full_pose_step_candidate by done.
      intros Ht. eapply try_candidate_find_some; eauto.
Qed.

(** Entries of the full-pose table carry both goals. *)
Lemma full_pose_loop_full g constr fp t :
  full_pose_loop scene g constr StdMap.empty = Some (fp, t) ->
  forall l s, (l, s) ∈ fp ->
    is_Some (position_constraint_ (iks_pose s))
    /\ is_Some (orientation_constraint_ (iks_pose s)).
Proof.
  unfold full_pose_loop. intros H.
  set (I := fun u : CandidateTable =>
              forall l s, (l, s) ∈ u ->
                is_Some (position_constraint_ (iks_pose s))
                /\ is_Some (orientation_constraint_ (iks_pose s))).
  eapply (mfoldl_inv_elem I); [| |exact H]; [|by intros l s ?%elem_of_nil].
  intros a pm a' ta Hpm Ha Hin. cbv beta in Hin.
  eapply (mfoldl_inv_elem I); [|exact Ha|exact Hin].
  intros b om b' tb Hom Hb. unfold full_pose_step.
  destruct (String.eqb _ _); [|by intros [= <- <-]].
  destruct (_ && _); [|by intros [= <- <-]].
  intros Ht.
  refine (try_candidate_inv scene
            (fun _ s => is_Some (position_constraint_ (iks_pose s))
                        /\ is_Some (orientation_constraint_ (iks_pose s)))
            _ _ _ _ _ _ Hb _ Ht).
  intros _. simpl. eauto.
Qed.

(** The position-only and orientation-only loops leave the candidates of
    the full-pose table where they are. *)
Lemma partial_loops_keep_full_pose g constr fp t1 usedL t :
  full_pose_loop scene g constr StdMap.empty = Some (fp, t1) ->
  ik_matching scene g constr = Some (usedL, t) ->
  forall l s, StdMap.find String.ltb l fp = Some s ->
    StdMap.find String.ltb l usedL = Some s.
Proof.
  intros Hfp. unfold ik_matching. rewrite Hfp. intros H.
  inv_bind_as H as fp' t1' t' Hfp' H'. injection Hfp' as <- <-.
  inv_bind_as H' as u t2 t3 Hp Ho.
  set (I := fun u : CandidateTable =>
              forall l s, StdMap.find String.ltb l fp = Some s ->
                StdMap.find String.ltb l u = Some s).
  assert (I u) as Hu.
  { eapply (mfoldl_inv_elem I); [| |exact Hp]; [|by intros l s].
    intros b pm b' tb _ Hb. unfold position_step.
    destruct (StdMap.find String.ltb (pc_link_name pm) fp) eqn:Hf;
      [by intros [= <- <-]|].
    destruct (PositionConstraint_configure scene pm); [|by intros [= <- <-]].
    intros Ht l s Hl.
    rewrite (try_candidate_find_other _ _ _ _ _ _ l Ht); [by apply Hb|].
    intros ->. congruence. }
  eapply (mfoldl_inv_elem I); [|exact Hu|exact Ho].
  intros b om b' tb _ Hb. unfold orientation_step.
  destruct (StdMap.find String.ltb (oc_link_name om) fp) eqn:Hf;
    [by intros [= <- <-]|].
  destruct (OrientationConstraint_configure scene om); [|by intros [= <- <-]].
  intros Ht l s Hl.
  rewrite (try_candidate_find_other _ _ _ _ _ _ l Ht); [by apply Hb|].
  intros ->. congruence.
Qed.

End full_pose_facts.

(** X1. A link with a position constraint and an orientation constraint
    that configure, and whose combined IK Sampler configures, ends the
    matching with a full-pose candidate: position-only and orientation-only
    goals on that link are never stored in its place, whatever their
    volume. *)
Theorem full_pose_goal_takes_precedence scene g constr usedL t pm om :
  ik_matching scene g constr = Some (usedL, t) ->
  pm ∈ position_constraints constr ->
  om ∈ orientation_constraints constr ->
  pc_link_name pm = oc_link_name om ->
  PositionConstraint_configure scene pm = true ->
  OrientationConstraint_configure scene om = true ->
  IKConstraintSampler_configure scene g
    {| position_constraint_ := Some (mkPositionConstraint pm);
       orientation_constraint_ := Some (mkOrientationConstraint om) |} = true ->
  exists s,
    StdMap.find String.ltb (pc_link_name pm) usedL = Some s
    /\ is_Some (position_constraint_ (iks_pose s))
    /\ is_Some (orientation_constraint_ (iks_pose s)).
Proof.
  intros Hm Hpm Hom Hl Hp Ho Hc.
  assert (exists fp t1,
            full_pose_loop scene g constr StdMap.empty = Some (fp, t1))
    as (fp & t1 & Hfp).
  { revert Hm. unfold ik_matching.
    destruct (full_pose_loop _ _ _ _) as [[fp t1]|]; [eauto|discriminate]. }
  destruct (full_pose_loop_reaches scene _ _ _ _ _ _ Hfp Hpm Hom Hl Hp Ho Hc)
    as [s Hs].
  exists s. split.
  - eapply partial_loops_keep_full_pose; eauto.
  - eapply full_pose_loop_full; [exact Hfp|].
    eapply (StdMapFacts.find_Some_elem _ string_ltb_order); exact Hs.
Qed.

(** X2. Every candidate of the table the matching loops build was built
    for the requested group, configured successfully, and has a goal made
    of position and orientation constraints of the input on the link it is
    stored under, each of which configured; the table holds one candidate
    per link, in the order of the link names. *)
Theorem candidate_table_is_sound scene g constr usedL t :
  ik_matching scene g constr = Some (usedL, t) ->
  StdMap.sorted String.ltb usedL
  /\ forall l s, (l, s) ∈ StdMap.elements usedL ->
       candidate_ok scene g constr l s
       /\ StdMap.find String.ltb l usedL = Some s.
Proof.
  intros H. pose proof (ik_matching_sorted _ _ _ _ _ H) as Hs.
  split; [exact Hs|]. intros l s Hin. split.
  - eapply ik_matching_candidates; eauto.
  - unfold StdMap.elements in Hin. clear H.
    induction Hs as [|[l1 s1] m Hs IH Hall]; [by apply elem_of_nil in Hin|].
    rewrite Forall_forall in Hall. simpl.
    apply elem_of_cons in Hin as [[= -> ->]|Hin].
    + by rewrite (lt_irrefl _ string_ltb_order).
    + specialize (Hall _ Hin). simpl in Hall.
      rewrite (lt_asym _ string_ltb_order _ _ Hall), Hall. by apply IH.
Qed.

Section configured_facts.
Variable scene : PlanningScene.

Lemma joint_pass_configured jmg constr r t :
  joint_pass scene jmg constr = Some (r, t) ->
  match r with
  | Return (Some s) | Continue (Some s) => configured scene s
  | Return None => False
  | Continue None => True
  end.
Proof.
  rewrite joint_pass_spec.
  destruct (joint_constraints constr) as [|m msgs]; [by intros [= <- <-]|].
  cbv zeta. unfold make_joint_sampler.
  destruct (forallb _ _).
  - destruct (JointConstraintSampler_configure _ _ _) eqn:Hc; simpl;
      intros [= <- <-]; [by constructor | exact I].
  - destruct (working_list _ _ _) eqn:Hw; [by intros [= <- <-]|].
    destruct (JointConstraintSampler_configure _ _ _) eqn:Hc; simpl;
      intros [= <- <-]; [by constructor | exact I].
Qed.

Lemma return_with_configured g samplers iks r t :
  Forall (configured scene) samplers ->
  IKConstraintSampler_configure scene (iks_group iks) (iks_pose iks) = true ->
  return_with g samplers iks = Some (r, t) ->
  exists s, r = Some s /\ configured scene s.
Proof.
  intros Hs Hc. unfold return_with.
  destruct samplers as [|x l]; simpl; intros [= <- <-]; eexists;
    (split; [reflexivity|]).
  - by constructor.
  - constructor. change (x :: l ++ [IKSampler iks])
      with ((x :: l) ++ [IKSampler iks]).
    apply Forall_app_2; [exact Hs|]. repeat constructor. exact Hc.
Qed.

Lemma ik_pass_configured jmg constr samplers r t :
  Forall (configured scene) samplers ->
  ik_pass scene jmg constr samplers = Some (Return r, t) ->
  exists s, r = Some s /\ configured scene s.
Proof.
  intros Hs. unfold ik_pass.
  destruct (getSolverAllocators jmg).1 as [fn|]; [|discriminate].
  intros H. inv_bind_as H as usedL tm tr Hm Hr.
  assert (forall l s, (l, s) ∈ usedL ->
            IKConstraintSampler_configure scene (iks_group s) (iks_pose s)
            = true) as Hok.
  { intros l s Hin.
    destruct (ik_matching_candidates scene _ _ _ _ Hm _ _ Hin) as (-> & Hc & _).
    exact Hc. }
  revert Hr. unfold ik_resolve, StdMap.elements.
  destruct usedL as [|[l1 first] [|e2 rest]]; [discriminate| |].
  - intros H. inv_bind_as H as r' t1 t2 Hw Hret. injection Hret as <- _.
    eapply return_with_configured; [exact Hs| |exact Hw].
    apply (Hok l1). left.
  - intros H. inv_bind_as H as r' t1 t2 Hw Hret. injection Hret as <- _.
    eapply return_with_configured; [exact Hs| |exact Hw].
    destruct (min_volume_spec scene l1 first (e2 :: rest))
      as (k & l & Hk & _).
    apply (Hok l). eapply list_elem_of_lookup_2. exact Hk.
Qed.

Lemma subgroup_loop_configured rec its constr :
  (forall g c s t, rec g c = Some (Some s, t) -> configured scene s) ->
  forall st st' t,
    Forall (configured scene) (samplers st) ->
    subgroup_loop scene rec its constr st = Some (st', t) ->
    Forall (configured scene) (samplers st').
Proof.
  intros Hrec. induction its as [|it its IH]; intros st st' t Hs; simpl.
  - by intros [= <- <-].
  - destruct (build_sub_constr _ _ _ _) as [[sc uP] uO].
    destruct (sub_constr_nonempty sc); [|by apply IH].
    intros H. inv_bind_as H as cs t1 t2 Hc Hl.
    destruct cs as [s|]; (eapply IH; [|exact Hl]); simpl; [|exact Hs].
    apply Forall_app_2; [exact Hs|]. repeat constructor. eauto.
Qed.

End configured_facts.

(** X3. Whatever [selectDefaultSampler] returns was configured
    successfully: a Joint Sampler or IK Sampler whose [configure] returned
    true, or a Union Sampler constructed over such samplers, at every depth
    of the recursion into subgroups.  A sampler whose configuration failed
    is never handed to the caller. *)
Theorem returned_sampler_is_configured scene fuel : forall g c s t,
  selectDefaultSampler scene fuel g c = Some (Some s, t) ->
  configured scene s.
Proof.
  induction fuel as [|fuel IH]; intros g c s t; [discriminate|].
  cbn [selectDefaultSampler]. unfold selectDefaultSampler_body.
  rewrite bind_emit.
  destruct (getJointModelGroup scene g) as [jmg|]; [|discriminate].
  destruct (bind _ _) as [[r' t']|] eqn:H; [|discriminate].
  intros [= -> _]. inv_bind_as H as a tj tr Hj Hk.
  pose proof (joint_pass_configured _ _ _ _ _ Hj) as Hjc.
  destruct a as [[s'|]|js]; [by injection Hk as -> | done |].
  assert (Forall (configured scene) (initial_samplers js)) as Hinit.
  { destruct js; simpl; by repeat constructor. }
  inv_bind_as Hk as b ti tr' Hik Hk'.
  destruct b as [r|[]].
  - destruct (ik_pass_configured _ _ _ _ _ _ Hinit Hik) as (s0 & -> & Hs0).
    by injection Hk' as ->.
  - inv_bind_as Hk' as d ts tr'' Hsub Hk''.
    destruct d as [r|[]]; [|injection Hk'' as ->; exact Hjc].
    injection Hk'' as ->. revert Hsub. unfold subgroup_pass.
    destruct (StdMap.elements _) as [|it its]; [discriminate|].
    intros H2. inv_bind_as H2 as st t1 t2 Hl Hr.
    destruct (some_sampler_valid st); [|discriminate].
    simpl in Hr. injection Hr as <-. constructor.
    eapply subgroup_loop_configured; [exact IH| |exact Hl]. exact Hinit.
Qed.

(** X4. When the whole-group IK pass ends with exactly one link in the
    Candidate Table, its candidate is the IK result: returned alone when
    there is no joint fallback, and otherwise in a Union Sampler constructed
    over the joint fallback followed by it; the subgroups are not
    consulted. *)
Theorem single_candidate_is_returned
    scene fuel g jmg constr js tj fn l iks tm :
  getJointModelGroup scene g = Some jmg ->
  joint_pass scene jmg constr = Some (Continue js, tj) ->
  (getSolverAllocators jmg).1 = Some fn ->
  ik_matching scene (getName jmg) constr = Some ([(l, iks)], tm) ->
  selectDefaultSampler scene (S fuel) g constr =
  Some (Some (match js with
              | None => IKSampler iks
              | Some j => UnionSampler (getName jmg) [j; IKSampler iks]
              end),
        ESelectDefault g constr :: tj ++ tm ++
        match js with
        | None => []
        | Some j => [EUnionSampler (getName jmg) [j; IKSampler iks]]
        end).
Proof.
  intros Hg Hjp Hfn Hmatch.
  cbn [selectDefaultSampler]. unfold selectDefaultSampler_body.
  rewrite bind_emit, Hg, Hjp. unfold ik_pass. rewrite Hfn, Hmatch.
  unfold ik_resolve, StdMap.elements, return_with.
  destruct js as [j|]; simpl; rewrite ?app_nil_r; reflexivity.
Qed.

Section cartesian_free_facts.
Variable scene : PlanningScene.

Lemma subgroup_loop_nothing_to_offer rec its constr :
  position_constraints constr = [] ->
  orientation_constraints constr = [] ->
  forall st, exists st',
    subgroup_loop scene rec its constr st = Some (st', [])
    /\ samplers st' = samplers st
    /\ some_sampler_valid st' = some_sampler_valid st.
Proof.
  intros Hp Ho. induction its as [|it its IH]; intros st; simpl.
  - by exists st.
  - unfold build_sub_constr. rewrite Hp, Ho. simpl.
    destruct (IH {| usedP := usedP st; usedO := usedO st;
                    samplers := samplers st;
                    some_sampler_valid := some_sampler_valid st |})
      as (st' & H & H1 & H2).
    by exists st'.
Qed.

End cartesian_free_facts.

(** X5. Without position and orientation constraints the call is decided
    by the joint coverage pass alone: it returns what that pass returned or
    retained (a Joint Sampler or nothing), constructs no IK Sampler and no
    Union Sampler, and makes no recursive call, so that it returns within
    any budget, whatever allocators and subgroups the group has. *)
Theorem joint_constraints_only scene fuel g jmg constr :
  getJointModelGroup scene g = Some jmg ->
  position_constraints constr = [] ->
  orientation_constraints constr = [] ->
  exists r tj,
    joint_pass scene jmg constr = Some (r, tj)
    /\ Forall joint_event_only tj
    /\ selectDefaultSampler scene (S fuel) g constr
       = Some (flow_value r, ESelectDefault g constr :: tj).
Proof.
  intros Hg Hp Ho.
  assert (exists r tj, joint_pass scene jmg constr = Some (r, tj)
                       /\ Forall joint_event_only tj) as (r & tj & Hj & Hev).
  { rewrite joint_pass_spec.
    destruct (joint_constraints constr) as [|m msgs];
      [by exists (Continue None), []|].
    cbv zeta. unfold make_joint_sampler.
    destruct (forallb _ _).
    - destruct (JointConstraintSampler_configure _ _ _); simpl;
        eexists _, _; (split; [reflexivity|]); by repeat constructor.
    - destruct (working_list _ _ _); [by exists (Continue None), []|].
      destruct (JointConstraintSampler_configure _ _ _); simpl;
        eexists _, _; (split; [reflexivity|]); by repeat constructor. }
  exists r, tj. split; [exact Hj|]. split; [exact Hev|].
  cbn [selectDefaultSampler]. unfold selectDefaultSampler_body.
  rewrite bind_emit, Hg, Hj. cbn [bind].
  destruct r as [s|js]; cbn [ret flow_value]; [by rewrite app_nil_r|].
  assert (ik_pass scene jmg constr (initial_samplers js)
          = Some (Continue tt, [])) as ->.
  { unfold ik_pass, ik_matching, full_pose_loop. rewrite Hp, Ho.
    by destruct (getSolverAllocators jmg).1. }
  cbn [bind]. unfold subgroup_pass.
  destruct (StdMap.elements (getSolverAllocators jmg).2) as [|it its].
  - cbn [bind ret]. by rewrite !app_nil_r.
  - destruct (subgroup_loop_nothing_to_offer scene
                (selectDefaultSampler scene fuel) (it :: its) constr Hp Ho
                {| usedP := ∅; usedO := ∅;
                   samplers := initial_samplers js;
                   some_sampler_valid := false |})
      as (st' & -> & _ & Hv).
    cbn [bind]. rewrite Hv. cbn [some_sampler_valid bind ret].
    by rewrite !app_nil_r.
Qed.

(** X6. The subgroup pass never constructs a Joint Sampler: the
    sub-constraint-sets carry no joint constraints, so the joint
    constraints of the input are used by the joint coverage pass of the
    requested group only and are not delegated to subgroups. *)
Theorem subgroup_pass_builds_no_joint_sampler
    scene fuel jmg constr samplers0 r t :
  subgroup_pass scene (selectDefaultSampler scene fuel) jmg constr samplers0
  = Some (r, t) ->
  forall g' jc', EJointSampler g' jc' ∉ t.
Proof.
  intros H g' jc' Hin.
  assert (Forall no_joint_event t) as Hall.
  { eapply subgroup_pass_trace; [|exact H].
    apply selectDefaultSampler_no_joint. }
  rewrite Forall_forall in Hall. exact (Hall _ Hin).
Qed.

Section owner_facts.
Variable scene : PlanningScene.

Lemma claimed_sublist {A} (link : A -> string) sub msgs : forall i used,
  (claimed link sub msgs i used).*2 `sublist_of` msgs.
Proof.
  induction msgs as [|m msgs IH]; intros i used; simpl; [constructor|].
  destruct (_ && _); simpl.
  - apply sublist_skip, IH.
  - apply sublist_cons, IH.
Qed.

(** Constraints on link [l] in what one subgroup claims. *)
Lemma claimed_filter_absent {A} (link : A -> string) l sub msgs :
  forall i used,
  hasLinkModel sub l = false ->
  filter (fun m => link m = l) (claimed link sub msgs i used).*2 = [].
Proof.
  induction msgs as [|m msgs IH]; intros i used Hl; simpl; [reflexivity|].
  destruct (hasLinkModel sub (link m)) eqn:Hm; simpl; [|by apply IH].
  destruct (bool_decide (i ∈ used)); simpl; [by apply IH|].
  rewrite filter_cons.
  destruct (decide (link m = l)) as [E|_]; [congruence | by apply IH].
Qed.

Lemma claimed_filter_used {A} (link : A -> string) l sub msgs :
  forall i (used : gset nat),
  (forall p m, msgs !! p = Some m -> link m = l -> i + p ∈ used) ->
  filter (fun m => link m = l) (claimed link sub msgs i used).*2 = [].
Proof.
  induction msgs as [|m msgs IH]; intros i used Hu; simpl; [reflexivity|].
  assert (filter (fun m => link m = l)
            (claimed link sub msgs (S i) used).*2 = []) as IH'.
  { apply IH. intros p m' Hp Hm'.
    replace (S i + p) with (i + S p) by lia. by apply (Hu (S p) m'). }
  destruct (hasLinkModel sub (link m)); simpl; [|exact IH'].
  destruct (bool_decide (i ∈ used)) eqn:Hi; simpl; [exact IH'|].
  rewrite filter_cons.
  destruct (decide (link m = l)) as [E|_]; [|exact IH'].
  apply bool_decide_eq_false in Hi.
  specialize (Hu 0 m eq_refl E). rewrite Nat.add_0_r in Hu. done.
Qed.

Lemma claimed_filter_fresh {A} (link : A -> string) l sub msgs :
  forall i (used : gset nat),
  hasLinkModel sub l = true ->
  (forall p m, msgs !! p = Some m -> link m = l -> i + p ∉ used) ->
  filter (fun m => link m = l) (claimed link sub msgs i used).*2
  = filter (fun m => link m = l) msgs.
Proof.
  induction msgs as [|m msgs IH]; intros i used Hl Hu; simpl; [reflexivity|].
  assert (filter (fun m => link m = l) (claimed link sub msgs (S i) used).*2
          = filter (fun m => link m = l) msgs) as IH'.
  { apply IH; [exact Hl|]. intros p m' Hp Hm'.
    replace (S i + p) with (i + S p) by lia. by apply (Hu (S p) m'). }
  rewrite (filter_cons _ m msgs).
  destruct (decide (link m = l)) as [E|E].
  - rewrite E, Hl. simpl.
    rewrite bool_decide_eq_false_2; simpl.
    + rewrite filter_cons, decide_True by exact E. f_equal. exact IH'.
    + specialize (Hu 0 m eq_refl E). by rewrite Nat.add_0_r in Hu.
  - destruct (_ && _); simpl; [|exact IH'].
    rewrite filter_cons, decide_False by exact E. exact IH'.
Qed.

(** The index sets after one subgroup, for the constraints on link [l]. *)
Lemma claimed_keeps_fresh {A} (link : A -> string) l sub msgs
    (used : gset nat) :
  hasLinkModel sub l = false ->
  (forall p m, msgs !! p = Some m -> link m = l -> p ∉ used) ->
  forall p m, msgs !! p = Some m -> link m = l ->
    p ∉ list_to_set (claimed link sub msgs 0 used).*1 ∪ used.
Proof.
  intros Hl Hu p m Hp Hm [Hin|Hin]%elem_of_union; [|by eapply Hu].
  apply elem_of_list_to_set, list_elem_of_fmap in Hin as ([p' m'] & -> & Hin).
  apply claimed_elem in Hin as (_ & _ & Hm' & Hl'). simpl in *.
  rewrite Nat.sub_0_r, Hp in Hm'. injection Hm' as <-. congruence.
Qed.

Lemma claimed_marks {A} (link : A -> string) l sub msgs (used : gset nat) :
  hasLinkModel sub l = true ->
  forall p m, msgs !! p = Some m -> link m = l ->
    p ∈ list_to_set (claimed link sub msgs 0 used).*1 ∪ used.
Proof.
  intros Hl p m Hp Hm.
  destruct (decide (p ∈ used)) as [Hu|Hu]; [apply elem_of_union; by right|].
  apply elem_of_union. left. apply elem_of_list_to_set.
  apply list_elem_of_fmap. exists (p, m). split; [done|].
  apply claimed_elem. rewrite Nat.sub_0_r, Hm. auto with lia.
Qed.

Lemma used_grows {A} (link : A -> string) sub msgs (used : gset nat) p :
  p ∈ used -> p ∈ list_to_set (claimed link sub msgs 0 used).*1 ∪ used.
Proof. intros Hp. apply elem_of_union. by right. Qed.

(** Once the constraints on [l] are claimed, no later subgroup receives
    one. *)
Lemma sub_constr_sequence_claimed its constr l : forall uP uO,
  (forall p m, position_constraints constr !! p = Some m ->
     pc_link_name m = l -> p ∈ uP) ->
  (forall o m, orientation_constraints constr !! o = Some m ->
     oc_link_name m = l -> o ∈ uO) ->
  forall e, e ∈ sub_constr_sequence scene its constr uP uO ->
    on_link l e.2 = ([], []).
Proof.
  induction its as [|it its IH]; intros uP uO HP HO e; simpl;
    [by intros ?%elem_of_nil|].
  rewrite build_sub_constr_spec.
  intros [->|Hin]%elem_of_cons.
  - unfold on_link. simpl.
    rewrite !claimed_filter_used; [reflexivity | |]; intros p m Hp Hm; simpl.
    + by eapply HO.
    + by eapply HP.
  - refine (IH _ _ _ _ e Hin).
    + intros p m Hp Hm. apply used_grows. by eapply HP.
    + intros o m Ho Hm. apply used_grows. by eapply HO.
Qed.

(** No subgroup without link [l] receives a constraint on [l]. *)
Lemma sub_constr_sequence_none its constr l : forall uP uO,
  (forall it, it ∈ its -> hasLinkModel (deref scene it.1) l = false) ->
  forall e, e ∈ sub_constr_sequence scene its constr uP uO ->
    on_link l e.2 = ([], []).
Proof.
  induction its as [|it its IH]; intros uP uO Hnone e; simpl;
    [by intros ?%elem_of_nil|].
  rewrite build_sub_constr_spec.
  intros [->|Hin]%elem_of_cons.
  - unfold on_link. simpl.
    rewrite !claimed_filter_absent; [reflexivity | |]; apply Hnone; left.
  - refine (IH _ _ _ e Hin).
    intros it' Hit. apply Hnone. by right.
Qed.

(** The first subgroup with link [l] receives all constraints on [l]. *)
Lemma sub_constr_sequence_first its constr l : forall k it uP uO,
  its !! k = Some it ->
  hasLinkModel (deref scene it.1) l = true ->
  (forall j it', j < k -> its !! j = Some it' ->
     hasLinkModel (deref scene it'.1) l = false) ->
  (forall p m, position_constraints constr !! p = Some m ->
     pc_link_name m = l -> p ∉ uP) ->
  (forall o m, orientation_constraints constr !! o = Some m ->
     oc_link_name m = l -> o ∉ uO) ->
  forall j e, sub_constr_sequence scene its constr uP uO !! j = Some e ->
    on_link l e.2 = if decide (j = k) then on_link l constr else ([], []).
Proof.
  induction its as [|it0 its IH]; intros k it uP uO Hk Hl Hfirst HP HO j e;
    [done|].
  simpl. rewrite build_sub_constr_spec.
  destruct k as [|k]; simpl in Hk.
  - injection Hk as ->. destruct j as [|j]; simpl.
    + intros [= <-]. unfold on_link. simpl.
      rewrite !claimed_filter_fresh; [reflexivity | done | | done |].
      * intros p m Hp Hm. by eapply HO.
      * intros p m Hp Hm. by eapply HP.
    + intros Hj. apply list_elem_of_lookup_2 in Hj.
      eapply sub_constr_sequence_claimed; [| |exact Hj].
      * intros p m Hp Hm. by eapply claimed_marks.
      * intros o m Ho Hm. by eapply claimed_marks.
  - assert (hasLinkModel (deref scene it0.1) l = false) as Hl0
      by (apply (Hfirst 0 it0); [lia | done]).
    destruct j as [|j]; simpl.
    + intros [= <-]. unfold on_link. simpl.
      by rewrite !claimed_filter_absent.
    + intros Hj.
      rewrite (fun H1 H2 H3 => IH k it _ _ Hk Hl H1 H2 H3 j e Hj).
      * destruct (decide (j = k)), (decide (S j = S k)); done || lia.
      * intros j' it' Hj'. apply (Hfirst (S j')). lia.
      * by apply claimed_keeps_fresh.
      * by apply claimed_keeps_fresh.
Qed.

End owner_facts.

(** X7. Which subgroup receives a constraint.  The subgroup loop, started
    with empty index sets, calls [selectDefaultSampler] on one
    sub-constraint-set per subgroup, in processing order (no call is made
    for an empty set).  For a link [l], the set of the first subgroup that
    has [l] holds all position and orientation constraints of the input on
    [l], in input order, and the set of every other subgroup holds none;
    when no subgroup has [l], no set holds a constraint on [l]: these
    constraints are silently left out. *)
Theorem first_subgroup_with_link_owns_constraint scene its constr :
  exists plan uP uO,
    (forall rec samplers0,
       subgroup_loop scene rec its constr
         {| usedP := ∅; usedO := ∅; samplers := samplers0;
            some_sampler_valid := false |}
       = bind (run_calls rec plan (samplers0, false))
              (fun r => ret {| usedP := uP; usedO := uO;
                               samplers := r.1;
                               some_sampler_valid := r.2 |}))
    /\ plan.*1 = (fun it => deref scene it.1) <$> its
    /\ (forall l k it,
          its !! k = Some it ->
          hasLinkModel (deref scene it.1) l = true ->
          (forall j it', j < k -> its !! j = Some it' ->
             hasLinkModel (deref scene it'.1) l = false) ->
          forall j e, plan !! j = Some e ->
            on_link l e.2
            = if decide (j = k) then on_link l constr else ([], []))
    /\ (forall l,
          (forall it, it ∈ its ->
             hasLinkModel (deref scene it.1) l = false) ->
          forall e, e ∈ plan -> on_link l e.2 = ([], [])).
Proof.
  exists (sub_constr_sequence scene its constr ∅ ∅),
    (final_used scene its constr ∅ ∅).1, (final_used scene its constr ∅ ∅).2.
  split; [|split; [|split]].
  - intros rec samplers0. by rewrite subgroup_loop_spec.
  - apply sub_constr_sequence_groups.
  - intros l k it Hk Hl Hfirst j e Hj.
    eapply sub_constr_sequence_first; eauto; intros; apply not_elem_of_empty.
  - intros l Hnone e He. by eapply sub_constr_sequence_none.
Qed.

(** X8. The sub-constraint-set built for a subgroup carries no joint
    constraints; its position and orientation constraints are taken from
    the input in input order (they form a subsequence of the input's); and
    the index sets only grow. *)
Theorem sub_constraint_set_keeps_input_order sub constr uP uO :
  joint_constraints (build_sub_constr sub constr uP uO).1.1 = []
  /\ position_constraints (build_sub_constr sub constr uP uO).1.1
       `sublist_of` position_constraints constr
  /\ orientation_constraints (build_sub_constr sub constr uP uO).1.1
       `sublist_of` orientation_constraints constr
  /\ uP ⊆ (build_sub_constr sub constr uP uO).1.2
  /\ uO ⊆ (build_sub_constr sub constr uP uO).2.
Proof.
  rewrite build_sub_constr_spec. simpl.
  split; [reflexivity|]. split; [apply claimed_sublist|].
  split; [apply claimed_sublist|].
  split; apply union_subseteq_r.
Qed.

(* ===================================================================== *)
(** * Further properties of [KinematicTrajectory] *)
(* ===================================================================== *)

Section trajectory_facts.
Context {Model State Duration : Type}.
Implicit Types (h : gmap nat (KinematicTrajectory.t Model State Duration))
               (a b o : KinematicTrajectory.t Model State Duration).

(** The store after [swap], written with two updates. *)
Lemma swap_distinct h this other a b :
  this <> other -> h !! this = Some a -> h !! other = Some b ->
  KinematicTrajectory.swap this other h
  = Some (<[other :=
             {| KinematicTrajectory.kmodel_ := KinematicTrajectory.kmodel_ a;
                KinematicTrajectory.group_ := KinematicTrajectory.group_ a;
                KinematicTrajectory.waypoints_ :=
                  KinematicTrajectory.waypoints_ a;
                KinematicTrajectory.duration_from_previous_ :=
                  KinematicTrajectory.duration_from_previous_ b |}]>
          (<[this :=
               {| KinematicTrajectory.kmodel_ := KinematicTrajectory.kmodel_ b;
                  KinematicTrajectory.group_ := KinematicTrajectory.group_ b;
                  KinematicTrajectory.waypoints_ :=
                    KinematicTrajectory.waypoints_ b;
                  KinematicTrajectory.duration_from_previous_ :=
                    KinematicTrajectory.duration_from_previous_ a |}]> h)).
Proof.
  intros Hne Ha Hb. unfold KinematicTrajectory.swap.
  erewrite swap_member_distinct by eauto. simpl.
  erewrite swap_member_distinct;
    [| done | by rewrite lookup_insert_ne, lookup_insert_eq
       | by rewrite lookup_insert_eq ].
  simpl.
  erewrite swap_member_distinct;
    [| done | by rewrite lookup_insert_ne, lookup_insert_eq
       | by rewrite lookup_insert_eq ].
  simpl.
  erewrite swap_member_self;
    [| by intros [] | by rewrite lookup_insert_ne, lookup_insert_eq ].
  f_equal. apply map_eq. intros l.
  destruct (decide (l = other)) as [->|Ho];
    [by rewrite !lookup_insert_eq|].
  rewrite !(lookup_insert_ne _ other) by done.
  destruct (decide (l = this)) as [->|Ht];
    [by rewrite !lookup_insert_eq|].
  by rewrite !lookup_insert_ne.
Qed.

End trajectory_facts.

(** X9. Swapping two distinct trajectories twice gives back the store as
    it was: [swap] undoes itself (the duration lists, which it never
    moves, included). *)
Theorem swap_twice_restores {Model State Duration : Type}
    (h : gmap nat (KinematicTrajectory.t Model State Duration))
    (this other : nat) (a b : KinematicTrajectory.t Model State Duration) :
  this <> other -> h !! this = Some a -> h !! other = Some b ->
  KinematicTrajectory.swap this other h
    ≫= KinematicTrajectory.swap this other = Some h.
Proof.
  intros Hne Ha Hb.
  rewrite (swap_distinct h this other a b Hne Ha Hb). simpl.
  erewrite swap_distinct;
    [| done | by rewrite lookup_insert_ne, lookup_insert_eq
       | by rewrite lookup_insert_eq ].
  simpl. f_equal. apply map_eq. intros l.
  destruct (decide (l = other)) as [->|Ho].
  - rewrite lookup_insert_eq, Hb. by destruct b.
  - rewrite lookup_insert_ne by done.
    destruct (decide (l = this)) as [->|Ht].
    + rewrite lookup_insert_eq, Ha. by destruct a.
    + by rewrite !lookup_insert_ne.
Qed.

(** X10. Swapping a trajectory with itself changes nothing in the store. *)
Theorem swap_with_itself {Model State Duration : Type}
    (h : gmap nat (KinematicTrajectory.t Model State Duration))
    (this : nat) (a : KinematicTrajectory.t Model State Duration) :
  h !! this = Some a ->
  KinematicTrajectory.swap this this h = Some h.
Proof.
  intros Ha. unfold KinematicTrajectory.swap.
  rewrite (swap_member_self _ _ this h a) by (by intros [] || done). simpl.
  rewrite (swap_member_self _ _ this h a) by (by intros [] || done). simpl.
  rewrite (swap_member_self _ _ this h a) by (by intros [] || done). simpl.
  apply (swap_member_self _ _ this h a); [by intros [] | done].
Qed.

Section member_facts.
Context {Model State Duration : Type}.
Variable add : Duration -> Duration -> Duration.
Implicit Types (o s : KinematicTrajectory.t Model State Duration).

Lemma reverse_durations o :
  KinematicTrajectory.duration_from_previous_ (KinematicTrajectory.reverse o)
  = match KinematicTrajectory.duration_from_previous_ o with
    | [] => []
    | d0 :: rest => d0 :: rev rest
    end.
Proof.
  unfold KinematicTrajectory.reverse.
  cbn [KinematicTrajectory.duration_from_previous_].
  destruct (KinematicTrajectory.duration_from_previous_ o) as [|d0 rest];
    [reflexivity|].
  rewrite rev_app_distr.
  change (rev [d0]) with [d0].
  change (rev (d0 :: rest)) with (rev rest ++ [d0]).
  rewrite app_assoc. apply removelast_last.
Qed.

Lemma append_durations o s dt :
  KinematicTrajectory.duration_from_previous_
    (KinematicTrajectory.append add o s dt)
  = KinematicTrajectory.duration_from_previous_ o
    ++ match KinematicTrajectory.duration_from_previous_ s with
       | [] => []
       | d :: rest => add d dt :: rest
       end.
Proof.
  unfold KinematicTrajectory.append. simpl.
  destruct (KinematicTrajectory.duration_from_previous_ s) as [|d rest].
  - rewrite app_nil_r, Nat.ltb_irrefl. reflexivity.
  - rewrite length_app. simpl.
    destruct (Nat.ltb_spec (length (KinematicTrajectory.duration_from_previous_ o))
                (length (KinematicTrajectory.duration_from_previous_ o)
                 + S (length rest))) as [_|Hge]; [|lia].
    induction (KinematicTrajectory.duration_from_previous_ o) as [|x l IH];
      simpl; [reflexivity|]. by rewrite <- IH.
Qed.

End member_facts.

(** X11. [reverse] reverses the waypoints; of the durations it keeps the
    first one in front and reverses the others; and reversing twice gives
    back the trajectory. *)
Theorem reverse_twice_restores {Model State Duration : Type}
    (o : KinematicTrajectory.t Model State Duration) :
  KinematicTrajectory.waypoints_ (KinematicTrajectory.reverse o)
  = rev (KinematicTrajectory.waypoints_ o)
  /\ KinematicTrajectory.duration_from_previous_ (KinematicTrajectory.reverse o)
     = match KinematicTrajectory.duration_from_previous_ o with
       | [] => []
       | d0 :: rest => d0 :: rev rest
       end
  /\ KinematicTrajectory.reverse (KinematicTrajectory.reverse o) = o.
Proof.
  split; [reflexivity|]. split; [apply reverse_durations|].
  pose proof (reverse_durations (KinematicTrajectory.reverse o)) as H2.
  rewrite (reverse_durations o) in H2.
  destruct o as [km gr wp d].
  unfold KinematicTrajectory.reverse at 1. f_equal.
  - simpl. apply rev_involutive.
  - simpl in *. unfold KinematicTrajectory.reverse in H2. simpl in H2.
    rewrite H2. destruct d as [|d0 rest]; [reflexivity|].
    by rewrite rev_involutive.
Qed.

(** X12. [append] puts the waypoints of [source] after those of the
    trajectory, and the durations of [source] after its durations, [dt]
    being added to the first duration of [source]; when [source] has no
    durations, [dt] is dropped. *)
Theorem append_shifts_first_duration {Model State Duration : Type}
    (add : Duration -> Duration -> Duration)
    (o s : KinematicTrajectory.t Model State Duration) (dt : Duration) :
  KinematicTrajectory.waypoints_ (KinematicTrajectory.append add o s dt)
  = KinematicTrajectory.waypoints_ o ++ KinematicTrajectory.waypoints_ s
  /\ KinematicTrajectory.duration_from_previous_
       (KinematicTrajectory.append add o s dt)
     = KinematicTrajectory.duration_from_previous_ o
       ++ match KinematicTrajectory.duration_from_previous_ s with
          | [] => []
          | d :: rest => add d dt :: rest
          end.
Proof. split; [reflexivity | apply append_durations]. Qed.

(** X13. Having one duration per waypoint is established by [clear] and
    kept by [reverse] and by [append] of a trajectory that has it; the
    [swap] with a vector of waypoints keeps it only for an empty vector,
    since it clears the durations. *)
Theorem aligned_is_kept {Model State Duration : Type}
    (add : Duration -> Duration -> Duration)
    (o : KinematicTrajectory.t Model State Duration) :
  KinematicTrajectory.aligned (KinematicTrajectory.clear o)
  /\ (KinematicTrajectory.aligned o ->
      KinematicTrajectory.aligned (KinematicTrajectory.reverse o))
  /\ (forall s dt,
        KinematicTrajectory.aligned o -> KinematicTrajectory.aligned s ->
        KinematicTrajectory.aligned (KinematicTrajectory.append add o s dt))
  /\ (forall other,
        KinematicTrajectory.aligned
          (KinematicTrajectory.swap_waypoints o other).1
        <-> other = []).
Proof.
  unfold KinematicTrajectory.aligned. split; [reflexivity|].
  split; [|split].
  - intros Ha. rewrite reverse_durations. simpl. rewrite length_rev.
    destruct (KinematicTrajectory.duration_from_previous_ o); [done|].
    simpl in *. by rewrite length_rev.
  - intros s dt Ha Hs. rewrite append_durations. simpl.
    rewrite !length_app, Ha, <- Hs.
    by destruct (KinematicTrajectory.duration_from_previous_ s).
  - intros other. simpl. split.
    + by destruct other.
    + by intros ->.
Qed.

Section message_facts.
Context {Model State Duration RosTime RosDuration : Type}.
Context {KinematicState JointState : Type}.
Variable add : Duration -> Duration -> Duration.
Variable zero : Duration.
Variable zero_time : RosTime.
Variable Duration_of : Duration -> RosDuration.
Variable now : nat -> RosTime.
Variable getModelFrame : Model -> string.
Variable model_joints : Model -> list KinematicTrajectory.JointModel.
Variable group_joints : GroupPtr -> list KinematicTrajectory.JointModel.
Variable get : State -> option KinematicState.
Variable getJointState : KinematicState -> string -> option JointState.
Variable getVariableValues : JointState -> list Duration.

Lemma split_joints_spec jnt : forall n1 o1 nM oM,
  foldl KinematicTrajectory.split_step (n1, o1, nM, oM) jnt
  = (n1 ++ (KinematicTrajectory.jm_getName <$>
              filter (fun j => KinematicTrajectory.getVariableCount j = 1) jnt),
     o1 ++ filter (fun j => KinematicTrajectory.getVariableCount j = 1) jnt,
     nM ++ (KinematicTrajectory.jm_getName <$>
              filter (fun j => KinematicTrajectory.getVariableCount j <> 1) jnt),
     oM ++ filter (fun j => KinematicTrajectory.getVariableCount j <> 1) jnt).
Proof.
  induction jnt as [|j jnt IH]; intros n1 o1 nM oM; simpl.
  - by rewrite !app_nil_r.
  - rewrite !filter_cons.
    destruct (Nat.eqb_spec (KinematicTrajectory.getVariableCount j) 1) as [E|E].
    + rewrite IH, decide_True, decide_False by (done || auto).
      rewrite fmap_cons, <- !app_assoc. reflexivity.
    + rewrite IH, decide_False, decide_True by done.
      rewrite fmap_cons, <- !app_assoc. reflexivity.
Qed.

Lemma fill_points_spec onedof mdof durations wps : forall i ps,
  KinematicTrajectory.fill_points add zero Duration_of get getJointState
    getVariableValues onedof mdof durations wps i
    (foldl add zero (take i durations)) = Some ps ->
  length ps.1 = (if onedof is [] then 0 else length wps)
  /\ length ps.2 = (if mdof is [] then 0 else length wps)
  /\ (forall k p, ps.1 !! k = Some p ->
        length (KinematicTrajectory.positions p) = length onedof
        /\ KinematicTrajectory.jtp_time_from_start p
           = Duration_of (if durations !! (i + k) is Some _
                          then foldl add zero (take (S (i + k)) durations)
                          else zero))
  /\ (forall k p, ps.2 !! k = Some p ->
        length (KinematicTrajectory.values p) = length mdof
        /\ KinematicTrajectory.mdp_time_from_start p
           = Duration_of (if durations !! (i + k) is Some _
                          then foldl add zero (take (S (i + k)) durations)
                          else zero)).
Proof.
  induction wps as [|wp wps IH]; intros i ps; simpl.
  - intros [= <-]. simpl. repeat split; try by destruct onedof, mdof.
    all: by intros k p ?.
  - destruct (mapM _ onedof) as [pos|] eqn:Hpos; [|discriminate]. simpl.
    assert (match durations !! i with
            | Some d => add (foldl add zero (take i durations)) d
            | None => foldl add zero (take i durations)
            end = foldl add zero (take (S i) durations)) as Htot.
    { destruct (durations !! i) as [d|] eqn:Hd.
      - rewrite (take_S_r _ _ _ Hd), foldl_app. reflexivity.
      - apply lookup_ge_None in Hd. by rewrite !take_ge by lia. }
    destruct (mapM _ mdof) as [vals|] eqn:Hvals; [|discriminate]. simpl.
    rewrite Htot.
    destruct (KinematicTrajectory.fill_points _ _ _ _ _ _ _ _ _ _ _ _)
      as [ps'|] eqn:Hrest; [|discriminate]. simpl.
    intros [= <-].
    destruct (IH _ _ Hrest) as (L1 & L2 & T1 & T2).
    apply length_mapM in Hpos. apply length_mapM in Hvals.
    simpl. split; [|split; [|split]].
    + destruct onedof; simpl; [done | by rewrite L1].
    + destruct mdof; simpl; [done | by rewrite L2].
    + intros k p. destruct onedof as [|j1 onedof']; simpl in *.
      * intros Hk. apply lookup_lt_Some in Hk. lia.
      * destruct k as [|k]; simpl.
        -- intros [= <-]. simpl. rewrite Nat.add_0_r. split; [done|].
           by destruct (durations !! i).
        -- intros Hk. replace (i + S k) with (S i + k) by lia. by apply T1.
    + intros k p. destruct mdof as [|j1 mdof']; simpl in *.
      * intros Hk. apply lookup_lt_Some in Hk. lia.
      * destruct k as [|k]; simpl.
        -- intros [= <-]. simpl. rewrite Nat.add_0_r. split; [done|].
           by destruct (durations !! i).
        -- intros Hk. replace (i + S k) with (S i + k) by lia. by apply T2.
Qed.




End message_facts.

Section message_theorems.
Context {Model State Duration RosTime RosDuration : Type}.
Context {KinematicState JointState : Type}.
Variable add : Duration -> Duration -> Duration.
Variable zero : Duration.
Variable zero_time : RosTime.
Variable Duration_of : Duration -> RosDuration.
Variable now : nat -> RosTime.
Variable getModelFrame : Model -> string.
Variable model_joints : Model -> list KinematicTrajectory.JointModel.
Variable group_joints : GroupPtr -> list KinematicTrajectory.JointModel.
Variable get : State -> option KinematicState.
Variable getJointState : KinematicState -> string -> option JointState.
Variable getVariableValues : JointState -> list Duration.

(** X14. In the message of a trajectory that has waypoints, every joint is
    named exactly once, in the order of the model: the joints with one
    variable in the joint trajectory, all others in the multi-DOF
    trajectory.  Each of the two headers is filled in (model frame and the
    current time) exactly when its trajectory has a joint, and is left as
    constructed otherwise. *)
Theorem trajectory_msg_splits_joints
    (o : KinematicTrajectory.t Model State Duration) msg :
  KinematicTrajectory.waypoints_ o <> [] ->
  KinematicTrajectory.getRobotTrajectoryMsg add zero zero_time Duration_of
    now getModelFrame model_joints group_joints get getJointState
    getVariableValues o
  = Some msg ->
  KinematicTrajectory.jt_joint_names (KinematicTrajectory.joint_trajectory msg)
  = KinematicTrajectory.jm_getName <$>
      filter (fun j => KinematicTrajectory.getVariableCount j = 1)
        (trajectory_joints model_joints group_joints o)
  /\ KinematicTrajectory.md_joint_names
       (KinematicTrajectory.multi_dof_joint_trajectory msg)
     = KinematicTrajectory.jm_getName <$>
         filter (fun j => KinematicTrajectory.getVariableCount j <> 1)
           (trajectory_joints model_joints group_joints o)
  /\ (KinematicTrajectory.jt_joint_names
        (KinematicTrajectory.joint_trajectory msg) = [] ->
      KinematicTrajectory.jt_header (KinematicTrajectory.joint_trajectory msg)
      = KinematicTrajectory.default_header zero_time)
  /\ (KinematicTrajectory.jt_joint_names
        (KinematicTrajectory.joint_trajectory msg) <> [] ->
      KinematicTrajectory.frame_id
        (KinematicTrajectory.jt_header
           (KinematicTrajectory.joint_trajectory msg))
      = getModelFrame (KinematicTrajectory.kmodel_ o))
  /\ (KinematicTrajectory.md_joint_names
        (KinematicTrajectory.multi_dof_joint_trajectory msg) = [] ->
      KinematicTrajectory.md_header
        (KinematicTrajectory.multi_dof_joint_trajectory msg)
      = KinematicTrajectory.default_header zero_time)
  /\ (KinematicTrajectory.md_joint_names
        (KinematicTrajectory.multi_dof_joint_trajectory msg) <> [] ->
      KinematicTrajectory.frame_id
        (KinematicTrajectory.md_header
           (KinematicTrajectory.multi_dof_joint_trajectory msg))
      = getModelFrame (KinematicTrajectory.kmodel_ o)).
Proof.
  intros Hwp. unfold KinematicTrajectory.getRobotTrajectoryMsg.
  destruct (KinematicTrajectory.waypoints_ o) as [|wp wps] eqn:Ew; [done|].
  fold (trajectory_joints model_joints group_joints o).
  unfold KinematicTrajectory.split_joints. rewrite split_joints_spec.
  cbn [app].
  destruct (KinematicTrajectory.fill_points _ _ _ _ _ _ _ _ _ _ _ _) as [ps|];
    [|discriminate].
  simpl. intros [= <-]. simpl.
  split; [reflexivity|]. split; [reflexivity|].
  destruct (filter (fun j => KinematicTrajectory.getVariableCount j = 1) _),
    (filter (fun j => KinematicTrajectory.getVariableCount j <> 1) _);
    simpl; repeat split; done.
Qed.

(** X15. The points of the message, when the function returns one for a
    trajectory: a trajectory with at least one joint has one point per
    waypoint (and none without joints), with one position per
    single-variable joint, respectively one list of values per other joint.
    The time of point [i] is the sum, from 0.0 and added in order, of the
    durations up to [i] when the trajectory has a duration for waypoint
    [i], and zero when it has none. *)
Theorem trajectory_msg_points
    (o : KinematicTrajectory.t Model State Duration) msg :
  KinematicTrajectory.getRobotTrajectoryMsg add zero zero_time Duration_of
    now getModelFrame model_joints group_joints get getJointState
    getVariableValues o
  = Some msg ->
  length (KinematicTrajectory.jt_points
            (KinematicTrajectory.joint_trajectory msg))
  = (if KinematicTrajectory.jt_joint_names
          (KinematicTrajectory.joint_trajectory msg) is []
     then 0 else length (KinematicTrajectory.waypoints_ o))
  /\ length (KinematicTrajectory.md_points
               (KinematicTrajectory.multi_dof_joint_trajectory msg))
     = (if KinematicTrajectory.md_joint_names
             (KinematicTrajectory.multi_dof_joint_trajectory msg) is []
        then 0 else length (KinematicTrajectory.waypoints_ o))
  /\ (forall i p,
        KinematicTrajectory.jt_points
          (KinematicTrajectory.joint_trajectory msg) !! i = Some p ->
        length (KinematicTrajectory.positions p)
        = length (KinematicTrajectory.jt_joint_names
                    (KinematicTrajectory.joint_trajectory msg))
        /\ KinematicTrajectory.jtp_time_from_start p
           = Duration_of
               (if KinematicTrajectory.duration_from_previous_ o !! i is Some _
                then foldl add zero
                       (take (S i) (KinematicTrajectory.duration_from_previous_ o))
                else zero))
  /\ (forall i p,
        KinematicTrajectory.md_points
          (KinematicTrajectory.multi_dof_joint_trajectory msg) !! i = Some p ->
        length (KinematicTrajectory.values p)
        = length (KinematicTrajectory.md_joint_names
                    (KinematicTrajectory.multi_dof_joint_trajectory msg))
        /\ KinematicTrajectory.mdp_time_from_start p
           = Duration_of
               (if KinematicTrajectory.duration_from_previous_ o !! i is Some _
                then foldl add zero
                       (take (S i) (KinematicTrajectory.duration_from_previous_ o))
                else zero)).
Proof.
  unfold KinematicTrajectory.getRobotTrajectoryMsg.
  destruct (KinematicTrajectory.waypoints_ o) as [|wp wps] eqn:Ew.
  { intros [= <-]. simpl. split; [done|]. split; [done|].
    split; intros i p H; done. }
  fold (trajectory_joints model_joints group_joints o).
  unfold KinematicTrajectory.split_joints. rewrite split_joints_spec.
  cbn [app].
  set (onedof := filter (fun j => KinematicTrajectory.getVariableCount j = 1)
                   (trajectory_joints model_joints group_joints o)).
  set (mdof := filter (fun j => KinematicTrajectory.getVariableCount j <> 1)
                 (trajectory_joints model_joints group_joints o)).
  destruct (KinematicTrajectory.fill_points _ _ _ _ _ _ _ _ _ _ _ _) as [ps|]
    eqn:Hfill; [|discriminate].
  simpl. intros [= <-]. simpl.
  destruct (fill_points_spec add zero Duration_of get getJointState
              getVariableValues onedof mdof (KinematicTrajectory.duration_from_previous_ o)
              (wp :: wps) 0 ps Hfill) as (L1 & L2 & T1 & T2).
  rewrite !length_fmap.
  split; [|split; [|split]].
  - rewrite L1. by destruct onedof.
  - rewrite L2. by destruct mdof.
  - intros i p Hp. exact (T1 i p Hp).
  - intros i p Hp. exact (T2 i p Hp).
Qed.


End message_theorems.

(** ** Instances of the further properties *)

Lemma full_pose_goal_witness :
  exists s,
    StdMap.find String.ltb "tool" [("tool", Example.pose_goal)] = Some s
    /\ is_Some (position_constraint_ (iks_pose s))
    /\ is_Some (orientation_constraint_ (iks_pose s)).
Proof.
  apply (full_pose_goal_takes_precedence Example.scene "arm" Example.full_pose
           [("tool", Example.pose_goal)]
           [EIKSampler "arm"
              {| position_constraint_ :=
                   Some (mkPositionConstraint (Example.pc "tool" [4%Z]));
                 orientation_constraint_ :=
                   Some (mkOrientationConstraint (Example.oc "tool" [3%Z])) |};
            EIKSampler "arm" (iks_pose Example.pose_goal)]
           (Example.pc "tool" [4%Z]) (Example.oc "tool" [3%Z])).
  - reflexivity.
  - left.
  - left.
  - reflexivity.
  - reflexivity.
  - reflexivity.
  - reflexivity.
Defined.

Lemma candidate_table_witness :
  StdMap.sorted String.ltb
    [("tool", Example.tool_goal); ("wrist", Example.wrist_goal)]
  /\ forall l s,
       (l, s) ∈ [("tool", Example.tool_goal); ("wrist", Example.wrist_goal)] ->
       candidate_ok Example.scene "arm" Example.two_links l s
       /\ StdMap.find String.ltb l
            [("tool", Example.tool_goal); ("wrist", Example.wrist_goal)]
          = Some s.
Proof.
  apply (candidate_table_is_sound Example.scene "arm" Example.two_links
           [("tool", Example.tool_goal); ("wrist", Example.wrist_goal)]
           [EIKSampler "arm" (iks_pose Example.wrist_goal);
            EIKSampler "arm" (iks_pose Example.tool_goal)]).
  reflexivity.
Defined.

Lemma returned_sampler_witness :
  configured Example.scene
    (UnionSampler "arms"
       [IKSampler Example.left_goal; IKSampler Example.right_goal]).
Proof.
  apply (returned_sampler_is_configured Example.scene 2 "arms"
           Example.both_hands
           (UnionSampler "arms"
              [IKSampler Example.left_goal; IKSampler Example.right_goal])
           [ESelectDefault "arms" Example.both_hands;
            ESelectDefault "left_arm"
              (sub_constraints [(1, Example.pc "left_hand" [4%Z])] []);
            EIKSampler "left_arm" (iks_pose Example.left_goal);
            ESelectDefault "right_arm"
              (sub_constraints [(0, Example.pc "right_hand" [3%Z])] []);
            EIKSampler "right_arm" (iks_pose Example.right_goal);
            EUnionSampler "arms"
              [IKSampler Example.left_goal; IKSampler Example.right_goal]]).
  reflexivity.
Defined.

Lemma single_candidate_witness :
  selectDefaultSampler Example.scene 1 "arm" Example.same_link =
  Some (Some (IKSampler Example.second_goal),
        ESelectDefault "arm" Example.same_link :: [] ++
        [EIKSampler "arm" (iks_pose Example.first_goal);
         EIKSampler "arm" (iks_pose Example.second_goal)] ++ []).
Proof.
  apply (single_candidate_is_returned Example.scene 0 "arm" Example.arm
           Example.same_link None [] 0 "tool" Example.second_goal
           [EIKSampler "arm" (iks_pose Example.first_goal);
            EIKSampler "arm" (iks_pose Example.second_goal)]).
  - reflexivity.
  - reflexivity.
  - reflexivity.
  - reflexivity.
Defined.

Lemma joint_constraints_only_witness :
  exists r tj,
    joint_pass Example.scene Example.arms Example.left_joint_only = Some (r, tj)
    /\ Forall joint_event_only tj
    /\ selectDefaultSampler Example.scene 1 "arms" Example.left_joint_only
       = Some (flow_value r,
               ESelectDefault "arms" Example.left_joint_only :: tj).
Proof.
  apply (joint_constraints_only Example.scene 0 "arms" Example.arms
           Example.left_joint_only).
  - reflexivity.
  - reflexivity.
  - reflexivity.
Defined.

Lemma subgroup_pass_no_joint_sampler_witness :
    EJointSampler "left_arm" [] ∉
      [ESelectDefault "left_arm"
         (sub_constraints [(1, Example.pc "left_hand" [4%Z])] []);
       EIKSampler "left_arm" (iks_pose Example.left_goal);
       ESelectDefault "right_arm"
         (sub_constraints [(0, Example.pc "right_hand" [3%Z])] []);
       EIKSampler "right_arm" (iks_pose Example.right_goal);
       EUnionSampler "arms"
         [IKSampler Example.left_goal; IKSampler Example.right_goal]].
Proof.
  apply (subgroup_pass_builds_no_joint_sampler Example.scene 1 Example.arms
           Example.both_hands []
           (Return (Some (UnionSampler "arms"
                            [IKSampler Example.left_goal;
                             IKSampler Example.right_goal])))
           _ eq_refl "left_arm" []).
Defined.

Lemma swap_twice_witness :
  KinematicTrajectory.swap 0 1 Example.trajectories
    ≫= KinematicTrajectory.swap 0 1 = Some Example.trajectories.
Proof.
  apply (swap_twice_restores Example.trajectories 0 1
           Example.trajectory0 Example.trajectory1).
  - discriminate.
  - reflexivity.
  - reflexivity.
Defined.

Lemma swap_with_itself_witness :
  KinematicTrajectory.swap 1 1 Example.trajectories
  = Some Example.trajectories.
Proof.
  apply (swap_with_itself Example.trajectories 1 Example.trajectory1).
  reflexivity.
Defined.

Lemma trajectory_msg_joints_witness :
  KinematicTrajectory.jt_joint_names
    (KinematicTrajectory.joint_trajectory Example.trajectory0_msg)
  = KinematicTrajectory.jm_getName <$>
      filter (fun j => KinematicTrajectory.getVariableCount j = 1)
        Example.joints
  /\ KinematicTrajectory.md_joint_names
       (KinematicTrajectory.multi_dof_joint_trajectory Example.trajectory0_msg)
     = KinematicTrajectory.jm_getName <$>
         filter (fun j => KinematicTrajectory.getVariableCount j <> 1)
           Example.joints.
Proof.
  destruct (trajectory_msg_splits_joints Z.add 0%Z 0%Z (fun d => d)
              (fun n => (100 + Z.of_nat n)%Z) (fun _ => "world")
              (fun _ => Example.joints) (fun _ => Example.joints)
              Example.state_at Example.joint_state
              Example.variable_values Example.trajectory0
              Example.trajectory0_msg)
    as (H1 & H2 & _).
  - discriminate.
  - reflexivity.
  - split; [exact H1 | exact H2].
Defined.

Lemma trajectory_msg_points_witness :
  length (KinematicTrajectory.jt_points
            (KinematicTrajectory.joint_trajectory Example.trajectory0_msg))
  = 2
  /\ forall i p,
       KinematicTrajectory.jt_points
         (KinematicTrajectory.joint_trajectory Example.trajectory0_msg) !! i
       = Some p ->
       KinematicTrajectory.jtp_time_from_start p
       = (if [0%Z; 2%Z] !! i is Some _
          then foldl Z.add 0%Z (take (S i) [0%Z; 2%Z]) else 0%Z).
Proof.
  destruct (trajectory_msg_points Z.add 0%Z 0%Z (fun d => d)
              (fun n => (100 + Z.of_nat n)%Z) (fun _ => "world")
              (fun _ => Example.joints) (fun _ => Example.joints)
              Example.state_at Example.joint_state
              Example.variable_values Example.trajectory0
              Example.trajectory0_msg eq_refl)
    as (L1 & _ & T1 & _).
  split.
  - exact L1.
  - intros i p Hp. exact (proj2 (T1 i p Hp)).
Defined.
